(** * anon-kode: the conversation and tool-execution engine

    A shallow embedding of the permission engine (src/permissions.ts), the
    model-call wrapper (src/services/claude.ts), the message normalisation
    layer (src/utils/messages.tsx) and the tool dispatch of the query loop
    (src/query.ts), with the properties the specification states about them.
    In the source tree at hand the text of src/services/claude.ts follows
    that of src/hooks/useApiKeyVerification.ts in one file, and the text of
    src/utils/messages.tsx follows that of src/tools.ts.

    Conventions.  A JavaScript [string | null] is an [option string]; a
    [Map<string, V>] is a [gmap string V]; a [Set<string>] is a
    [gset string]; an array is a [list]; a number that counts money is a
    rational.  A function that may throw returns an [Outcome].  What the
    modelled files import from files that are not modelled (product name,
    tool names, the shell splitter, the environment of the process) is a
    parameter of the definitions that use it.

    The definitions come first, module by module; the properties follow in
    modules of their own. *)

From Stdlib Require Import ZArith QArith Qminmax Qpower Lia Ascii String Sorted.
From stdpp Require Import base decidable option list strings pretty gmap.

Local Open Scope string_scope.
Local Open Scope list_scope.

(** ** Outcomes of code that may throw *)

Inductive Outcome (E A : Type) : Type :=
  | Returned (a : A)
  | Thrown (e : E).
Arguments Returned {E A} a.
Arguments Thrown {E A} e.

(** ** Strings

    Source strings are modelled by their ASCII content. *)

(** [hay.includes(needle)] *)
Fixpoint includes (needle hay : string) : bool :=
  if String.prefix needle hay then true
  else match hay with
       | EmptyString => false
       | String _ rest => includes needle rest
       end.

Definition lowerAscii (c : ascii) : ascii :=
  let n := nat_of_ascii c in
  if bool_decide (65 <= n <= 90)%nat then ascii_of_nat (n + 32) else c.

(** [s.toLowerCase()] *)
Fixpoint toLowerCase (s : string) : string :=
  match s with
  | EmptyString => EmptyString
  | String c rest => String (lowerAscii c) (toLowerCase rest)
  end.

Definition dquote : string := String "034"%char EmptyString.

(** ** The permission engine (src/permissions.ts) *)

Module Permissions.

(** [CommandPrefixResult] and [CommandSubcommandPrefixResult] of
    utils/commands, as the fields [bashToolHasPermission] reads. *)
Record CommandPrefixResult : Type := {
  commandPrefix : option string;
  commandInjectionDetected : bool }.

Record CommandSubcommandPrefixResult : Type := {
  fullCommandPrefix :> CommandPrefixResult;
  subcommandPrefixes : gmap string CommandPrefixResult }.

(** [throw new AbortError()] is the one exception of this file. *)
Inductive PermissionExn : Type :=
  | AbortError.

(** [type PermissionResult = { result: true } | { result: false; message }] *)
Inductive PermissionResult : Type :=
  | Granted
  | Refused (message : string).

(** The tool objects [getPermissionKey] switches on: the shell tool, or any
    other tool, known by its name. *)
Inductive Tool : Type :=
  | BashTool
  | OtherTool (name : string).

(** Commands that are known to be safe for execution *)
Definition SAFE_COMMANDS : gset string :=
  {[ "git status"; "git diff"; "git log"; "git branch";
     "pwd"; "tree"; "date"; "which" ]}.

(** JavaScript truthiness of a [string | null]. *)
Definition truthy (s : option string) : bool :=
  match s with
  | Some EmptyString => false
  | Some _ => true
  | None => false
  end.

(** What the permission engine imports from files outside this model:
    [PRODUCT_NAME] of constants/product, [BashTool.name] and
    [BashTool.renderToolUseMessage] of tools/BashTool, [splitCommand] of
    utils/commands and [getCwd] of utils/state. *)
Class Environment : Type := {
  PRODUCT_NAME : string;
  BashTool_name : string;
  renderToolUseMessage : string -> string;
  splitCommand : string -> list string;
  getCwd : string }.

Section WithEnvironment.
Context `{!Environment}.

Definition Tool_name (tool : Tool) : string :=
  match tool with
  | BashTool => BashTool_name
  | OtherTool n => n
  end.

Definition getPermissionKey (tool : Tool) (command : string)
    (prefix : option string) : string :=
  match tool with
  | BashTool =>
      if truthy prefix
      then BashTool_name +:+ "(" +:+ default "" prefix +:+ ":*)"
      else BashTool_name +:+ "(" +:+ renderToolUseMessage command +:+ ")"
  | OtherTool n => n
  end.

Definition bashToolCommandHasExactMatchPermission (tool : Tool)
    (command : string) (allowedTools : list string) : bool :=
  if bool_decide (command ∈ SAFE_COMMANDS) then true
  else if bool_decide (getPermissionKey tool command None ∈ allowedTools)
  then true
  else if bool_decide
            (getPermissionKey tool command (Some command) ∈ allowedTools)
  then true
  else false.

Definition bashToolCommandHasPermission (tool : Tool) (command : string)
    (prefix : option string) (allowedTools : list string) : bool :=
  if bashToolCommandHasExactMatchPermission tool command allowedTools
  then true
  else bool_decide (getPermissionKey tool command prefix ∈ allowedTools).

Definition permissionRequestMessage (tool : Tool) : string :=
  PRODUCT_NAME +:+ " requested permissions to use " +:+ Tool_name tool
    +:+ ", but you haven't granted it yet.".

(** The callback of [subCommands.every] in [bashToolHasPermission]. *)
Definition subCommandHasPermission (tool : Tool)
    (commandSubcommandPrefix : CommandSubcommandPrefixResult)
    (allowedTools : list string) (subCommand : string) : bool :=
  match subcommandPrefixes commandSubcommandPrefix !! subCommand with
  | None => false
  | Some prefixResult =>
      if commandInjectionDetected prefixResult then false
      else bashToolCommandHasPermission tool subCommand
             (commandPrefix prefixResult) allowedTools
  end.

(** [bashToolHasPermission].  The classifier is the function argument
    [getCommandSubcommandPrefixFn], [None] being its [null] result;
    [aborted] is [context.abortController.signal.aborted] as read after the
    classifier has answered. *)
Definition bashToolHasPermission (tool : Tool) (command : string)
    (aborted : bool) (allowedTools : list string)
    (getCommandSubcommandPrefixFn :
       string -> option CommandSubcommandPrefixResult)
    : Outcome PermissionExn PermissionResult :=
  if bashToolCommandHasExactMatchPermission tool command allowedTools
  then Returned Granted
  else
    let subCommands :=
      filter (λ c, c ≠ "cd " +:+ getCwd) (splitCommand command) in
    let commandSubcommandPrefix := getCommandSubcommandPrefixFn command in
    if aborted then Thrown AbortError
    else
      match commandSubcommandPrefix with
      | None => Returned (Refused (permissionRequestMessage tool))
      | Some r =>
          if commandInjectionDetected r then
            if bashToolCommandHasExactMatchPermission tool command
                 allowedTools
            then Returned Granted
            else Returned (Refused (permissionRequestMessage tool))
          else if bool_decide (length subCommands < 2) then
            if bashToolCommandHasPermission tool command (commandPrefix r)
                 allowedTools
            then Returned Granted
            else Returned (Refused (permissionRequestMessage tool))
          else if forallb (subCommandHasPermission tool r allowedTools)
                    subCommands
          then Returned Granted
          else Returned (Refused (permissionRequestMessage tool))
      end.

End WithEnvironment.

(** *** Data for closed examples *)

(** A stand-in environment for closed examples: the shell tool is called
    Bash, commands render as themselves, and the splitter knows the
    compound commands used below. *)
Definition demoSplit (command : string) : list string :=
  if bool_decide (command = "echo a && echo b") then ["echo a"; "echo b"]
  else if bool_decide (command = "echo hello; rm -rf /")
  then ["echo hello"; "rm -rf /"]
  else [command].

Definition demoEnv : Environment := {|
  PRODUCT_NAME := "Koding";
  BashTool_name := "Bash";
  renderToolUseMessage := λ command, command;
  splitCommand := demoSplit;
  getCwd := "/repo" |}.

Definition classifierDown : string -> option CommandSubcommandPrefixResult :=
  λ _, None.

(** A classifier answer that flags the full command and carries the given
    per-sub-command map. *)
Definition flagged (subs : gmap string CommandPrefixResult)
    : CommandSubcommandPrefixResult :=
  {| fullCommandPrefix :=
       {| commandPrefix := None; commandInjectionDetected := true |};
     subcommandPrefixes := subs |}.

Definition detected (prefix : string) : CommandPrefixResult :=
  {| commandPrefix := Some prefix; commandInjectionDetected := false |}.

Definition echoPrefixes : gmap string CommandPrefixResult :=
  {[ "echo a" := detected "echo"; "echo b" := detected "echo" ]}.

(** The classifier flags [echo hello; rm -rf /] as a whole. *)
Definition classifierFlagsAll
    : string -> option CommandSubcommandPrefixResult :=
  λ _, Some (flagged ∅).

(** The classifier flags the full command [echo a && echo b] while it maps
    both sub-commands to the clean prefix [echo]. *)
Definition classifierFlagsFullOnly
    : string -> option CommandSubcommandPrefixResult :=
  λ _, Some (flagged echoPrefixes).

Definition classifierClean
    : string -> option CommandSubcommandPrefixResult :=
  λ _, Some {| fullCommandPrefix :=
                 {| commandPrefix := None;
                    commandInjectionDetected := false |};
               subcommandPrefixes := echoPrefixes |}.

End Permissions.

(** ** The message model (src/query.ts, src/utils/messages.tsx)

    The fields that the modelled functions read or write.  [costUSD] is a
    rational number; a UUID is the string that [randomUUID()] drew. *)

Module Msg.

Definition UUID : Type := string.

(** Content blocks of the provider SDK, by their [type] tag. *)
Inductive ContentBlock : Type :=
  | TextBlock (text : string)
  | ImageBlock (source : string)
  | ToolUseBlock (id name input : string)
  | ToolResultBlock (tool_use_id content : string) (is_error : bool)
  | ThinkingBlock (thinking : string).

(** [message.content: string | ContentBlock[]] *)
Inductive Content : Type :=
  | Text (s : string)
  | Blocks (blocks : list ContentBlock).

Record UserMessage : Type := {
  user_content : Content;
  user_uuid : UUID;
  toolUseResult : option string }.

Record AssistantMessage : Type := {
  costUSD : Q;
  durationMs : Z;
  message_id : string;
  message_model : string;
  assistant_content : Content;
  assistant_uuid : UUID;
  isApiErrorMessage : bool }.

Record ProgressMessage : Type := {
  progress_content : AssistantMessage;
  siblingToolUseIDs : gset string;
  toolUseID : string;
  progress_uuid : UUID }.

Inductive Message : Type :=
  | User (m : UserMessage)
  | Assistant (m : AssistantMessage)
  | Progress (m : ProgressMessage).

Definition NO_CONTENT_MESSAGE : string := "(no content)".

(** [baseCreateAssistantMessage(content, extra)], with the two UUIDs it
    draws; [extra] is the optional [isApiErrorMessage]. *)
Definition baseCreateAssistantMessage (uuid id : UUID)
    (content : list ContentBlock) (extra : bool) : AssistantMessage :=
  {| costUSD := 0;
     durationMs := 0;
     message_id := id;
     message_model := "<synthetic>";
     assistant_content := Blocks content;
     assistant_uuid := uuid;
     isApiErrorMessage := extra |}.

Definition createAssistantMessage (uuid id : UUID) (content : string)
    : AssistantMessage :=
  baseCreateAssistantMessage uuid id
    [TextBlock (if bool_decide (content = "") then NO_CONTENT_MESSAGE
                else content)]
    false.

Definition createAssistantAPIErrorMessage (uuid id : UUID) (content : string)
    : AssistantMessage :=
  baseCreateAssistantMessage uuid id
    [TextBlock (if bool_decide (content = "") then NO_CONTENT_MESSAGE
                else content)]
    true.

Definition createUserMessage (uuid : UUID) (content : Content)
    (toolUseResult : option string) : UserMessage :=
  {| user_content := content;
     user_uuid := uuid;
     toolUseResult := toolUseResult |}.

End Msg.

(** ** The model-call wrapper (src/services/claude.ts) *)

Module Claude.
Import Msg.

Definition API_ERROR_MESSAGE_PREFIX : string := "API Error".
Definition PROMPT_TOO_LONG_ERROR_MESSAGE : string := "Prompt is too long".
Definition CREDIT_BALANCE_TOO_LOW_ERROR_MESSAGE : string :=
  "Credit balance is too low".
Definition INVALID_API_KEY_ERROR_MESSAGE : string :=
  "Invalid API key · Please run /login".

(** An [APIError] of the SDK: [message], [status] and [headers] may be
    undefined; [isConnectionError] is [error instanceof
    APIConnectionError]. *)
Record APIError : Type := {
  message : string;
  status : option Z;
  headers : option (gmap string string);
  isConnectionError : bool }.

(** What a [catch (error)] clause can receive. *)
Inductive Failure : Type :=
  | APIErrorInstance (error : APIError)
  | ErrorInstance (message : string)
  | NotAnError.

(** [error instanceof Error], with the message when it holds. *)
Definition errorMessage (error : Failure) : option string :=
  match error with
  | APIErrorInstance e => Some (message e)
  | ErrorInstance m => Some m
  | NotAnError => None
  end.

Definition overloadedMarker : string :=
  dquote +:+ "type" +:+ dquote +:+ ":" +:+ dquote +:+ "overloaded_error"
    +:+ dquote.

Section WithProcessEnv.

(** [process.env.USER_TYPE] *)
Variable USER_TYPE : option string.

Definition MAX_RETRIES : nat :=
  if bool_decide (USER_TYPE = Some "SWE_BENCH") then 100%nat else 10%nat.

(** [error.headers?.['x-should-retry']] *)
Definition shouldRetryHeader (error : APIError) : option string :=
  headers error ≫= (λ h, h !! "x-should-retry").

Definition shouldRetry (error : APIError) : bool :=
  if includes overloadedMarker (message error)
  then bool_decide (USER_TYPE = Some "SWE_BENCH")
  else if bool_decide (shouldRetryHeader error = Some "true") then true
  else if bool_decide (shouldRetryHeader error = Some "false") then false
  else if isConnectionError error then true
  else
    match status error with
    | None => false
    | Some st =>
        if bool_decide (st = 0)%Z then false
        else if bool_decide (st = 408)%Z then true
        else if bool_decide (st = 409)%Z then true
        else if bool_decide (st = 429)%Z then true
        else if bool_decide (500 <= st)%Z then true
        else false
    end.

(** The test that ends the retry loop in [withRetry]'s [catch]. *)
Definition givesUp (maxRetries attempt : nat) (error : Failure) : bool :=
  if bool_decide (maxRetries < attempt)%nat then true
  else match error with
       | APIErrorInstance e => negb (shouldRetry e)
       | _ => true
       end.

(** The [for] loop of [withRetry]: [remaining] iterations are left and the
    next one is number [attempt].  When the loop runs out, [lastError] is
    thrown ([undefined] if nothing was caught).  The wait between two
    attempts takes time and has no other effect. *)
Fixpoint withRetry_loop {T : Type} (operation : nat -> Outcome Failure T)
    (maxRetries remaining attempt : nat) (lastError : option Failure)
    : Outcome Failure T :=
  match remaining with
  | O => Thrown (default NotAnError lastError)
  | S remaining' =>
      match operation attempt with
      | Returned r => Returned r
      | Thrown error =>
          if givesUp maxRetries attempt error then Thrown error
          else withRetry_loop operation maxRetries remaining' (S attempt)
                 (Some error)
      end
  end.

(** [withRetry(operation, options)]; [maxRetries] is [options.maxRetries]. *)
Definition withRetry {T : Type} (operation : nat -> Outcome Failure T)
    (maxRetries : option nat) : Outcome Failure T :=
  let maxRetries := default MAX_RETRIES maxRetries in
  withRetry_loop operation maxRetries (maxRetries + 1) 1 None.

(** The text that [getAssistantMessageFromError] hands to
    [createAssistantAPIErrorMessage]. *)
Definition errorText (error : Failure) : string :=
  match errorMessage error with
  | Some m =>
      if includes "prompt is too long" m then PROMPT_TOO_LONG_ERROR_MESSAGE
      else if includes "Your credit balance is too low" m
      then CREDIT_BALANCE_TOO_LOW_ERROR_MESSAGE
      else if includes "x-api-key" (toLowerCase m)
      then INVALID_API_KEY_ERROR_MESSAGE
      else API_ERROR_MESSAGE_PREFIX +:+ ": " +:+ m
  | None => API_ERROR_MESSAGE_PREFIX
  end.

Definition getAssistantMessageFromError (uuid id : UUID) (error : Failure)
    : AssistantMessage :=
  createAssistantAPIErrorMessage uuid id (errorText error).

(** [queryOpenAI].  Before its [try] the function builds the request:
    it reads the configuration, splits the system prompt, awaits the
    [prompt()] of every tool, converts the schemas and the messages;
    [prepare] is what this gives, the request or the value thrown, which
    nothing catches.  The [try] holds [withRetry] around the closure
    [operation request], one model call per attempt, and its [catch]
    returns the message built from the error.  After the [try] the
    response is turned into the returned message (token usage, cost,
    [normalizeContentFromAPI], [addToTotalCost]); [fromResponse] is the
    outcome of that part, which nothing catches either.  [uuid] and [id]
    are the UUIDs drawn on the error path. *)
Definition queryOpenAI {Request Response : Type}
    (prepare : Outcome Failure Request)
    (operation : Request -> nat -> Outcome Failure Response)
    (fromResponse : Response -> Outcome Failure AssistantMessage)
    (uuid id : UUID) : Outcome Failure AssistantMessage :=
  match prepare with
  | Thrown error => Thrown error
  | Returned request =>
      match withRetry (operation request) None with
      | Thrown error => Returned (getAssistantMessageFromError uuid id error)
      | Returned response => fromResponse response
      end
  end.

(** An error ends the retry loop at once when it is not an [APIError] or
    the classifier calls it terminal. *)
Definition terminal (error : Failure) : Prop :=
  match error with
  | APIErrorInstance e => shouldRetry e = false
  | _ => True
  end.

(** Attempts [from] to [k - 1] all failed with a retryable API error. *)
Definition retriedThrough {T : Type} (operation : nat -> Outcome Failure T)
    (from k : nat) : Prop :=
  forall j, (from <= j < k)%nat ->
    exists e, operation j = Thrown (APIErrorInstance e)
              /\ shouldRetry e = true.

End WithProcessEnv.

(** *** Data for closed examples *)

(** The overloaded answer of the provider: status 529, with a retry hint. *)
Definition overloaded529 : APIError := {|
  message := "529 {" +:+ overloadedMarker +:+ "}";
  status := Some 529%Z;
  headers := Some {[ "x-should-retry" := "true" ]};
  isConnectionError := false |}.

Definition overloaded400 : APIError := {|
  message := overloadedMarker;
  status := Some 400%Z;
  headers := Some {[ "x-should-retry" := "false" ]};
  isConnectionError := false |}.

Definition internal500 : APIError := {|
  message := "500 Internal Server Error";
  status := Some 500%Z;
  headers := None;
  isConnectionError := false |}.

Definition notFound404 : APIError := {|
  message := "404 Not Found";
  status := Some 404%Z;
  headers := Some ∅;
  isConnectionError := false |}.

Definition alwaysFails {T : Type} (error : Failure)
    : nat -> Outcome Failure T :=
  λ _, Thrown error.

(** Two server errors, then an answer. *)
Definition thirdTimeLucky : nat -> Outcome Failure string :=
  λ attempt,
    if bool_decide (attempt < 3)%nat then Thrown (APIErrorInstance internal500)
    else Returned "ok".

(** A post-processing that always succeeds. *)
Definition wrap (response : string) : Outcome Failure AssistantMessage :=
  Returned
    {| costUSD := 0; durationMs := 0; message_id := "msg";
       message_model := "large";
       assistant_content := Blocks [TextBlock response];
       assistant_uuid := "uuid"; isApiErrorMessage := false |}.

End Claude.

(** ** Display normalisation (src/utils/messages.tsx) *)

Module Display.
Import Msg.

(** [costUSD / content.length] *)
Definition costShare (m : AssistantMessage) (blocks : list ContentBlock) : Q :=
  (costUSD m / inject_Z (Z.of_nat (length blocks)))%Q.

(** The object that [normalizeMessages] builds for one block of an
    assistant message: [message] is spread but for [content]; the optional
    [isApiErrorMessage] is not copied. *)
Definition splitAssistant (m : AssistantMessage)
    (blocks : list ContentBlock) (uuid : UUID) (block : ContentBlock)
    : AssistantMessage :=
  {| costUSD := costShare m blocks;
     durationMs := durationMs m;
     message_id := message_id m;
     message_model := message_model m;
     assistant_content := Blocks [block];
     assistant_uuid := uuid;
     isApiErrorMessage := false |}.

(** The callback of [messages.flatMap] in [normalizeMessages].
    [randomUUID k] is the [k]-th UUID that the process draws, [drawn] the
    number of UUIDs drawn so far. *)
Definition normalizeMessage (randomUUID : nat -> UUID) (drawn : nat)
    (message : Message) : list Message :=
  match message with
  | Progress _ => [message]
  | User u =>
      match user_content u with
      | Text _ => [message]
      | Blocks blocks => (λ _ : ContentBlock, message) <$> blocks
      end
  | Assistant a =>
      match assistant_content a with
      | Text _ => [message]
      | Blocks blocks =>
          imap (λ i block,
                  Assistant (splitAssistant a blocks
                               (randomUUID (drawn + i)%nat) block))
               blocks
      end
  end.

(** The number of UUIDs that [normalizeMessage] draws. *)
Definition draws (message : Message) : nat :=
  match message with
  | Assistant a =>
      match assistant_content a with
      | Text _ => 0%nat
      | Blocks blocks => length blocks
      end
  | _ => 0%nat
  end.

Fixpoint normalizeMessages (randomUUID : nat -> UUID) (drawn : nat)
    (messages : list Message) : list Message :=
  match messages with
  | [] => []
  | message :: rest =>
      normalizeMessage randomUUID drawn message
        ++ normalizeMessages randomUUID (drawn + draws message)%nat rest
  end.

(** The cost that a list of messages carries. *)
Definition messageCost (message : Message) : Q :=
  match message with
  | Assistant a => costUSD a
  | _ => 0
  end.

Definition totalCost (messages : list Message) : Q :=
  foldr (λ message acc, messageCost message + acc)%Q 0%Q messages.

(** *** Data for closed examples *)



End Display.

(** ** Wire normalisation (src/utils/messages.tsx)

    [normalizeMessagesForAPI] looks the last message of its result up by
    object identity ([result.indexOf(lastMessage)]), so the model keeps,
    with every message, the address of the object that holds it. *)

Module Wire.
Import Msg.

(** A message object: its address on the heap and the message it holds. *)
Record Obj : Type := {
  addr : nat;
  val : Message }.

Definition isProgress (message : Message) : bool :=
  match message with
  | Progress _ => true
  | _ => false
  end.

(** [Array.isArray(content) && content[0]?.type === 'tool_result'],
    with the array when the test holds. *)
Definition toolResultBlocks (u : UserMessage) : option (list ContentBlock) :=
  match user_content u with
  | Blocks ((ToolResultBlock _ _ _ :: _) as blocks) => Some blocks
  | _ => None
  end.

(** [result.indexOf(object)]: the first index that holds the object. *)
Fixpoint indexOf (address : nat) (result : list Obj) : option nat :=
  match result with
  | [] => None
  | o :: rest =>
      if bool_decide (addr o = address) then Some 0%nat
      else S <$> indexOf address rest
  end.

(** [{...lastMessage, message: {...lastMessage.message, content:
    [...lastMessage.message.content, ...message.message.content]}}] *)
Definition merged (lastMessage : UserMessage)
    (lastBlocks blocks : list ContentBlock) : UserMessage :=
  {| user_content := Blocks (lastBlocks ++ blocks);
     user_uuid := user_uuid lastMessage;
     toolUseResult := toolUseResult lastMessage |}.

(** The body of the [forEach].  The state is the [result] array and the
    address that the next allocated object receives. *)
Definition visit (state : list Obj * nat) (message : Obj) : list Obj * nat :=
  let '(result, next) := state in
  match val message with
  | Progress _ => state
  | Assistant _ => (result ++ [message], next)
  | User u =>
      match toolResultBlocks u with
      | None => (result ++ [message], next)
      | Some blocks =>
          match last result with
          | Some lastMessage =>
              match val lastMessage with
              | User lastUser =>
                  match toolResultBlocks lastUser with
                  | Some lastBlocks =>
                      let object :=
                        {| addr := next;
                           val := User (merged lastUser lastBlocks blocks) |}
                      in
                      (match indexOf (addr lastMessage) result with
                       | Some i => <[i := object]> result
                       | None => result
                       end, S next)
                  | None => (result ++ [message], next)
                  end
              | _ => (result ++ [message], next)
              end
          | None => (result ++ [message], next)
          end
      end
  end.

(** An address above those of all objects of the list. *)
Definition unused (messages : list Obj) : nat :=
  foldr (λ o n, Nat.max (S (addr o)) n) 0%nat messages.

Definition normalizeMessagesForAPI (messages : list Obj) : list Obj :=
  fst (fold_left visit
         (List.filter (λ o, negb (isProgress (val o))) messages)
         ([], unused messages)).

(** *** The statement of the specification *)

Definition keepsWire (messages : list Message) : list Message :=
  List.filter (λ message, negb (isProgress message)) messages.

(** A user message whose content is an array that starts with a tool
    result. *)
Definition isToolResultMessage (message : Message) : bool :=
  match message with
  | User u => bool_decide (is_Some (toolResultBlocks u))
  | _ => false
  end.

Definition startsWithToolResult (messages : list Message) : bool :=
  match messages with
  | message :: _ => isToolResultMessage message
  | [] => false
  end.

(** [message.content] as an array. *)
Definition blocksOf (u : UserMessage) : list ContentBlock :=
  match user_content u with
  | Blocks blocks => blocks
  | Text _ => []
  end.

(** The message that stands for a run of tool-result messages: the head
    of the run, with the content blocks of the whole run in order. *)
Definition mergeAll (head : UserMessage) (others : list UserMessage)
    : UserMessage :=
  {| user_content := Blocks (blocksOf head ++ concat (blocksOf <$> others));
     user_uuid := user_uuid head;
     toolUseResult := toolUseResult head |}.

(** The statement of the specification, on a list without progress
    messages: every maximal run of consecutive tool-result user messages
    is replaced by one user message that holds their content blocks in
    order, and every other message is kept. *)
Inductive Merged : list Message -> list Message -> Prop :=
  | Merged_nil : Merged [] []
  | Merged_keep message messages out :
      isToolResultMessage message = false ->
      Merged messages out ->
      Merged (message :: messages) (message :: out)
  | Merged_run head others messages out :
      Forall (λ u, isToolResultMessage (User u) = true) (head :: others) ->
      startsWithToolResult messages = false ->
      Merged messages out ->
      Merged (User head :: (User <$> others) ++ messages)
        (User (mergeAll head others) :: out).

Fixpoint noAdjacentToolResults (out : list Message) : Prop :=
  match out with
  | m1 :: rest =>
      (isToolResultMessage m1 = true -> startsWithToolResult rest = false)
      /\ noAdjacentToolResults rest
  | [] => True
  end.

(** The merge as a machine that reads the list from the left and keeps
    the run that is still open. *)
Definition close (open : option UserMessage) : list Message :=
  match open with
  | Some l => [User l]
  | None => []
  end.

Fixpoint wireFrom (open : option UserMessage) (messages : list Message)
    : list Message :=
  match messages with
  | [] => close open
  | message :: rest =>
      match message with
      | Progress _ => wireFrom open rest
      | Assistant _ => close open ++ message :: wireFrom None rest
      | User u =>
          if isToolResultMessage message then
            match open with
            | Some l =>
                wireFrom (Some (merged l (blocksOf l) (blocksOf u))) rest
            | None => wireFrom (Some u) rest
            end
          else close open ++ message :: wireFrom None rest
      end
  end.

(** The [result] array while the list is read: either no run is open, or
    its last object holds the run that is still open. *)
Inductive Shape : list Obj -> list Obj -> option UserMessage -> Prop :=
  | Shape_closed result :
      (forall o, last result = Some o ->
                 isToolResultMessage (val o) = false) ->
      Shape result result None
  | Shape_open prefix o l :
      val o = User l ->
      isToolResultMessage (User l) = true ->
      Shape (prefix ++ [o]) prefix (Some l).

(** *** Data for closed examples *)

Definition toolResult (uuid toolUseID : string) : UserMessage :=
  createUserMessage uuid (Blocks [ToolResultBlock toolUseID "done" false]) None.

Definition reply : AssistantMessage :=
  createAssistantMessage "uuid-a" "msg-a" "Next step.".

Definition first : Obj := {| addr := 0; val := User (toolResult "uuid-1" "toolu_1") |}.
Definition second : Obj := {| addr := 1; val := Assistant reply |}.
Definition third : Obj := {| addr := 2; val := User (toolResult "uuid-3" "toolu_3") |}.
Definition fourth : Obj := {| addr := 3; val := User (toolResult "uuid-4" "toolu_4") |}.


End Wire.

(** ** The tool dispatch of the query loop (src/query.ts) *)

Module Query.
Import Msg.

Definition MAX_TOOL_USE_CONCURRENCY : nat := 10.

(** A tool of the catalog, by what the dispatch reads: [name] and
    [isReadOnly()]. *)
Record Tool : Type := {
  name : string;
  isReadOnly : bool }.

(** The property reads [block.type === 'tool_use'], [block.id] and
    [block.name]; a property that a block does not have is [undefined]. *)
Definition isToolUse (block : ContentBlock) : bool :=
  match block with
  | ToolUseBlock _ _ _ => true
  | _ => false
  end.

Definition blockId (block : ContentBlock) : option string :=
  match block with
  | ToolUseBlock id _ _ => Some id
  | _ => None
  end.

Definition blockName (block : ContentBlock) : option string :=
  match block with
  | ToolUseBlock _ name _ => Some name
  | _ => None
  end.

(** [assistantMessage.message.content.filter(_ => _.type === 'tool_use')];
    the content of an assistant message is an array. *)
Definition toolUseMessages (assistantMessage : AssistantMessage)
    : list ContentBlock :=
  match assistant_content assistantMessage with
  | Text _ => []
  | Blocks blocks => List.filter isToolUse blocks
  end.

(** [tools.find(t => t.name === msg.name)] *)
Definition findTool (tools : list Tool) (msg : ContentBlock) : option Tool :=
  List.find (λ t, bool_decide (Some (name t) = blockName msg)) tools.

(** [tools.find(t => t.name === msg.name)?.isReadOnly()], as a truth
    value: [undefined] is falsy. *)
Definition declaredReadOnly (tools : list Tool) (msg : ContentBlock) : bool :=
  match findTool tools msg with
  | Some t => isReadOnly t
  | None => false
  end.

(** The condition of the [if] that picks the concurrent path. *)
Definition canRunConcurrently (tools : list Tool)
    (toolUseMessages : list ContentBlock) : bool :=
  forallb (declaredReadOnly tools) toolUseMessages.

(** [array.findIndex(p)], [-1] when nothing matches. *)
Fixpoint findIndex {A : Type} (p : A -> bool) (l : list A) : Z :=
  match l with
  | [] => (-1)%Z
  | x :: rest =>
      if p x then 0%Z
      else let i := findIndex p rest in
           if bool_decide (i = -1)%Z then (-1)%Z else (i + 1)%Z
  end.

(** [array.sort(compare)]: a stable sort, here by insertion. *)
Fixpoint insertSorted {A : Type} (compare : A -> A -> Z) (x : A)
    (sorted : list A) : list A :=
  match sorted with
  | [] => [x]
  | y :: rest =>
      if bool_decide (compare x y <= 0)%Z then x :: sorted
      else y :: insertSorted compare x rest
  end.

Definition sort {A : Type} (compare : A -> A -> Z) (l : list A) : list A :=
  foldr (insertSorted compare) [] l.

(** [(a.message.content[0] as ToolUseBlock).id].  A tool-result message
    has exactly one block; where [content] has no first element the read
    throws in JavaScript, and the model answers [undefined]. *)
Definition firstBlockId (a : UserMessage) : option string :=
  match user_content a with
  | Blocks (block :: _) => blockId block
  | _ => None
  end.

(** The index that the comparator computes for a tool result. *)
Definition requestIndex (toolUseMessages : list ContentBlock)
    (a : UserMessage) : Z :=
  findIndex (λ tu, bool_decide (blockId tu = firstBlockId a))
    toolUseMessages.

(** [toolResults.sort((a, b) => aIndex - bIndex)] *)
Definition orderedToolResults (toolUseMessages : list ContentBlock)
    (toolResults : list UserMessage) : list UserMessage :=
  sort (λ a b, requestIndex toolUseMessages a
               - requestIndex toolUseMessages b)%Z
    toolResults.

(** The transcript of the recursive call:
    [[...messages, assistantMessage, ...orderedToolResults]]. *)
Definition nextTranscript (messages : list Message)
    (assistantMessage : AssistantMessage) (toolResults : list UserMessage)
    : list Message :=
  messages ++ [Assistant assistantMessage]
    ++ (User <$> orderedToolResults (toolUseMessages assistantMessage)
                  toolResults).

(** [message.type === 'user']: the results kept for the next turn. *)
Definition collectToolResults (yielded : list Message) : list UserMessage :=
  omap (λ message, match message with User u => Some u | _ => None end)
    yielded.

Section Scheduling.

(** The messages that the generator [runToolUse(toolUse, ...)] yields. *)
Variable runToolUse : ContentBlock -> list Message.

(** [runToolsSerially]: [yield*] of each generator in turn. *)
Definition runToolsSerially (toolUseMessages : list ContentBlock)
    : list Message :=
  concat (runToolUse <$> toolUseMessages).

(** Modelled from the spec: [all] of utils/generators, which is not among
    the sources.  It is the bounded worker pool of section 5: generators
    are started in request order while fewer than [cap] are running, and
    every message is delivered as soon as a running generator yields it. *)
Record Pool : Type := {
  waiting : list (list Message);
  running : list (list Message) }.

(** Modelled from the spec: one move of the pool.  A waiting generator
    starts when fewer than [cap] are running; a running generator delivers
    its next message; a running generator that has nothing left ends. *)
Inductive pool_step (cap : nat) : Pool -> list Message -> Pool -> Prop :=
  | pool_start g waiting running :
      (length running < cap)%nat ->
      pool_step cap {| waiting := g :: waiting; running := running |}
        [] {| waiting := waiting; running := running ++ [g] |}
  | pool_yield message g before after waiting :
      pool_step cap
        {| waiting := waiting; running := before ++ (message :: g) :: after |}
        [message]
        {| waiting := waiting; running := before ++ g :: after |}
  | pool_done before after waiting :
      pool_step cap
        {| waiting := waiting; running := before ++ [] :: after |}
        [] {| waiting := waiting; running := before ++ after |}.

(** Modelled from the spec: a sequence of moves and the messages it
    delivers, in delivery order. *)
Inductive pool_run (cap : nat) : Pool -> list Message -> Pool -> Prop :=
  | pool_run_nil pool : pool_run cap pool [] pool
  | pool_run_cons pool1 out1 pool2 out2 pool3 :
      pool_step cap pool1 out1 pool2 ->
      pool_run cap pool2 out2 pool3 ->
      pool_run cap pool1 (out1 ++ out2) pool3.

(** Modelled from the spec: [all(generators, cap)] delivers [yielded] when
    the pool, started with all generators waiting, runs until none is
    left. *)
Definition all (generators : list (list Message)) (cap : nat)
    (yielded : list Message) : Prop :=
  pool_run cap {| waiting := generators; running := [] |} yielded
    {| waiting := []; running := [] |}.

(** [runToolsConcurrently] *)
Definition runToolsConcurrently (toolUseMessages : list ContentBlock)
    (yielded : list Message) : Prop :=
  all (runToolUse <$> toolUseMessages) MAX_TOOL_USE_CONCURRENCY yielded.

(** The tool phase of [query]: the messages it yields while the tools of
    one assistant turn run. *)
Definition runTools (tools : list Tool) (toolUseMessages : list ContentBlock)
    (yielded : list Message) : Prop :=
  if canRunConcurrently tools toolUseMessages
  then runToolsConcurrently toolUseMessages yielded
  else yielded = runToolsSerially toolUseMessages.

End Scheduling.

(** The statement of the specification: the requested tool is declared
    read-only.  The tool that a request names is the first tool of the
    catalog that bears the requested name. *)
Definition requestsReadOnlyTool (tools : list Tool) (toolUse : ContentBlock)
    : Prop :=
  exists before tool after,
    tools = before ++ tool :: after
    /\ Forall (λ t, Some (name t) <> blockName toolUse) before
    /\ Some (name tool) = blockName toolUse
    /\ isReadOnly tool = true.

(** A user message whose first content block is a tool result. *)
Definition holdsToolResult (u : UserMessage) : Prop :=
  exists toolUseID content is_error rest,
    user_content u
    = Blocks (ToolResultBlock toolUseID content is_error :: rest).

(** *** Data for closed examples *)

Definition catalog : list Tool :=
  [ {| name := "View"; isReadOnly := true |};
    {| name := "GrepTool"; isReadOnly := true |};
    {| name := "Bash"; isReadOnly := false |} ].

Definition useA : ContentBlock := ToolUseBlock "toolu_A" "View" "{}".
Definition useB : ContentBlock := ToolUseBlock "toolu_B" "GrepTool" "{}".
Definition useC : ContentBlock := ToolUseBlock "toolu_C" "Bash" "{}".
Definition useX : ContentBlock := ToolUseBlock "toolu_X" "NoSuchTool" "{}".

Definition resultFor (uuid toolUseID content : string) : UserMessage :=
  createUserMessage uuid (Blocks [ToolResultBlock toolUseID content false])
    None.

Definition resultA : UserMessage := resultFor "uuid-1" "toolu_A" "file text".
Definition resultB : UserMessage := resultFor "uuid-2" "toolu_B" "matches".

Definition turnAB : AssistantMessage := {|
  costUSD := 0; durationMs := 0; message_id := "msg_1";
  message_model := "large";
  assistant_content := Blocks [TextBlock "Looking."; useA; useB];
  assistant_uuid := "uuid-0"; isApiErrorMessage := false |}.

(** Each demo tool use yields its one result. *)
Definition demoRun (toolUse : ContentBlock) : list Message :=
  match toolUse with
  | ToolUseBlock id _ _ =>
      if bool_decide (id = "toolu_A") then [User resultA]
      else if bool_decide (id = "toolu_B") then [User resultB]
      else []
  | _ => []
  end.

End Query.

(** ** Stored approvals (src/permissions.ts) *)

Module Store.
Import Permissions.

(** The tool objects that [hasPermissionsToUseTool] and [savePermission]
    tell apart; every other tool is known by its name. *)
Inductive ToolObject : Type :=
  | Shell
  | FileEdit
  | FileWrite
  | NotebookEdit
  | Plain (name : string).

(** The [name] of the three file-editing tools, from tools/. *)
Class ToolNames : Type := {
  FileEditTool_name : string;
  FileWriteTool_name : string;
  NotebookEditTool_name : string }.

(** [tool === FileEditTool || tool === FileWriteTool ||
    tool === NotebookEditTool] *)
Definition isFileEditing (tool : ToolObject) : bool :=
  match tool with
  | FileEdit | FileWrite | NotebookEdit => true
  | _ => false
  end.

(** The comparison of [Array.prototype.sort()] without a comparator, on
    strings: by code units. *)
Definition compareStrings (a b : string) : Z :=
  match String.compare a b with
  | Lt => (-1)%Z
  | Eq => 0%Z
  | Gt => 1%Z
  end.

(** What [savePermission] changes: [projectConfig.allowedTools], and the
    session, on which [grantWritePermissionForOriginalDir] of
    utils/permissions/filesystem acts. *)
Record PermissionState (Session : Type) : Type := {
  allowedTools : list string;
  session : Session }.
Arguments allowedTools {Session} _.
Arguments session {Session} _.

(** What [hasPermissionsToUseTool] can throw: the cancellation error, or
    the value that one of its collaborators threw. *)
Inductive Escape (E : Type) : Type :=
  | Cancelled
  | Raised (error : E).
Arguments Cancelled {E}.
Arguments Raised {E} error.

(** The result of [bashToolHasPermission] as its caller passes it on. *)
Definition passedOn {E A : Type} (outcome : Outcome PermissionExn A)
    : Outcome (Escape E) A :=
  match outcome with
  | Returned a => Returned a
  | Thrown AbortError => Thrown Cancelled
  end.

Section WithEnvironment.
Context `{!Environment} `{!ToolNames}.

(** The tool as [getPermissionKey] sees it. *)
Definition keyTool (tool : ToolObject) : Tool :=
  match tool with
  | Shell => BashTool
  | FileEdit => OtherTool FileEditTool_name
  | FileWrite => OtherTool FileWriteTool_name
  | NotebookEdit => OtherTool NotebookEditTool_name
  | Plain n => OtherTool n
  end.

Definition savePermission {Session : Type}
    (grantWritePermissionForOriginalDir : Session -> Session)
    (tool : ToolObject) (command : string) (prefix : option string)
    (state : PermissionState Session) : PermissionState Session :=
  let key := getPermissionKey (keyTool tool) command prefix in
  if isFileEditing tool then
    {| allowedTools := allowedTools state;
       session := grantWritePermissionForOriginalDir (session state) |}
  else if bool_decide (key ∈ allowedTools state) then state
  else
    {| allowedTools :=
         Query.sort compareStrings (allowedTools state ++ [key]);
       session := session state |}.

(** [hasPermissionsToUseTool].  [needsPermissions] is the outcome of
    [tool.needsPermissions(input)], which both calls see alike;
    [abortedAtEntry] and [abortedAfterClassifier] are the two reads of the
    abort signal; the classifier is the default argument of
    [bashToolHasPermission]. *)
Definition hasPermissionsToUseTool {E : Type} (tool : ToolObject)
    (command : string) (dangerouslySkipPermissions : bool)
    (abortedAtEntry abortedAfterClassifier : bool)
    (needsPermissions : Outcome E bool) (allowedTools : list string)
    (getCommandSubcommandPrefix :
       string -> option CommandSubcommandPrefixResult)
    : Outcome PermissionExn PermissionResult :=
  if dangerouslySkipPermissions then Returned Granted
  else if abortedAtEntry then Thrown AbortError
  else
    match needsPermissions with
    | Thrown _ => Returned (Refused "Error checking permissions")
    | Returned false => Returned Granted
    | Returned true =>
        match tool with
        | Shell =>
            if bool_decide (BashTool_name ∈ allowedTools)
            then Returned Granted
            else bashToolHasPermission BashTool command
                   abortedAfterClassifier allowedTools
                   getCommandSubcommandPrefix
        | FileEdit | FileWrite | NotebookEdit =>
            Returned (Refused (permissionRequestMessage (keyTool tool)))
        | Plain _ =>
            if bool_decide
                 (getPermissionKey (keyTool tool) command None
                  ∈ allowedTools)
            then Returned Granted
            else Returned (Refused (permissionRequestMessage (keyTool tool)))
        end
    end.

(** [hasPermissionsToUseTool] with the collaborators that it calls
    outside its [try], each of which may throw:
    - [projectConfig]: [getCurrentProjectConfig().allowedTools ?? []];
    - [parsed]: the command that [inputSchema.parse(input)] gives for the
      shell tool;
    - [classifier]: the awaited classifier of [bashToolHasPermission],
      asked when the command has no exact match;
    - [needsPermissionsAgain]: the second call of
      [tool.needsPermissions(input)], made for a file-editing tool.
    [hasPermissionsToUseTool] above gives the runs in which all four
    return.  The helpers of the shell check ([renderToolUseMessage],
    [splitCommand], [getCwd]) are the functions of [Environment]. *)
Definition hasPermissionsToUseTool_full {E : Type} (tool : ToolObject)
    (command : string) (dangerouslySkipPermissions : bool)
    (abortedAtEntry abortedAfterClassifier : bool)
    (needsPermissions : Outcome E bool)
    (projectConfig : Outcome E (list string))
    (parsed : Outcome E string)
    (classifier :
       Outcome E (string -> option CommandSubcommandPrefixResult))
    (needsPermissionsAgain : Outcome E bool)
    : Outcome (Escape E) PermissionResult :=
  if dangerouslySkipPermissions then Returned Granted
  else if abortedAtEntry then Thrown Cancelled
  else
    match needsPermissions with
    | Thrown _ => Returned (Refused "Error checking permissions")
    | Returned false => Returned Granted
    | Returned true =>
        match projectConfig with
        | Thrown error => Thrown (Raised error)
        | Returned allowedTools =>
            match tool with
            | Shell =>
                if bool_decide (BashTool_name ∈ allowedTools)
                then Returned Granted
                else
                  match parsed with
                  | Thrown error => Thrown (Raised error)
                  | Returned command =>
                      if bashToolCommandHasExactMatchPermission BashTool
                           command allowedTools
                      then Returned Granted
                      else
                        match classifier with
                        | Thrown error => Thrown (Raised error)
                        | Returned getCommandSubcommandPrefix =>
                            passedOn
                              (bashToolHasPermission BashTool command
                                 abortedAfterClassifier allowedTools
                                 getCommandSubcommandPrefix)
                        end
                  end
            | FileEdit | FileWrite | NotebookEdit =>
                match needsPermissionsAgain with
                | Thrown error => Thrown (Raised error)
                | Returned false => Returned Granted
                | Returned true =>
                    Returned
                      (Refused (permissionRequestMessage (keyTool tool)))
                end
            | Plain _ =>
                if bool_decide
                     (getPermissionKey (keyTool tool) command None
                      ∈ allowedTools)
                then Returned Granted
                else Returned
                       (Refused (permissionRequestMessage (keyTool tool)))
            end
        end
    end.

End WithEnvironment.

(** *** Data for closed examples *)

Definition demoNames : ToolNames := {|
  FileEditTool_name := "Edit";
  FileWriteTool_name := "Replace";
  NotebookEditTool_name := "NotebookEditCell" |}.

Definition classifierGit : string -> option CommandSubcommandPrefixResult :=
  λ _, Some {| fullCommandPrefix :=
                 {| commandPrefix := Some "git";
                    commandInjectionDetected := false |};
               subcommandPrefixes := ∅ |}.

End Store.

(** ** The waits of the retry loop (src/services/claude.ts) *)

Module Retry.
Import Claude.

Definition BASE_DELAY_MS : Q := 500.

Section WithParseInt.

(** [parseInt(s, 10)], with [None] for [NaN]. *)
Variable parseInt : string -> option Z.
(** [process.env.USER_TYPE] *)
Variable USER_TYPE : option string.

(** [getRetryDelay(attempt, retryAfterHeader)], in milliseconds. *)
Definition getRetryDelay (attempt : Z) (retryAfterHeader : option string)
    : Q :=
  let backoff :=
    Qmin (BASE_DELAY_MS * Qpower 2 (attempt - 1)) 32000 in
  if Permissions.truthy retryAfterHeader then
    match parseInt (default "" retryAfterHeader) with
    | Some seconds => inject_Z seconds * 1000
    | None => backoff
    end
  else backoff.

(** [error.headers?.['retry-after'] ?? null] *)
Definition retryAfter (error : APIError) : option string :=
  headers error ≫= (λ h, h !! "retry-after").

(** The loop of [withRetry] once more, with what it does besides
    returning: the waits, in milliseconds and in order, and the number of
    calls of [operation].  The loop goes on only after an [APIError], so
    the wait of the other errors is never taken. *)
Fixpoint withRetry_trace {T : Type} (operation : nat -> Outcome Failure T)
    (maxRetries remaining attempt : nat) (lastError : option Failure)
    : Outcome Failure T * list Q * nat :=
  match remaining with
  | O => (Thrown (default NotAnError lastError), [], 0%nat)
  | S remaining' =>
      match operation attempt with
      | Returned r => (Returned r, [], 1%nat)
      | Thrown error =>
          if givesUp USER_TYPE maxRetries attempt error
          then (Thrown error, [], 1%nat)
          else
            let delayMs :=
              match error with
              | APIErrorInstance e =>
                  getRetryDelay (Z.of_nat attempt) (retryAfter e)
              | _ => 0%Q
              end in
            let '(outcome, waits, calls) :=
              withRetry_trace operation maxRetries remaining' (S attempt)
                (Some error) in
            (outcome, delayMs :: waits, S calls)
      end
  end.

Definition withRetry_run {T : Type} (operation : nat -> Outcome Failure T)
    (maxRetries : option nat) : Outcome Failure T * list Q * nat :=
  let maxRetries := default (MAX_RETRIES USER_TYPE) maxRetries in
  withRetry_trace operation maxRetries (maxRetries + 1) 1 None.

(** A [retry-after] header that does not set the wait: absent, empty, or
    not a number. *)
Definition unusable (header : option string) : Prop :=
  Permissions.truthy header = false \/ parseInt (default "" header) = None.

End WithParseInt.

(** *** Data for closed examples *)

(** A reading of decimal digits, enough for the examples. *)
Definition demoParseInt (s : string) : option Z :=
  if bool_decide (s = "120") then Some 120%Z
  else if bool_decide (s = "2") then Some 2%Z
  else None.

Definition rateLimited (retryAfterHeader : string) : APIError := {|
  message := "429 rate limited";
  status := Some 429%Z;
  headers := Some {[ "retry-after" := retryAfterHeader ]};
  isConnectionError := false |}.

End Retry.

(** ** What the wire transcript carries *)

Module WireContent.
Import Msg Wire.

(** The content of a transcript as the model reads it: the content blocks
    of the tool-result user messages, one by one, and every other message
    as a whole; progress messages carry nothing. *)
Inductive Piece : Type :=
  | Whole (message : Message)
  | Block (block : ContentBlock).

Definition pieces (message : Message) : list Piece :=
  match message with
  | Progress _ => []
  | Assistant _ => [Whole message]
  | User u =>
      if isToolResultMessage message then Block <$> blocksOf u
      else [Whole message]
  end.

Definition carried (messages : list Message) : list Piece :=
  concat (pieces <$> messages).

End WireContent.

(** ** What display normalisation yields *)

Module DisplayShape.
Import Msg Display.

(** An assistant message whose content array is empty. *)
Definition isEmptyAssistant (message : Message) : bool :=
  match message with
  | Assistant a =>
      match assistant_content a with
      | Blocks [] => true
      | _ => false
      end
  | _ => false
  end.

(** The piece that stands for one block of an assistant message: it
    holds that block alone and the message's id, model and duration; the
    optional API-error flag of the message is not carried over. *)
Definition isPieceOf (a : AssistantMessage) (block : ContentBlock)
    (piece : Message) : Prop :=
  exists d,
    piece = Assistant d
    /\ assistant_content d = Blocks [block]
    /\ message_id d = message_id a
    /\ message_model d = message_model a
    /\ durationMs d = durationMs a
    /\ isApiErrorMessage d = false.

(** What stands for a message in the display list: a progress message or
    a message with string content stands for itself; a user message with
    an array of N blocks stands there N times, whole; an assistant
    message with an array of N blocks is stood for by N pieces, the i-th
    for its i-th block. *)
Definition standsFor (message : Message) (group : list Message) : Prop :=
  match message with
  | Progress _ => group = [message]
  | User u =>
      match user_content u with
      | Text _ => group = [message]
      | Blocks blocks => group = replicate (length blocks) message
      end
  | Assistant a =>
      match assistant_content a with
      | Text _ => group = [message]
      | Blocks blocks => Forall2 (isPieceOf a) blocks group
      end
  end.

End DisplayShape.

(** ** One tool use, from lookup to result (src/query.ts) *)

Module Pipeline.
Import Msg Query.
Import Permissions (PermissionResult, Granted, Refused).

(** What a tool's code can throw, by what [formatError] reads of it: an
    [Error] with its [message] and, when they are strings, its [stderr]
    and [stdout]; or any other value, by its [String(error)]. *)
Inductive ToolFailure : Type :=
  | ErrorValue (message : string) (stderr stdout : option string)
  | OtherValue (rendered : string).

Definition newline : string := String (ascii_of_nat 10) EmptyString.

Definition MAX_ERROR_LENGTH : nat := 10 * 1000.
Definition halfLength : nat := 5000.

(** [parts.filter(Boolean).join('\n')] of [formatError]. *)
Definition fullMessage (message : string) (stderr stdout : option string)
    : string :=
  let parts := [message]
                 ++ from_option (λ s, [s]) [] stderr
                 ++ from_option (λ s, [s]) [] stdout in
  String.concat newline
    (List.filter (λ part, negb (bool_decide (part = EmptyString))) parts).

(** The text put between the two kept halves. *)
Definition truncationMarker (omitted : nat) : string :=
  newline +:+ newline +:+ "... [" +:+ pretty omitted
    +:+ " characters truncated] ..." +:+ newline +:+ newline.

(** [formatError(error)] *)
Definition formatError (error : ToolFailure) : string :=
  match error with
  | OtherValue rendered => rendered
  | ErrorValue message stderr stdout =>
      let full := fullMessage message stderr stdout in
      if (String.length full <=? MAX_ERROR_LENGTH)%nat then full
      else
        let start := substring 0 halfLength full in
        let end_ :=
          substring (String.length full - halfLength) halfLength full in
        start +:+ truncationMarker (String.length full - MAX_ERROR_LENGTH)
          +:+ end_
  end.

(** What the generator [tool.call(...)] hands over at one step. *)
Inductive ToolEvent : Type :=
  | ResultEvent (data resultForAssistant : string)
  | ProgressEvent (content : AssistantMessage).

(** What the collaborators of one tool use answer while it runs:
    - [aborted]: [toolUseContext.abortController.signal.aborted] at entry;
    - [inputValidation]: [tool.inputSchema.safeParse(input)], [None] for
      success, else [error.message];
    - [validateInput]: [await tool.validateInput?.(...)], [Returned None]
      when the tool has no validator or accepts, [Returned (Some message)]
      for [{result: false, message}];
    - [canUseTool]: [await canUseTool(...)];
    - [events] and [failure]: what [tool.call(...)] yields and, if it
      throws after that, the thrown value;
    - [closeFailure]: what the generator throws, if anything, when the
      [return] inside [for await] closes it after its result (a
      [finally] block of the tool);
    - [randomUUID]: the UUIDs drawn, in order. *)
Record ToolRun : Type := {
  aborted : bool;
  inputValidation : option string;
  validateInput : Outcome ToolFailure (option string);
  canUseTool : Outcome ToolFailure PermissionResult;
  events : list ToolEvent;
  failure : option ToolFailure;
  closeFailure : option ToolFailure;
  randomUUID : nat -> UUID }.

Definition CANCEL_MESSAGE : string :=
  "The user doesn't want to take this action right now. STOP what you are doing and wait for the user to tell you how to proceed.".

(** [createUserMessage([{type: 'tool_result', content, is_error: true,
    tool_use_id}])] *)
Definition errorResult (uuid : UUID) (toolUseID content : string) : Message :=
  User (createUserMessage uuid
          (Blocks [ToolResultBlock toolUseID content true]) None).

(** [createProgressMessage(toolUseID, siblingToolUseIDs, content, ...)] *)
Definition createProgressMessage (uuid : UUID) (toolUseID : string)
    (siblingToolUseIDs : gset string) (content : AssistantMessage)
    : ProgressMessage :=
  {| progress_content := content;
     siblingToolUseIDs := siblingToolUseIDs;
     toolUseID := toolUseID;
     progress_uuid := uuid |}.

(** The [catch] of [checkPermissionsAndCallTool]: a value thrown inside
    the [try] becomes an error result. *)
Definition caught (uuid : UUID) (toolUseID : string)
    (thrown : option ToolFailure) : list Message :=
  match thrown with
  | Some error => [errorResult uuid toolUseID (formatError error)]
  | None => []
  end.

(** The [try] block of [checkPermissionsAndCallTool]: the loop over the
    tool's generator, which yields the first result and returns, closing
    the generator, and the [catch] for what the generator throws while
    it runs or while it is closed.  [drawn] counts the UUIDs used so
    far. *)
Fixpoint callTool (toolUseID : string) (siblingToolUseIDs : gset string)
    (uuid : nat -> UUID) (drawn : nat) (events : list ToolEvent)
    (failure closeFailure : option ToolFailure) : list Message :=
  match events with
  | [] => caught (uuid drawn) toolUseID failure
  | ResultEvent data resultForAssistant :: _ =>
      User (createUserMessage (uuid drawn)
              (Blocks [ToolResultBlock toolUseID resultForAssistant false])
              (Some data))
        :: caught (uuid (S drawn)) toolUseID closeFailure
  | ProgressEvent content :: rest =>
      Progress (createProgressMessage (uuid drawn) toolUseID
                  siblingToolUseIDs content)
        :: callTool toolUseID siblingToolUseIDs uuid (S drawn) rest failure
             closeFailure
  end.

(** The permission answer that [checkPermissionsAndCallTool] acts on:
    [shouldSkipPermissionCheck ? {result: true} : await canUseTool(...)]. *)
Definition permissionResult (shouldSkipPermissionCheck : bool)
    (run : ToolRun) : Outcome ToolFailure PermissionResult :=
  if shouldSkipPermissionCheck then Returned Granted else canUseTool run.

(** [checkPermissionsAndCallTool(...)]: the messages it yields and, when a
    collaborator outside its [try] throws, the value that escapes. *)
Definition checkPermissionsAndCallTool (toolUseID : string)
    (siblingToolUseIDs : gset string) (shouldSkipPermissionCheck : bool)
    (run : ToolRun) : list Message * option ToolFailure :=
  match inputValidation run with
  | Some message =>
      ([errorResult (randomUUID run 0) toolUseID
          ("InputValidationError: " +:+ message)], None)
  | None =>
      match validateInput run with
      | Thrown error => ([], Some error)
      | Returned (Some message) =>
          ([errorResult (randomUUID run 0) toolUseID message], None)
      | Returned None =>
          match permissionResult shouldSkipPermissionCheck run with
          | Thrown error => ([], Some error)
          | Returned (Refused message) =>
              ([errorResult (randomUUID run 0) toolUseID message], None)
          | Returned Granted =>
              (callTool toolUseID siblingToolUseIDs (randomUUID run) 0
                 (events run) (failure run) (closeFailure run), None)
          end
      end
  end.

(** [runToolUse(toolUse, siblingToolUseIDs, ...)].  Its callers pass the
    [tool_use] blocks of an assistant message; the other blocks are not
    tool uses and give rise to no generator.  The [catch] of [runToolUse]
    logs and drops what [checkPermissionsAndCallTool] lets escape. *)
Definition runToolUse (tools : list Tool) (siblingToolUseIDs : gset string)
    (shouldSkipPermissionCheck : bool) (run : ToolRun)
    (toolUse : ContentBlock) : list Message :=
  match toolUse with
  | ToolUseBlock id name _ =>
      match findTool tools toolUse with
      | None =>
          [errorResult (randomUUID run 0) id
             ("Error: No such tool available: " +:+ name)]
      | Some _ =>
          if aborted run
          then [errorResult (randomUUID run 0) id CANCEL_MESSAGE]
          else (checkPermissionsAndCallTool id siblingToolUseIDs
                  shouldSkipPermissionCheck run).1
      end
  | _ => []
  end.

(** [new Set(toolUseMessages.map(_ => _.id))] *)
Definition siblings (toolUseMessages : list ContentBlock) : gset string :=
  list_to_set (omap blockId toolUseMessages).

(** The generator that [runToolsSerially] and [runToolsConcurrently] make
    for each tool use of a turn; [runs] gives what the collaborators
    answer during the run of each. *)
Definition toolUseGenerator (tools : list Tool)
    (toolUseMessages : list ContentBlock) (shouldSkipPermissionCheck : bool)
    (runs : ContentBlock -> ToolRun) (toolUse : ContentBlock)
    : list Message :=
  runToolUse tools (siblings toolUseMessages) shouldSkipPermissionCheck
    (runs toolUse) toolUse.

(** [message.message.content[0].tool_use_id] of a yielded user message. *)
Definition resultId (u : UserMessage) : option string :=
  match user_content u with
  | Blocks (ToolResultBlock toolUseID _ _ :: _) => Some toolUseID
  | _ => None
  end.

(** A message that a run of the tool use [id] may yield before it ends:
    a progress message tagged with [id]. *)
Definition isProgressOf (id : string) (message : Message) : Prop :=
  match message with
  | Progress p => toolUseID p = id
  | _ => False
  end.

(** The one message that ends a run: a user message whose only block is a
    tool result for [id]. *)
Definition isResultOf (id : string) (message : Message) : Prop :=
  match message with
  | User u =>
      exists content is_error,
        user_content u = Blocks [ToolResultBlock id content is_error]
  | _ => False
  end.

(** The tool's generator never hands over a result. *)
Definition onlyProgress (events : list ToolEvent) : bool :=
  forallb (λ event, match event with
                    | ProgressEvent _ => true
                    | ResultEvent _ _ => false
                    end) events.

(** An awaited call that throws instead of returning. *)
Definition threw {E A : Type} (outcome : Outcome E A) : Prop :=
  match outcome with
  | Thrown _ => True
  | Returned _ => False
  end.

(** The run gets as far as [tool.call(...)]: not cancelled at entry,
    input accepted by the schema and by the tool's validator, and
    permission granted or not asked for. *)
Definition reachesCall (shouldSkipPermissionCheck : bool) (run : ToolRun)
    : Prop :=
  aborted run = false /\ inputValidation run = None
  /\ validateInput run = Returned None
  /\ permissionResult shouldSkipPermissionCheck run = Returned Granted.

(** The same run with another behaviour of the tool's own code. *)
Definition withCall (run : ToolRun) (events : list ToolEvent)
    (failure closeFailure : option ToolFailure) : ToolRun :=
  {| aborted := aborted run;
     inputValidation := inputValidation run;
     validateInput := validateInput run;
     canUseTool := canUseTool run;
     events := events;
     failure := failure;
     closeFailure := closeFailure;
     randomUUID := randomUUID run |}.

(** A user message that reports an error: its only block is a tool result
    with [is_error: true]. *)
Definition isErrorResult (message : Message) : Prop :=
  match message with
  | User u =>
      exists toolUseID content,
        user_content u = Blocks [ToolResultBlock toolUseID content true]
  | _ => False
  end.

(** The messages that end a run: none, or one result, or (when the tool
    throws while its generator is closed) a result and an error result. *)
Definition Ending (id : string) (closes : bool) (terminal : list Message)
    : Prop :=
  terminal = []
  \/ (exists message, terminal = [message] /\ isResultOf id message)
  \/ (closes = false
      /\ exists message error,
           terminal = [message; error]
           /\ isResultOf id message
           /\ isResultOf id error /\ isErrorResult error).

(** The shape of what one run yields; [closes] tells whether the tool's
    generator closes without throwing. *)
Definition OneRun (id : string) (closes : bool) (yielded : list Message)
    : Prop :=
  exists progress terminal,
    yielded = progress ++ terminal
    /\ Forall (isProgressOf id) progress
    /\ Ending id closes terminal.

(** [closeFailure] as a flag. *)
Definition closesQuietly (run : ToolRun) : bool :=
  bool_decide (closeFailure run = None).

(** A result that answers a request: both name the same tool-use id. *)
Definition answers (u : UserMessage) (toolUse : ContentBlock) : Prop :=
  exists id, resultId u = Some id /\ blockId toolUse = Some id.

(** *** Data for closed examples *)

Definition demoUUIDs (n : nat) : UUID := "uuid-" +:+ pretty n.

Definition note : AssistantMessage :=
  createAssistantMessage "uuid-p" "msg-p" "Searching.".

Definition granted : ToolRun := {|
  aborted := false;
  inputValidation := None;
  validateInput := Returned None;
  canUseTool := Returned Granted;
  events := [ProgressEvent note; ResultEvent "raw" "file text"];
  failure := None;
  closeFailure := None;
  randomUUID := demoUUIDs |}.

Definition refused : ToolRun := {|
  aborted := false;
  inputValidation := None;
  validateInput := Returned None;
  canUseTool := Returned (Refused "Permission to use Bash was refused.");
  events := [ResultEvent "raw" "done"];
  failure := None;
  closeFailure := None;
  randomUUID := demoUUIDs |}.

End Pipeline.

(** ** Moving tool results next to their requests (src/utils/messages.tsx) *)

Module Reorder.
Import Msg Wire.
Import Query (isToolUse, blockId).

(** [isToolUseRequestMessage(message)]; the content of an assistant
    message is an array. *)
Definition isToolUseRequestMessage (message : Message) : bool :=
  match message with
  | Assistant a =>
      match assistant_content a with
      | Blocks blocks => existsb isToolUse blocks
      | Text _ => false
      end
  | _ => false
  end.

(** [_ => _.message.content[0]?.id === toolUseID] *)
Definition requests (toolUseID : string) (o : Obj) : bool :=
  match val o with
  | Assistant a =>
      match assistant_content a with
      | Blocks (block :: _) => bool_decide (blockId block = Some toolUseID)
      | _ => false
      end
  | _ => false
  end.

(** [_ => _.type === 'progress' && _.toolUseID === toolUseID] *)
Definition progressFor (id : string) (o : Obj) : bool :=
  match val o with
  | Progress p => bool_decide (toolUseID p = id)
  | _ => false
  end.

(** The test of the second [if], with [content[0].tool_use_id] when it
    holds. *)
Definition toolResultId (message : Message) : option string :=
  match message with
  | User u => Pipeline.resultId u
  | _ => None
  end.

(** [ms.splice(ms.indexOf(object) + 1, 0, message)]; [indexOf] answers
    [-1] for an object that [ms] does not hold, and the message then goes
    to the front. *)
Definition insertAfter (object message : Obj) (ms : list Obj) : list Obj :=
  let position :=
    match indexOf (addr object) ms with
    | Some i => S i
    | None => 0%nat
    end in
  take position ms ++ message :: drop position ms.

(** [ms[ms.indexOf(object)] = message]; with [-1] no element is set. *)
Definition replaceWith (object message : Obj) (ms : list Obj) : list Obj :=
  match indexOf (addr object) ms with
  | Some i => <[i := message]> ms
  | None => ms
  end.

Record State : Type := {
  ms : list Obj;
  toolUseMessages : list Obj }.

(** The first [if] of the loop body for a progress message: [Some] of the
    new [ms] when it ends in [continue]. *)
Definition placeProgress (ms toolUseMessages : list Obj) (message : Obj)
    : option (list Obj) :=
  match val message with
  | Progress p =>
      match List.find (progressFor (toolUseID p)) ms with
      | Some existingProgressMessage =>
          Some (replaceWith existingProgressMessage message ms)
      | None =>
          match List.find (requests (toolUseID p)) toolUseMessages with
          | Some toolUseMessage =>
              Some (insertAfter toolUseMessage message ms)
          | None => None
          end
      end
  | _ => None
  end.

(** The body of the loop.  A tool result that finds neither a progress
    message nor a request falls out of the second [if] without [continue],
    and the [else] belongs to that [if]: nothing is added. *)
Definition visit (state : State) (message : Obj) : State :=
  let toolUseMessages :=
    if isToolUseRequestMessage (val message)
    then toolUseMessages state ++ [message]
    else toolUseMessages state in
  match placeProgress (ms state) toolUseMessages message with
  | Some ms' => {| ms := ms'; toolUseMessages := toolUseMessages |}
  | None =>
      match toolResultId (val message) with
      | Some toolUseID =>
          match List.find (progressFor toolUseID) (ms state) with
          | Some lastProgressMessage =>
              {| ms := insertAfter lastProgressMessage message (ms state);
                 toolUseMessages := toolUseMessages |}
          | None =>
              match List.find (requests toolUseID) toolUseMessages with
              | Some toolUseMessage =>
                  {| ms := insertAfter toolUseMessage message (ms state);
                     toolUseMessages := toolUseMessages |}
              | None =>
                  {| ms := ms state; toolUseMessages := toolUseMessages |}
              end
          end
      | None =>
          {| ms := ms state ++ [message];
             toolUseMessages := toolUseMessages |}
      end
  end.

Definition run (messages : list Obj) : State :=
  fold_left visit messages {| ms := []; toolUseMessages := [] |}.

Definition reorderMessages (messages : list Obj) : list Obj :=
  ms (run messages).

(** Objects are told apart by their addresses: two entries with one
    address are one object. *)
Definition consistent (messages : list Obj) : Prop :=
  forall o o', o ∈ messages -> o' ∈ messages -> addr o = addr o' -> o = o'.

(** A message that is neither a progress message nor a tool result. *)
Definition plain (o : Obj) : bool :=
  negb (isProgress (val o)) && negb (bool_decide (is_Some (toolResultId (val o)))).

(** [toolUseID] of a progress message. *)
Definition progressId (o : Obj) : option string :=
  match val o with
  | Progress p => Some (toolUseID p)
  | _ => None
  end.

(** A message that lets a later tool result for [id] find its place: a
    progress message for [id], or a tool-use request whose first block
    is the request [id]. *)
Definition anchors (id : string) (o : Obj) : bool :=
  progressFor id o || (isToolUseRequestMessage (val o) && requests id o).

(** The three ways in which the loop body changes [ms]: the message is
    placed somewhere, a tool result is dropped, or a progress message
    takes the place of an earlier one for the same tool use. *)
Inductive Step (state : State) (message : Obj) (ms' : list Obj) : Prop :=
  | Placed before after :
      ms state = before ++ after ->
      ms' = before ++ message :: after ->
      (forall p, val message = Progress p ->
                 List.find (progressFor (toolUseID p)) (ms state) = None) ->
      (plain message = true -> after = []) ->
      Step state message ms'
  | Dropped id :
      ms' = ms state ->
      toolResultId (val message) = Some id ->
      List.find (progressFor id) (ms state) = None ->
      List.find (requests id) (toolUseMessages state) = None ->
      Step state message ms'
  | Replaced p existing before after :
      val message = Progress p ->
      progressFor (toolUseID p) existing = true ->
      ms state = before ++ existing :: after ->
      ms' = before ++ message :: after ->
      Step state message ms'.

(** The progress messages of [ms]: one for each tool use at most, and
    the one that was handled last. *)
Definition Latest (handled ms : list Obj) : Prop :=
  NoDup (omap progressId ms)
  /\ forall o id,
       o ∈ ms -> progressId o = Some id ->
       last (List.filter (progressFor id) handled) = Some o.

(** *** Data for closed examples *)

Definition request : Obj := {|
  addr := 1;
  val := Assistant {|
    costUSD := 0; durationMs := 0; message_id := "msg_1";
    message_model := "large";
    assistant_content := Blocks [ToolUseBlock "toolu_A" "View" "{}"];
    assistant_uuid := "uuid-1"; isApiErrorMessage := false |} |}.

Definition question : Obj := {|
  addr := 0;
  val := User (createUserMessage "uuid-0" (Text "Show me the file.") None) |}.

Definition working (address : nat) (uuid : string) : Obj := {|
  addr := address;
  val := Progress (Pipeline.createProgressMessage uuid "toolu_A" ∅
                     Pipeline.note) |}.

Definition answer (address : nat) (id : string) : Obj := {|
  addr := address;
  val := User (createUserMessage "uuid-r"
                 (Blocks [ToolResultBlock id "file text" false]) None) |}.

Definition session : list Obj :=
  [question; request; working 2 "uuid-2"; working 3 "uuid-3"; answer 4 "toolu_A"].

End Reorder.

(** ** Which tool uses are open (src/utils/messages.tsx) *)

Module ToolUseIDs.
Import Msg.

Section WithPrototype.

(** The property names that every object inherits from
    [Object.prototype] ([toString], [constructor], ...): the [in]
    operator and a property read find them on an object literal too. *)
Variable inherited : gset string.

(** [Object.fromEntries(entries)]: a later entry for a key replaces an
    earlier one. *)
Definition fromEntries (entries : list (string * bool)) : gmap string bool :=
  fold_left (λ object entry, <[entry.1 := entry.2]> object) entries ∅.

(** [key in object] *)
Definition hasProperty (key : string) (object : gmap string bool) : bool :=
  bool_decide (is_Some (object !! key)) || bool_decide (key ∈ inherited).

(** [object[key]] as a truth value; what is inherited is a function or
    an object, which is truthy. *)
Definition property (key : string) (object : gmap string bool) : bool :=
  match object !! key with
  | Some value => value
  | None => bool_decide (key ∈ inherited)
  end.

(** [new Set(values)]: the distinct values in the order of their first
    occurrence. *)
Definition newSet (values : list string) : list string :=
  fold_left (λ set value, if bool_decide (value ∈ set) then set
                          else set ++ [value])
    values [].

(** The entry that [getToolResultIDs] makes of a message:
    [[content[0].tool_use_id, content[0].is_error ?? false]] for a user
    message whose first block is a tool result. *)
Definition resultEntry (message : Message) : option (string * bool) :=
  match message with
  | User u =>
      match user_content u with
      | Blocks (ToolResultBlock toolUseID _ is_error :: _) =>
          Some (toolUseID, is_error)
      | _ => None
      end
  | _ => None
  end.

(** [getToolResultIDs(normalizedMessages)].  The function is memoized on
    the array object; the model gives what it computes for an array that
    is not changed after it was first passed. *)
Definition getToolResultIDs (normalizedMessages : list Message)
    : gmap string bool :=
  fromEntries (omap resultEntry normalizedMessages).

(** [_.type === 'assistant' && _.message.content[0]?.type === 'tool_use'],
    with [_.message.content[0].id] when it holds. *)
Definition requestId (message : Message) : option string :=
  match message with
  | Assistant a =>
      match assistant_content a with
      | Blocks (ToolUseBlock id _ _ :: _) => Some id
      | _ => None
      end
  | _ => None
  end.

Definition getUnresolvedToolUseIDs (normalizedMessages : list Message)
    : list string :=
  let toolResults := getToolResultIDs normalizedMessages in
  newSet
    (omap (λ message,
             match requestId message with
             | Some id =>
                 if hasProperty id toolResults then None else Some id
             | None => None
             end)
       normalizedMessages).

(** [normalizedMessages.filter(_ => _.type === 'progress')
      .map(_ => _.toolUseID)] as a set. *)
Definition progressIds (normalizedMessages : list Message) : list string :=
  newSet
    (omap (λ message, match message with
                      | Progress p => Some (toolUseID p)
                      | _ => None
                      end)
       normalizedMessages).

Definition getInProgressToolUseIDs (normalizedMessages : list Message)
    : list string :=
  let unresolvedToolUseIDs := getUnresolvedToolUseIDs normalizedMessages in
  let toolUseIDsThatHaveProgressMessages := progressIds normalizedMessages in
  newSet
    (omap (λ message,
             match requestId message with
             | Some toolUseID =>
                 if bool_decide (Some toolUseID = head unresolvedToolUseIDs)
                 then Some toolUseID
                 else if bool_decide
                           (toolUseID ∈ toolUseIDsThatHaveProgressMessages)
                         && bool_decide (toolUseID ∈ unresolvedToolUseIDs)
                 then Some toolUseID
                 else None
             | None => None
             end)
       normalizedMessages).

Definition getErroredToolUseMessages (normalizedMessages : list Message)
    : list Message :=
  let toolResults := getToolResultIDs normalizedMessages in
  List.filter
    (λ message,
       match requestId message with
       | Some id => hasProperty id toolResults && property id toolResults
       | None => false
       end)
    normalizedMessages.

End WithPrototype.

(** The results recorded for the tool use [id], in transcript order, by
    their [is_error]. *)
Definition resultsFor (id : string) (normalizedMessages : list Message)
    : list bool :=
  omap (λ message,
          match resultEntry message with
          | Some (toolUseID, is_error) =>
              if bool_decide (toolUseID = id) then Some is_error else None
          | None => None
          end)
    normalizedMessages.

(** *** Data for closed examples *)

Definition objectPrototype : gset string :=
  {[ "constructor"; "toString"; "valueOf"; "hasOwnProperty";
     "isPrototypeOf"; "propertyIsEnumerable"; "toLocaleString";
     "__proto__"; "__defineGetter__"; "__defineSetter__";
     "__lookupGetter__"; "__lookupSetter__" ]}.

Definition ask (id : string) : Message :=
  Assistant {|
    costUSD := 0; durationMs := 0; message_id := "msg_1";
    message_model := "large";
    assistant_content := Blocks [ToolUseBlock id "View" "{}"];
    assistant_uuid := "uuid-a"; isApiErrorMessage := false |}.

Definition reply (id : string) (is_error : bool) : Message :=
  User (createUserMessage "uuid-r"
          (Blocks [ToolResultBlock id "output" is_error]) None).

Definition transcript : list Message :=
  [ask "toolu_A"; reply "toolu_A" true; ask "toolu_B"; ask "toolu_C"].

End ToolUseIDs.

(** * Properties *)

Module PermissionsSpec.
Import Permissions.

Section Properties.
Context `{!Environment}.

Implicit Types (tool : Tool) (command : string) (allowedTools : list string).
Implicit Types (cls : string -> option CommandSubcommandPrefixResult).
Implicit Types (r : CommandSubcommandPrefixResult).

Lemma exactMatch_spec tool command allowedTools :
  bashToolCommandHasExactMatchPermission tool command allowedTools = true <->
  command ∈ SAFE_COMMANDS
  \/ getPermissionKey tool command None ∈ allowedTools
  \/ getPermissionKey tool command (Some command) ∈ allowedTools.
Proof.
  unfold bashToolCommandHasExactMatchPermission.
  repeat case_bool_decide; intuition congruence.
Qed.

Lemma hasPermission_spec tool command prefix allowedTools :
  bashToolCommandHasPermission tool command prefix allowedTools = true <->
  bashToolCommandHasExactMatchPermission tool command allowedTools = true
  \/ getPermissionKey tool command prefix ∈ allowedTools.
Proof.
  unfold bashToolCommandHasPermission.
  destruct (bashToolCommandHasExactMatchPermission _ _ _).
  - intuition.
  - rewrite bool_decide_eq_true. intuition congruence.
Qed.

Lemma subCommandHasPermission_spec tool r allowedTools subCommand :
  subCommandHasPermission tool r allowedTools subCommand = true <->
  exists prefixResult,
    subcommandPrefixes r !! subCommand = Some prefixResult
    /\ commandInjectionDetected prefixResult = false
    /\ bashToolCommandHasPermission tool subCommand
         (commandPrefix prefixResult) allowedTools = true.
Proof.
  unfold subCommandHasPermission.
  destruct (subcommandPrefixes r !! subCommand) as [pr|] eqn:Hpr.
  - destruct (commandInjectionDetected pr) eqn:Hinj.
    + split; [discriminate|]. intros (pr' & [= <-] & Hf & _). congruence.
    + split; [eauto|]. intros (pr' & [= <-] & _ & Hp). exact Hp.
  - split; [discriminate|]. intros (pr' & [=] & _).
Qed.

(** Without an exact match and with the classifier down, nothing that is
    stored in [allowedTools] changes the outcome. *)
Lemma classifier_failure_outcome tool command aborted allowedTools cls :
  bashToolCommandHasExactMatchPermission tool command allowedTools = false ->
  cls command = None ->
  bashToolHasPermission tool command aborted allowedTools cls =
    if aborted then Thrown AbortError
    else Returned (Refused (permissionRequestMessage tool)).
Proof.
  intros Hexact Hcls. unfold bashToolHasPermission.
  rewrite Hexact, Hcls. reflexivity.
Qed.

(** C2, as amended.  For every shell command without an exact-match
    approval and every list of stored approvals, if the command-prefix
    classifier fails (answers [null]), the shell-tool permission check never
    approves: it returns the denial that carries the permission-request
    message, unless the request was cancelled meanwhile, in which case it
    throws [AbortError]. *)
Theorem classifier_failure_fails_closed
    tool command aborted allowedTools cls :
  bashToolCommandHasExactMatchPermission tool command allowedTools = false ->
  cls command = None ->
  bashToolHasPermission tool command aborted allowedTools cls
    <> Returned Granted
  /\ (aborted = false ->
      bashToolHasPermission tool command aborted allowedTools cls =
        Returned (Refused (permissionRequestMessage tool)))
  /\ (aborted = true ->
      bashToolHasPermission tool command aborted allowedTools cls =
        Thrown AbortError).
Proof.
  intros Hexact Hcls.
  rewrite (classifier_failure_outcome _ _ _ _ _ Hexact Hcls).
  destruct aborted; repeat split; intros; congruence.
Qed.

(** C3.  For every shell command for which the classifier reports command
    injection suspected, the permission check approves if and only if the
    full command has an exact match: it is in the safe-command list, or its
    full-command key is stored, or the prefix key built from the whole
    command is stored.  Without such a match the outcome is never an
    approval, whatever prefix-scoped keys the stored list holds. *)
Theorem injection_requires_exact_match
    tool command aborted allowedTools cls r :
  cls command = Some r ->
  commandInjectionDetected r = true ->
  (bashToolHasPermission tool command aborted allowedTools cls
     = Returned Granted
   <-> command ∈ SAFE_COMMANDS
       \/ getPermissionKey tool command None ∈ allowedTools
       \/ getPermissionKey tool command (Some command) ∈ allowedTools)
  /\ (bashToolCommandHasExactMatchPermission tool command allowedTools
        = false ->
      bashToolHasPermission tool command aborted allowedTools cls =
        if aborted then Thrown AbortError
        else Returned (Refused (permissionRequestMessage tool))).
Proof.
  intros Hcls Hinj. rewrite <- exactMatch_spec.
  unfold bashToolHasPermission. rewrite Hcls, Hinj.
  destruct (bashToolCommandHasExactMatchPermission tool command allowedTools)
    eqn:Hexact.
  - split; [tauto | discriminate].
  - destruct aborted; (split; [split; discriminate | reflexivity]).
Qed.

(** C4, as amended.  For every shell command that is not itself exactly
    approved, whose classifier call was not cancelled and answered without
    flagging the full command for injection, and that splits into two or
    more sub-commands once [cd <cwd>] is dropped: approval is granted if and
    only if every sub-command has a classifier-mapped prefix result that is
    not injection-flagged and a prefix-or-exact approval; a sub-command
    without a mapped result denies the whole command. *)
Theorem compound_command_all_or_nothing
    tool command allowedTools cls r :
  bashToolCommandHasExactMatchPermission tool command allowedTools = false ->
  cls command = Some r ->
  commandInjectionDetected r = false ->
  2 <= length (filter (λ c, c ≠ "cd " +:+ getCwd) (splitCommand command)) ->
  (bashToolHasPermission tool command false allowedTools cls
     = Returned Granted
   <-> Forall (λ subCommand,
         exists prefixResult,
           subcommandPrefixes r !! subCommand = Some prefixResult
           /\ commandInjectionDetected prefixResult = false
           /\ bashToolCommandHasPermission tool subCommand
                (commandPrefix prefixResult) allowedTools = true)
         (filter (λ c, c ≠ "cd " +:+ getCwd) (splitCommand command)))
  /\ ((exists subCommand,
         subCommand ∈ filter (λ c, c ≠ "cd " +:+ getCwd)
                        (splitCommand command)
         /\ subcommandPrefixes r !! subCommand = None) ->
      bashToolHasPermission tool command false allowedTools cls =
        Returned (Refused (permissionRequestMessage tool))).
Proof.
  intros Hexact Hcls Hinj Hlen.
  unfold bashToolHasPermission. rewrite Hexact, Hcls, Hinj.
  rewrite bool_decide_eq_false_2 by lia.
  set (subCommands := filter _ (splitCommand command)).
  destruct (forallb (subCommandHasPermission tool r allowedTools) subCommands)
    eqn:Hall.
  - split.
    + split; [intros _ | reflexivity].
      rewrite forallb_forall in Hall. apply Forall_forall.
      intros sc Hsc. apply subCommandHasPermission_spec, Hall.
      by apply list_elem_of_In.
    + intros (sc & Hsc & Hnone). exfalso.
      rewrite forallb_forall in Hall.
      specialize (Hall sc (proj1 (list_elem_of_In _ _) Hsc)).
      unfold subCommandHasPermission in Hall. by rewrite Hnone in Hall.
  - split; [|reflexivity].
    split; [discriminate|]. intros HF. exfalso.
    assert (forallb (subCommandHasPermission tool r allowedTools) subCommands
            = true) as Htrue; [|congruence].
    apply forallb_forall. intros sc Hsc.
    apply subCommandHasPermission_spec.
    rewrite Forall_forall in HF. apply HF. by apply list_elem_of_In.
Qed.

End Properties.

(** C2, as stated, fails: a safe-listed command is approved although the
    classifier is down, and a cancelled check throws instead of returning a
    denial. *)
Lemma fail_closed_counterexample :
  classifierDown "git status" = None
  /\ bashToolHasPermission (H := demoEnv) BashTool "git status" false []
       classifierDown = Returned Granted
  /\ classifierDown "rm -rf /" = None
  /\ bashToolHasPermission (H := demoEnv) BashTool "rm -rf /" true []
       classifierDown = Thrown AbortError.
Proof. repeat split; vm_compute; reflexivity. Qed.

Lemma classifier_failure_fails_closed_witness :
  bashToolCommandHasExactMatchPermission (H := demoEnv) BashTool "rm -rf /"
    ["Bash(rm:*)"] = false
  /\ classifierDown "rm -rf /" = None
  /\ bashToolHasPermission (H := demoEnv) BashTool "rm -rf /" false
       ["Bash(rm:*)"] classifierDown
     = Returned (Refused
         "Koding requested permissions to use Bash, but you haven't granted it yet.").
Proof.
  split; [vm_compute; reflexivity|]. split; [reflexivity|].
  apply (classifier_failure_fails_closed (H := demoEnv) BashTool "rm -rf /"
           false ["Bash(rm:*)"] classifierDown);
    [vm_compute; reflexivity | reflexivity | reflexivity].
Defined.

(** The example of the specification: [echo hello; rm -rf /] with injection
    flagged is refused although the prefix key of [echo] is stored. *)
Lemma injection_requires_exact_match_witness :
  classifierFlagsAll "echo hello; rm -rf /" = Some (flagged ∅)
  /\ commandInjectionDetected (flagged ∅) = true
  /\ bashToolHasPermission (H := demoEnv) BashTool "echo hello; rm -rf /"
       false ["Bash(echo:*)"] classifierFlagsAll
     = Returned (Refused
         "Koding requested permissions to use Bash, but you haven't granted it yet.").
Proof.
  split; [reflexivity|]. split; [reflexivity|].
  apply (proj2 (injection_requires_exact_match (H := demoEnv) BashTool
                  "echo hello; rm -rf /" false ["Bash(echo:*)"]
                  classifierFlagsAll (flagged ∅) eq_refl eq_refl)).
  vm_compute; reflexivity.
Defined.

(** C4, as stated, fails: [echo a && echo b] splits in two, is not exactly
    approved, and both sub-commands have a mapped, clean and approved prefix
    result; the command is refused all the same, because the classifier
    flagged the full command. *)
Lemma compound_command_counterexample :
  filter (λ c, c ≠ "cd " +:+ getCwd (Environment := demoEnv))
    (splitCommand (Environment := demoEnv) "echo a && echo b")
    = ["echo a"; "echo b"]
  /\ bashToolCommandHasExactMatchPermission (H := demoEnv) BashTool
       "echo a && echo b" ["Bash(echo:*)"] = false
  /\ Forall (λ subCommand,
       exists prefixResult,
         subcommandPrefixes (flagged echoPrefixes) !! subCommand
           = Some prefixResult
         /\ commandInjectionDetected prefixResult = false
         /\ bashToolCommandHasPermission (H := demoEnv) BashTool subCommand
              (commandPrefix prefixResult) ["Bash(echo:*)"] = true)
       ["echo a"; "echo b"]
  /\ bashToolHasPermission (H := demoEnv) BashTool "echo a && echo b" false
       ["Bash(echo:*)"] classifierFlagsFullOnly
     = Returned (Refused
         "Koding requested permissions to use Bash, but you haven't granted it yet.").
Proof.
  split; [vm_compute; reflexivity|]. split; [vm_compute; reflexivity|].
  split; [|vm_compute; reflexivity].
  repeat constructor; exists (detected "echo");
    (split; [vm_compute; reflexivity|]);
    (split; [reflexivity | vm_compute; reflexivity]).
Qed.

Lemma compound_command_all_or_nothing_witness :
  bashToolHasPermission (H := demoEnv) BashTool "echo a && echo b" false
    ["Bash(echo:*)"] classifierClean = Returned Granted.
Proof.
  apply (proj1 (compound_command_all_or_nothing (H := demoEnv) BashTool
                  "echo a && echo b" ["Bash(echo:*)"] classifierClean
                  _ ltac:(vm_compute; reflexivity) eq_refl eq_refl
                  ltac:(vm_compute; lia))).
  change (filter _ _) with ["echo a"; "echo b"].
  repeat constructor; exists (detected "echo");
    (split; [vm_compute; reflexivity|]);
    (split; [reflexivity | vm_compute; reflexivity]).
Defined.

End PermissionsSpec.

Module ClaudeSpec.
Import Msg Claude.

Section Properties.
Variable USER_TYPE : option string.

Lemma shouldRetry_overloaded (error : APIError) :
  includes overloadedMarker (message error) = true ->
  shouldRetry USER_TYPE error = bool_decide (USER_TYPE = Some "SWE_BENCH").
Proof. intros Hov. unfold shouldRetry. by rewrite Hov. Qed.

(** C6, as amended.  For every API error whose message does not carry the
    overloaded-error marker, the retry classifier answers retryable exactly
    for a [true] x-should-retry header and, when that header is not
    [false], for connection failures and the statuses 408, 409, 429 and
    500 or more; everything else is terminal, and a [false] header forces
    terminal whatever the status.  An error whose message carries the
    marker is retryable exactly when USER_TYPE is SWE_BENCH. *)
Theorem shouldRetry_classification (error : APIError) :
  (includes overloadedMarker (message error) = false ->
   (shouldRetry USER_TYPE error = true <->
      shouldRetryHeader error = Some "true"
      \/ (shouldRetryHeader error <> Some "false"
          /\ (isConnectionError error = true
              \/ exists st, status error = Some st
                   /\ (st = 408 \/ st = 409 \/ st = 429 \/ 500 <= st)%Z)))
   /\ (shouldRetryHeader error = Some "false" ->
       shouldRetry USER_TYPE error = false))
  /\ (includes overloadedMarker (message error) = true ->
      (shouldRetry USER_TYPE error = true <-> USER_TYPE = Some "SWE_BENCH")).
Proof.
  split.
  - intros Hov. unfold shouldRetry. rewrite Hov.
    destruct (decide (shouldRetryHeader error = Some "true")) as [Ht|Ht].
    { rewrite bool_decide_eq_true_2 by done.
      split; [tauto | rewrite Ht; discriminate]. }
    rewrite (bool_decide_eq_false_2 _ Ht).
    destruct (decide (shouldRetryHeader error = Some "false")) as [Hf|Hf].
    { rewrite bool_decide_eq_true_2 by done.
      split; [|done]. split; [done|]. intros [?|[? _]]; done. }
    rewrite (bool_decide_eq_false_2 _ Hf).
    split; [|done].
    destruct (isConnectionError error).
    { split; [|done]. intros _. right. split; [done|]. by left. }
    destruct (status error) as [st|].
    + repeat case_bool_decide;
        (split;
         [ intros Heq;
           first [ discriminate
                 | right; split; [done|]; right; exists st; split; [done|lia] ]
         | intros [?|[_ [?|(st' & [= <-] & ?)]]]; first [done | lia] ]).
    + split; [done|]. intros [?|[_ [?|(st' & ? & _)]]]; done.
  - intros Hov. rewrite (shouldRetry_overloaded _ Hov).
    apply bool_decide_eq_true.
Qed.

Lemma givesUp_spec maxRetries attempt error :
  givesUp USER_TYPE maxRetries attempt error = true <->
  (maxRetries < attempt)%nat \/ terminal USER_TYPE error.
Proof.
  unfold givesUp, terminal. case_bool_decide; [intuition|].
  destruct error as [e| |]; [|intuition..].
  rewrite negb_true_iff. intuition lia.
Qed.

Lemma givesUp_false maxRetries attempt error :
  givesUp USER_TYPE maxRetries attempt error = false ->
  (attempt <= maxRetries)%nat
  /\ exists e, error = APIErrorInstance e /\ shouldRetry USER_TYPE e = true.
Proof.
  unfold givesUp. case_bool_decide; [discriminate|].
  destruct error as [e| |]; try discriminate.
  rewrite negb_false_iff. intros He. split; [lia | eauto].
Qed.

Lemma withRetry_loop_throws {T : Type} (operation : nat -> Outcome Failure T)
    maxRetries remaining attempt lastError error :
  (attempt + remaining = maxRetries + 2)%nat -> (1 <= remaining)%nat ->
  withRetry_loop USER_TYPE operation maxRetries remaining attempt lastError
    = Thrown error <->
  exists k, (attempt <= k <= maxRetries + 1)%nat
    /\ retriedThrough USER_TYPE operation attempt k
    /\ operation k = Thrown error
    /\ ((k = maxRetries + 1)%nat \/ terminal USER_TYPE error).
Proof.
  revert attempt lastError.
  induction remaining as [|remaining IH]; intros attempt lastError Hsum Hpos;
    [lia|].
  simpl. destruct (operation attempt) as [r|err] eqn:Hop.
  - split; [discriminate|].
    intros (k & Hk & Hretried & Hopk & _).
    destruct (decide (k = attempt)) as [->|Hne]; [congruence|].
    destruct (Hretried attempt ltac:(lia)) as (e & He & _). congruence.
  - destruct (givesUp USER_TYPE maxRetries attempt err) eqn:Hgive.
    + apply givesUp_spec in Hgive. split.
      * intros [= <-]. exists attempt. split; [lia|].
        split; [intros j Hj; lia|]. split; [done|].
        destruct Hgive as [Hlt|Hterm]; [left; lia | by right].
      * intros (k & Hk & Hretried & Hopk & _).
        destruct (decide (k = attempt)) as [->|Hne]; [congruence|].
        destruct (Hretried attempt ltac:(lia)) as (e & He & Hre).
        rewrite Hop in He. injection He as ->.
        destruct Hgive as [Hlt|Hterm]; [lia|]. simpl in Hterm. congruence.
    + apply givesUp_false in Hgive as (Hle & e & -> & Hre).
      rewrite IH by lia. split.
      * intros (k & Hk & Hretried & Hopk & Hend).
        exists k. split; [lia|]. split; [|done].
        intros j Hj. destruct (decide (j = attempt)) as [->|Hne]; [eauto|].
        apply Hretried. lia.
      * intros (k & Hk & Hretried & Hopk & Hend).
        assert (k <> attempt) as Hne.
        { intros ->. rewrite Hop in Hopk. injection Hopk as <-.
          destruct Hend as [Hex|Hterm]; [lia|]. simpl in Hterm. congruence. }
        exists k. split; [lia|]. split; [|done].
        intros j Hj. apply Hretried. lia.
Qed.

(** [withRetry] throws exactly when some attempt fails with an error that
    is terminal, or with any error once the retries are used up, all
    attempts before it having failed with retryable errors. *)
Lemma withRetry_throws {T : Type} (operation : nat -> Outcome Failure T)
    maxRetries error :
  withRetry USER_TYPE operation maxRetries = Thrown error <->
  exists k, (1 <= k <= default (MAX_RETRIES USER_TYPE) maxRetries + 1)%nat
    /\ retriedThrough USER_TYPE operation 1 k
    /\ operation k = Thrown error
    /\ ((k = default (MAX_RETRIES USER_TYPE) maxRetries + 1)%nat
        \/ terminal USER_TYPE error).
Proof. unfold withRetry. apply withRetry_loop_throws; lia. Qed.

(** A terminal USER_TYPE error of the first attempt is thrown without a retry. *)
Lemma withRetry_terminal {T : Type} (operation : nat -> Outcome Failure T)
    maxRetries error :
  operation 1%nat = Thrown error -> terminal USER_TYPE error ->
  withRetry USER_TYPE operation maxRetries = Thrown error.
Proof.
  intros Hop Hterm. apply withRetry_throws. exists 1%nat.
  split; [lia|]. split; [intros j Hj; lia|]. split; [done | by right].
Qed.

Lemma errorText_nonempty (error : Failure) : errorText error <> "".
Proof.
  unfold errorText. destruct (errorMessage error) as [m|]; [|done].
  repeat case_match; done.
Qed.

(** C5, as amended.  For every failure of the underlying model call (a
    terminal error, or the retries used up) the model-call wrapper does
    not throw: once the request is built, it resolves to a well-formed
    assistant message with the API-error flag set.  Its text is the
    category text when the error is an [Error] whose message marks it as
    prompt-too-long, credit-balance-exhausted or invalid-credential, in
    this order of precedence; it is [API Error: <message>] for every
    other [Error]; and it is the bare [API Error] when the thrown value
    is not an [Error].  The wrapper throws only what escapes while the
    request is built before the model call, or while a response is turned
    into the returned message after it. *)
Theorem model_call_failure_resolves {Request Response : Type}
    (prepare : Outcome Failure Request)
    (operation : Request -> nat -> Outcome Failure Response)
    (fromResponse : Response -> Outcome Failure AssistantMessage)
    (uuid id : UUID) :
  (forall request error,
     prepare = Returned request ->
     withRetry USER_TYPE (operation request) None = Thrown error ->
     exists text,
       queryOpenAI USER_TYPE prepare operation fromResponse uuid id
         = Returned (createAssistantAPIErrorMessage uuid id text)
       /\ isApiErrorMessage (createAssistantAPIErrorMessage uuid id text)
          = true
       /\ assistant_content (createAssistantAPIErrorMessage uuid id text)
          = Blocks [TextBlock text]
       /\ match errorMessage error with
          | Some m =>
              (includes "prompt is too long" m = true ->
               text = "Prompt is too long")
              /\ (includes "prompt is too long" m = false ->
                  includes "Your credit balance is too low" m = true ->
                  text = "Credit balance is too low")
              /\ (includes "prompt is too long" m = false ->
                  includes "Your credit balance is too low" m = false ->
                  includes "x-api-key" (toLowerCase m) = true ->
                  text = "Invalid API key · Please run /login")
              /\ (includes "prompt is too long" m = false ->
                  includes "Your credit balance is too low" m = false ->
                  includes "x-api-key" (toLowerCase m) = false ->
                  text = "API Error: " +:+ m)
          | None => text = "API Error"
          end)
  /\ (forall escaped,
        queryOpenAI USER_TYPE prepare operation fromResponse uuid id
          = Thrown escaped ->
        prepare = Thrown escaped
        \/ exists request response,
             prepare = Returned request
             /\ withRetry USER_TYPE (operation request) None
                = Returned response
             /\ fromResponse response = Thrown escaped).
Proof.
  split.
  - intros request error Hprepared Hthrown. exists (errorText error).
    split; [unfold queryOpenAI; by rewrite Hprepared, Hthrown|].
    split; [done|]. split.
    + unfold createAssistantAPIErrorMessage. simpl.
      rewrite bool_decide_eq_false_2; [done | apply errorText_nonempty].
    + unfold errorText. destruct (errorMessage error) as [m|]; [|done].
      repeat split; intros; repeat case_match;
        first [reflexivity | congruence].
  - intros escaped. unfold queryOpenAI.
    destruct prepare as [request|error]; [|intros [= ->]; by left].
    destruct (withRetry _ _ _) as [response|error] eqn:Hcall; [|done].
    intros Hafter. right. by exists request, response.
Qed.

End Properties.

Lemma shouldRetry_classification_witness :
  includes overloadedMarker (message internal500) = false
  /\ shouldRetry None internal500 = true
  /\ shouldRetry None notFound404 = false.
Proof.
  split; [vm_compute; reflexivity|]. split.
  - apply (proj2 (proj1 (proj1 (shouldRetry_classification None internal500)
                            ltac:(vm_compute; reflexivity)))).
    right. split; [discriminate|]. right. exists 500%Z.
    split; [reflexivity | lia].
  - vm_compute; reflexivity.
Defined.

(** C6, as stated, fails on overloaded errors: a 529 answer with a [true]
    retry hint is terminal outside SWE_BENCH, and under SWE_BENCH a 400
    answer with a [false] retry hint is retried. *)
Lemma retry_classifier_counterexample :
  status overloaded529 = Some 529%Z
  /\ shouldRetryHeader overloaded529 = Some "true"
  /\ shouldRetry None overloaded529 = false
  /\ status overloaded400 = Some 400%Z
  /\ shouldRetryHeader overloaded400 = Some "false"
  /\ shouldRetry (Some "SWE_BENCH") overloaded400 = true.
Proof. repeat split; vm_compute; reflexivity. Qed.

(** Two retryable failures are retried and the third attempt answers. *)
Lemma withRetry_third_attempt :
  withRetry None thirdTimeLucky None = Returned "ok".
Proof. vm_compute. reflexivity. Qed.

(** C5, as stated, fails twice.  The wrapper does throw: when the
    [prompt()] of a tool rejects while the request is built, before any
    model call, the rejection reaches the caller.  And when the model
    call rejects with a value that is not an [Error], the text is
    [API Error], with no message part. *)
Lemma model_call_wrapper_counterexample :
  queryOpenAI None (Thrown (ErrorInstance "prompt() failed"))
    (λ _ : string, thirdTimeLucky) wrap "u" "i"
  = Thrown (ErrorInstance "prompt() failed")
  /\ withRetry None (alwaysFails (T := string) NotAnError) None
     = Thrown NotAnError
  /\ queryOpenAI None (Returned "request") (λ _, alwaysFails NotAnError)
       wrap "u" "i"
     = Returned (createAssistantAPIErrorMessage "u" "i" "API Error")
  /\ forall m, "API Error" <> "API Error: " +:+ m.
Proof.
  split; [reflexivity|].
  split; [vm_compute; reflexivity|]. split; [vm_compute; reflexivity|].
  intros m. simpl. intros [=].
Qed.

Lemma model_call_failure_resolves_witness :
  withRetry None (alwaysFails (T := string)
                    (ErrorInstance "400 prompt is too long: 210000 tokens"))
    None
    = Thrown (ErrorInstance "400 prompt is too long: 210000 tokens")
  /\ exists text,
       queryOpenAI None (Returned "request")
         (λ _, alwaysFails
                 (ErrorInstance "400 prompt is too long: 210000 tokens"))
         wrap "u" "i"
         = Returned (createAssistantAPIErrorMessage "u" "i" text)
       /\ text = "Prompt is too long".
Proof.
  split; [vm_compute; reflexivity|].
  destruct (proj1 (model_call_failure_resolves None (Returned "request")
                     (λ _, alwaysFails
                             (ErrorInstance
                                "400 prompt is too long: 210000 tokens"))
                     wrap "u" "i")
              "request"
              (ErrorInstance "400 prompt is too long: 210000 tokens")
              eq_refl ltac:(vm_compute; reflexivity))
    as (text & Hq & _ & _ & Hcat & _).
  exists text. split; [exact Hq|]. apply Hcat. vm_compute; reflexivity.
Defined.

End ClaudeSpec.

Module QuerySpec.
Import Msg Query.

Section Properties.
Variable runToolUse : ContentBlock -> list Message.

Implicit Types (tools : list Tool) (msg block : ContentBlock).

Lemma toolUseMessages_are_tool_uses (a : AssistantMessage) :
  Forall (λ block, isToolUse block = true) (toolUseMessages a).
Proof.
  unfold toolUseMessages. destruct (assistant_content a); [constructor|].
  apply Forall_forall. intros block Hin.
  apply list_elem_of_In, filter_In in Hin. tauto.
Qed.

Lemma findIndex_none {A : Type} (p : A -> bool) (l : list A) :
  Forall (λ x, p x = false) l -> findIndex p l = (-1)%Z.
Proof.
  induction 1 as [|x l Hx _ IH]; [done|].
  simpl. rewrite Hx, IH. by rewrite bool_decide_eq_true_2.
Qed.

Lemma sort_equal_keys {A : Type} (key : A -> Z) (k : Z) (l : list A) :
  Forall (λ x, key x = k) l -> sort (λ a b, key a - key b)%Z l = l.
Proof.
  induction 1 as [|x l Hx Hl IH]; [done|].
  unfold sort in *. simpl. rewrite IH.
  destruct Hl as [|y l Hy _]; [done|].
  simpl. rewrite bool_decide_eq_true_2; [done | lia].
Qed.

(** The sort does order a list whose keys differ, and keeps the order of
    equal keys. *)
Lemma sort_by_key_example :
  sort (λ a b : Z * string, a.1 - b.1)%Z
    [(3, "c"); (1, "a"); (2, "b"); (1, "a'")]%Z
  = [(1, "a"); (1, "a'"); (2, "b"); (3, "c")]%Z.
Proof. vm_compute. reflexivity. Qed.

(** The read of [.id] on a tool-result block is [undefined], so no
    tool-use request matches it. *)
Lemma requestIndex_tool_result (toolUses : list ContentBlock)
    (u : UserMessage) :
  Forall (λ block, isToolUse block = true) toolUses ->
  holdsToolResult u ->
  requestIndex toolUses u = (-1)%Z.
Proof.
  intros Huses (id & content & err & rest & Hu).
  unfold requestIndex, firstBlockId. rewrite Hu. simpl.
  apply findIndex_none. eapply Forall_impl; [exact Huses|].
  intros [] Hb; try discriminate. by apply bool_decide_eq_false_2.
Qed.

(** The sort of [query] returns tool-result messages in the order in which
    they were collected. *)
Lemma orderedToolResults_keeps_order (toolUses : list ContentBlock)
    (toolResults : list UserMessage) :
  Forall (λ block, isToolUse block = true) toolUses ->
  Forall holdsToolResult toolResults ->
  orderedToolResults toolUses toolResults = toolResults.
Proof.
  intros Huses Hresults. unfold orderedToolResults.
  apply (sort_equal_keys (requestIndex toolUses) (-1)%Z).
  eapply Forall_impl; [exact Hresults|].
  intros u Hu. by apply requestIndex_tool_result.
Qed.

Lemma find_nothing {A : Type} (p : A -> bool) (l : list A) :
  (forall x, x ∈ l -> p x = false) -> List.find p l = None.
Proof.
  induction l as [|x l IH]; [done|]. intros Hall. simpl.
  rewrite (Hall x) by left. apply IH. intros y Hy. apply Hall. by right.
Qed.

Lemma find_first {A : Type} (p : A -> bool) (l : list A) (x : A) :
  List.find p l = Some x <->
  exists before after,
    l = before ++ x :: after
    /\ Forall (λ y, p y = false) before /\ p x = true.
Proof.
  split.
  - induction l as [|y l IH]; [done|]. simpl.
    destruct (p y) eqn:Hy.
    + intros [= ->]. by exists [], l.
    + intros Hfind. destruct (IH Hfind) as (before & after & -> & Hall & Hx).
      exists (y :: before), after. split; [done|]. split; [|done].
      by constructor.
  - intros (before & after & -> & Hall & Hx).
    induction Hall as [|y before Hy _ IH]; simpl.
    + by rewrite Hx.
    + by rewrite Hy.
Qed.

(** The read-only test of the code is the one of the specification. *)
Lemma declaredReadOnly_spec tools msg :
  declaredReadOnly tools msg = true <-> requestsReadOnlyTool tools msg.
Proof.
  unfold declaredReadOnly, requestsReadOnlyTool, findTool. split.
  - destruct (List.find _ tools) as [tool|] eqn:Hfind; [|done].
    intros Hro. apply find_first in Hfind
      as (before & after & -> & Hall & Hnamed).
    exists before, tool, after. split; [done|]. split; [|split].
    + eapply Forall_impl; [exact Hall|]. intros t Ht.
      by apply bool_decide_eq_false in Ht.
    + by apply bool_decide_eq_true in Hnamed.
    + done.
  - intros (before & tool & after & Htools & Hall & Hnamed & Hro).
    assert (List.find (λ t, bool_decide (Some (name t) = blockName msg))
              tools = Some tool) as ->; [|done].
    apply find_first. exists before, after. split; [done|]. split.
    + eapply Forall_impl; [exact Hall|]. intros t Ht.
      by apply bool_decide_eq_false.
    + by apply bool_decide_eq_true.
Qed.

Lemma canRunConcurrently_spec tools (toolUses : list ContentBlock) :
  canRunConcurrently tools toolUses = true <->
  Forall (requestsReadOnlyTool tools) toolUses.
Proof.
  unfold canRunConcurrently. rewrite forallb_forall, Forall_forall.
  split; intros Hall msg Hin.
  - apply declaredReadOnly_spec, Hall. by apply list_elem_of_In.
  - apply declaredReadOnly_spec, Hall. by apply list_elem_of_In.
Qed.

Lemma pool_step_bound cap pool out pool' :
  pool_step cap pool out pool' ->
  (length (running pool) <= cap)%nat -> (length (running pool') <= cap)%nat.
Proof.
  destruct 1; simpl; rewrite ?length_app; simpl; rewrite ?length_app; simpl;
    lia.
Qed.

(** The worker pool never runs more than [cap] generators. *)
Lemma pool_run_bound cap pool out pool' :
  pool_run cap pool out pool' ->
  (length (running pool) <= cap)%nat -> (length (running pool') <= cap)%nat.
Proof. induction 1; eauto using pool_step_bound. Qed.

Lemma pool_run_trans cap pool1 out1 pool2 out2 pool3 :
  pool_run cap pool1 out1 pool2 -> pool_run cap pool2 out2 pool3 ->
  pool_run cap pool1 (out1 ++ out2) pool3.
Proof.
  induction 1 as [|p1 o1 p2 o2 p3 Hstep _ IH]; [done|].
  intros Hrun. rewrite <- app_assoc. econstructor; eauto.
Qed.

(** A running generator can be driven to its end. *)
Lemma pool_drain cap (g : list Message) before after waiting :
  pool_run cap {| waiting := waiting; running := before ++ g :: after |} g
    {| waiting := waiting; running := before ++ after |}.
Proof.
  induction g as [|message g IH].
  - change (@nil Message) with (@nil Message ++ [])%list at 2.
    econstructor; [apply pool_done | constructor].
  - change (message :: g) with ([message] ++ g)%list at 2.
    econstructor; [apply pool_yield | exact IH].
Qed.

(** The pool has a schedule, the serial one, for every list of generators
    and every positive cap. *)
Lemma all_serial (generators : list (list Message)) cap :
  (1 <= cap)%nat -> all generators cap (concat generators).
Proof.
  intros Hcap. unfold all.
  induction generators as [|g generators IH]; [constructor|].
  simpl.
  change (g ++ concat generators)%list
    with ([] ++ g ++ concat generators)%list.
  econstructor; [apply pool_start; simpl; lia|].
  eapply pool_run_trans; [|exact IH].
  apply (pool_drain cap g [] []).
Qed.

(** C7.  For every batch of tool-use requests of one assistant turn: if
    every requested tool is declared read-only (the first tool of the
    catalog with the requested name is), the batch is handed as a whole
    to the worker pool with the ceiling 10, which never runs more than 10
    generators and has a schedule; otherwise the batch, its read-only
    requests included, runs serially, the messages of each tool use
    following those of the one requested before it. *)
Theorem dispatch_strategy tools (toolUses : list ContentBlock) :
  (Forall (requestsReadOnlyTool tools) toolUses ->
   (forall yielded,
      runTools runToolUse tools toolUses yielded <->
      all (runToolUse <$> toolUses) 10 yielded)
   /\ (forall yielded pool,
         pool_run 10 {| waiting := runToolUse <$> toolUses; running := [] |}
           yielded pool ->
         (length (running pool) <= 10)%nat)
   /\ (exists yielded, runTools runToolUse tools toolUses yielded))
  /\ (~ Forall (requestsReadOnlyTool tools) toolUses ->
      forall yielded,
        runTools runToolUse tools toolUses yielded <->
        yielded = concat (runToolUse <$> toolUses)).
Proof.
  split.
  - intros Hall. apply canRunConcurrently_spec in Hall.
    unfold runTools. rewrite Hall. split; [done|]. split.
    + intros yielded pool Hrun.
      apply (pool_run_bound _ _ _ _ Hrun). simpl. lia.
    + eexists. apply all_serial. unfold MAX_TOOL_USE_CONCURRENCY. lia.
  - intros Hnot yielded. unfold runTools.
    destruct (canRunConcurrently tools toolUses) eqn:Hcan; [|done].
    by apply canRunConcurrently_spec in Hcan.
Qed.

(** C10.  If a tool-use block of the turn names a tool that is not in the
    active catalog, the read-only test is false for it and the whole batch
    takes the serial path, even when every other requested tool is
    read-only. *)
Theorem unknown_tool_forces_serial tools (toolUses : list ContentBlock) msg :
  msg ∈ toolUses ->
  (forall t, t ∈ tools -> Some (name t) <> blockName msg) ->
  declaredReadOnly tools msg = false
  /\ canRunConcurrently tools toolUses = false
  /\ forall yielded,
       runTools runToolUse tools toolUses yielded <->
       yielded = runToolsSerially runToolUse toolUses.
Proof.
  intros Hin Hunknown.
  assert (findTool tools msg = None) as Hfind.
  { unfold findTool. apply find_nothing. intros t Ht.
    by apply bool_decide_eq_false_2, Hunknown. }
  assert (declaredReadOnly tools msg = false) as Hro.
  { unfold declaredReadOnly. by rewrite Hfind. }
  assert (canRunConcurrently tools toolUses = false) as Hcan.
  { unfold canRunConcurrently. apply not_true_is_false. intros Hall.
    rewrite forallb_forall in Hall.
    specialize (Hall msg (proj1 (list_elem_of_In _ _) Hin)). congruence. }
  split; [done|]. split; [done|].
  intros yielded. unfold runTools. by rewrite Hcan.
Qed.

End Properties.

(** The pool can deliver the result of the second of two running
    generators before that of the first. *)
Lemma pool_out_of_order (a b : Message) : all [[a]; [b]] 10 [b; a].
Proof.
  unfold all.
  apply (pool_run_cons _ _ [] {| waiting := [[b]]; running := [[a]] |}
           [b; a]);
    [apply (pool_start _ _ _ []); simpl; lia|].
  apply (pool_run_cons _ _ [] {| waiting := []; running := [[a]; [b]] |}
           [b; a]);
    [apply (pool_start _ _ _ [[a]]); simpl; lia|].
  apply (pool_run_cons _ _ [b] _ [a] _ (pool_yield _ b [] [[a]] [] [])).
  apply (pool_run_cons _ _ [] _ [a] _ (pool_done _ [[a]] [] [])).
  apply (pool_run_cons _ _ [a] _ [] _ (pool_yield _ a [] [] [] [])).
  apply (pool_run_cons _ _ [] _ [] _ (pool_done _ [] [] [])).
  constructor.
Qed.

(** Two read-only requests run on the pool, which may deliver the second
    result first, as no serial run does; with a request for the shell
    tool between them the batch runs serially. *)
Lemma dispatch_strategy_witness :
  Forall (requestsReadOnlyTool catalog) [useA; useB]
  /\ runTools demoRun catalog [useA; useB] [User resultB; User resultA]
  /\ [User resultB; User resultA] <> concat (demoRun <$> [useA; useB])
  /\ ~ Forall (requestsReadOnlyTool catalog) [useA; useC; useB]
  /\ (runTools demoRun catalog [useA; useC; useB] [User resultA; User resultB]
      <-> [User resultA; User resultB]
          = concat (demoRun <$> [useA; useC; useB])).
Proof.
  assert (Forall (requestsReadOnlyTool catalog) [useA; useB]) as Hall.
  { constructor; [|constructor; [|constructor]].
    - exists [], {| name := "View"; isReadOnly := true |},
        [ {| name := "GrepTool"; isReadOnly := true |};
          {| name := "Bash"; isReadOnly := false |} ].
      by repeat split.
    - exists [ {| name := "View"; isReadOnly := true |} ],
        {| name := "GrepTool"; isReadOnly := true |},
        [ {| name := "Bash"; isReadOnly := false |} ].
      split; [done|]. split; [|done]. by repeat constructor. }
  assert (~ Forall (requestsReadOnlyTool catalog) [useA; useC; useB])
    as Hnot.
  { intros Hro. apply Forall_cons in Hro as [_ Hro].
    apply Forall_cons in Hro as [Hbash _].
    apply declaredReadOnly_spec in Hbash. vm_compute in Hbash.
    discriminate. }
  split; [exact Hall|]. split; [|split; [|split; [exact Hnot|]]].
  - apply (proj1 (proj1 (dispatch_strategy demoRun catalog [useA; useB])
                    Hall)).
    apply (pool_out_of_order (User resultA) (User resultB)).
  - vm_compute. intros [=].
  - apply (proj2 (dispatch_strategy demoRun catalog [useA; useC; useB])
             Hnot).
Defined.

Lemma unknown_tool_forces_serial_witness :
  useX ∈ [useA; useX]
  /\ declaredReadOnly catalog useA = true
  /\ canRunConcurrently catalog [useA; useX] = false.
Proof.
  split; [repeat constructor|]. split; [vm_compute; reflexivity|].
  apply (unknown_tool_forces_serial demoRun catalog [useA; useX] useX).
  - repeat constructor.
  - intros t Ht. apply list_elem_of_In in Ht. simpl in Ht.
    destruct Ht as [<-|[<-|[<-|[]]]]; discriminate.
Defined.

(** C1 fails on the code.  The turn requests [toolu_A] and then [toolu_B],
    both read-only, so the batch runs on the worker pool; [toolu_B]
    completes first; the sort leaves the results in completion order, and
    the transcript of the recursive call carries the result of [toolu_B]
    before that of [toolu_A]. *)
Theorem tool_results_keep_completion_order :
  toolUseMessages turnAB = [useA; useB]
  /\ runTools demoRun catalog (toolUseMessages turnAB)
       [User resultB; User resultA]
  /\ collectToolResults [User resultB; User resultA] = [resultB; resultA]
  /\ orderedToolResults (toolUseMessages turnAB) [resultB; resultA]
     = [resultB; resultA]
  /\ nextTranscript [] turnAB [resultB; resultA]
     = [Assistant turnAB; User resultB; User resultA].
Proof.
  split; [reflexivity|]. split; [|repeat split; vm_compute; reflexivity].
  unfold runTools.
  change (canRunConcurrently catalog (toolUseMessages turnAB))
    with (canRunConcurrently catalog [useA; useB]).
  replace (canRunConcurrently catalog [useA; useB]) with true
    by (vm_compute; reflexivity).
  unfold runToolsConcurrently, all.
  change (demoRun <$> toolUseMessages turnAB)
    with [[User resultA]; [User resultB]].
  apply (pool_run_cons _ _ []
           {| waiting := [[User resultB]]; running := [[User resultA]] |}
           [User resultB; User resultA]);
    [apply (pool_start _ _ _ []); unfold MAX_TOOL_USE_CONCURRENCY; simpl; lia|].
  apply (pool_run_cons _ _ []
           {| waiting := [];
              running := [[User resultA]; [User resultB]] |}
           [User resultB; User resultA]);
    [apply (pool_start _ _ _ [[User resultA]]);
     unfold MAX_TOOL_USE_CONCURRENCY; simpl; lia|].
  apply (pool_run_cons _ _ [User resultB] _ [User resultA] _
           (pool_yield _ (User resultB) [] [[User resultA]] [] [])).
  apply (pool_run_cons _ _ [] _ [User resultA] _
           (pool_done _ [[User resultA]] [] [])).
  apply (pool_run_cons _ _ [User resultA] _ [] _
           (pool_yield _ (User resultA) [] [] [] [])).
  apply (pool_run_cons _ _ [] _ [] _ (pool_done _ [] [] [])).
  constructor.
Qed.

End QuerySpec.

Module DisplaySpec.
Import Msg Display.

Section Properties.
Variable randomUUID : nat -> UUID.

Lemma totalCost_imap {A : Type} (f : nat -> A -> Message) (l : list A)
    (q : Q) :
  (forall i x, messageCost (f i x) = q) ->
  (totalCost (imap f l) == inject_Z (Z.of_nat (length l)) * q)%Q.
Proof.
  revert f. induction l as [|x l IH]; intros f Hf.
  - simpl. ring.
  - unfold totalCost in *. rewrite imap_cons. simpl foldr.
    rewrite Hf, (IH (f ∘ S)) by (intros; apply Hf).
    rewrite length_cons, Nat2Z.inj_succ, <- Z.add_1_r, inject_Z_plus.
    simpl. ring.
Qed.


End Properties.


End DisplaySpec.

Module WireSpec.
Import Msg Wire.

Section Properties.

Implicit Types (u l : UserMessage) (o : Obj) (result rest : list Obj).

Lemma toolResultBlocks_blocksOf u blocks :
  toolResultBlocks u = Some blocks -> blocksOf u = blocks.
Proof.
  unfold toolResultBlocks, blocksOf.
  destruct (user_content u) as [|[|[]]]; naive_solver.
Qed.

Lemma toolResultBlocks_head u blocks :
  toolResultBlocks u = Some blocks ->
  exists id content err tail,
    blocks = ToolResultBlock id content err :: tail
    /\ user_content u = Blocks blocks.
Proof.
  unfold toolResultBlocks.
  destruct (user_content u) as [|[|[]]]; intros [= <-]; eauto 6.
Qed.

Lemma merged_is_tool_result l lastBlocks blocks :
  toolResultBlocks l = Some lastBlocks ->
  toolResultBlocks (merged l lastBlocks blocks) = Some (lastBlocks ++ blocks).
Proof.
  intros (id & content & err & tail & -> & _)%toolResultBlocks_head.
  reflexivity.
Qed.

Lemma isToolResultMessage_true u :
  isToolResultMessage (User u) = true <->
  exists blocks, toolResultBlocks u = Some blocks.
Proof. simpl. by rewrite bool_decide_eq_true. Qed.

Lemma isToolResultMessage_false u :
  isToolResultMessage (User u) = false <-> toolResultBlocks u = None.
Proof.
  simpl. rewrite bool_decide_eq_false, <- eq_None_not_Some. done.
Qed.

Lemma mergeAll_nil u :
  isToolResultMessage (User u) = true -> mergeAll u [] = u.
Proof.
  intros [blocks Hu]%isToolResultMessage_true.
  destruct (toolResultBlocks_head _ _ Hu) as (? & ? & ? & ? & _ & Hc).
  unfold mergeAll, blocksOf. destruct u as [c uu tr]. simpl in *.
  rewrite Hc. simpl. by rewrite app_nil_r.
Qed.

Lemma mergeAll_snoc head others u :
  mergeAll head (others ++ [u])
  = merged (mergeAll head others) (blocksOf (mergeAll head others))
      (blocksOf u).
Proof.
  unfold mergeAll, merged, blocksOf at 3. simpl.
  rewrite fmap_app, concat_app. simpl. by rewrite app_nil_r, app_assoc.
Qed.

Lemma mergeAll_is_tool_result head others :
  isToolResultMessage (User head) = true ->
  isToolResultMessage (User (mergeAll head others)) = true.
Proof.
  intros [blocks Hh]%isToolResultMessage_true.
  apply isToolResultMessage_true.
  destruct (toolResultBlocks_head _ _ Hh) as (? & ? & ? & ? & -> & Hc).
  unfold toolResultBlocks, mergeAll, blocksOf. rewrite Hc. simpl. eauto.
Qed.

(** The machine meets the statement, from a closed state and from a state
    with an open run. *)
Lemma wireFrom_Merged (messages : list Message) :
  Merged (keepsWire messages) (wireFrom None messages)
  /\ forall head others,
       Forall (λ u, isToolResultMessage (User u) = true) (head :: others) ->
       Merged (User head :: (User <$> others) ++ keepsWire messages)
         (wireFrom (Some (mergeAll head others)) messages).
Proof.
  induction messages as [|message messages [IHclosed IHopen]].
  - split; [constructor|]. intros head others Hrun. simpl.
    by apply (Merged_run head others [] []); [|done|constructor].
  - assert (isToolResultMessage message = false ->
            isProgress message = false ->
            wireFrom None (message :: messages)
              = message :: wireFrom None messages
            /\ forall open, wireFrom open (message :: messages)
                 = close open ++ message :: wireFrom None messages)
      as Hkeep.
    { destruct message as [u| |]; simpl; try done.
      intros Hu _. simpl in Hu. by rewrite Hu. }
    destruct (isProgress message) eqn:Hprogress.
    { destruct message; try discriminate. simpl. by split. }
    unfold keepsWire in *. simpl List.filter. rewrite Hprogress. simpl negb.
    cbv iota.
    destruct (isToolResultMessage message) eqn:Htool.
    + destruct message as [u| |]; try discriminate.
      change (wireFrom ?open (User u :: messages))
        with (if isToolResultMessage (User u)
              then match open with
                   | Some l =>
                       wireFrom (Some (merged l (blocksOf l) (blocksOf u)))
                         messages
                   | None => wireFrom (Some u) messages
                   end
              else close open ++ User u :: wireFrom None messages).
      rewrite Htool. split.
      * rewrite <- (mergeAll_nil u Htool) at 2.
        apply (IHopen u []). by repeat constructor.
      * intros head others Hrun. rewrite <- mergeAll_snoc.
        replace (User head :: (User <$> others)
                   ++ User u :: List.filter _ messages)
          with (User head :: (User <$> (others ++ [u]))
                  ++ List.filter (λ m, negb (isProgress m)) messages)
          by (rewrite fmap_app, <- app_assoc; reflexivity).
        apply IHopen. inversion Hrun as [|? ? Hh Ho]; subst.
        constructor; [done|]. apply Forall_app. split; [done|].
        by repeat constructor.
    + destruct (Hkeep eq_refl eq_refl) as [Hclosed Hopen].
      split.
      * rewrite Hclosed. by constructor.
      * intros head others Hrun. rewrite Hopen. simpl.
        apply Merged_run; [done | simpl; exact Htool |].
        by constructor.
Qed.

Lemma Merged_starts messages out :
  Merged messages out ->
  startsWithToolResult out = startsWithToolResult messages.
Proof.
  destruct 1 as [| |head others ? ? Hrun]; simpl; try done.
  inversion Hrun as [|? ? Hh _]; subst. simpl in Hh. rewrite Hh.
  apply (mergeAll_is_tool_result head others). exact Hh.
Qed.

Lemma Merged_noAdjacent messages out :
  Merged messages out -> noAdjacentToolResults out.
Proof.
  induction 1 as [|message messages out Hm Hmerged IH
                  |head others messages out Hrun Hstart Hmerged IH];
    simpl; try done.
  - split; [congruence | done].
  - split; [|done]. intros _. by rewrite (Merged_starts _ _ Hmerged).
Qed.

Lemma Merged_no_progress messages out :
  Forall (λ message, isProgress message = false) messages ->
  Merged messages out ->
  Forall (λ message, isProgress message = false) out.
Proof.
  intros Hall Hmerged. induction Hmerged; [done| |].
  - apply Forall_cons in Hall as [? ?]. constructor; auto.
  - constructor; [done|]. apply IHHmerged.
    inversion Hall as [|? ? _ Hrest]; subst.
    by apply Forall_app in Hrest as [_ ?].
Qed.

Lemma indexOf_last prefix o :
  addr o ∉ addr <$> prefix ->
  indexOf (addr o) (prefix ++ [o]) = Some (length prefix).
Proof.
  induction prefix as [|o' prefix IH]; simpl; intros Hnotin.
  - by rewrite bool_decide_eq_true_2.
  - apply not_elem_of_cons in Hnotin as [Hne Hnotin].
    rewrite bool_decide_eq_false_2 by congruence.
    by rewrite IH.
Qed.

Lemma insert_last {A : Type} (prefix : list A) (x y : A) :
  <[length prefix := y]> (prefix ++ [x]) = prefix ++ [y].
Proof.
  rewrite insert_app_r_alt by lia. by rewrite Nat.sub_diag.
Qed.

Lemma NoDup_replace_last (xs ys : list nat) (a next : nat) :
  NoDup ((xs ++ [a]) ++ ys) ->
  Forall (λ x, x < next)%nat xs -> Forall (λ x, x < next)%nat ys ->
  NoDup ((xs ++ [next]) ++ ys).
Proof.
  rewrite !NoDup_app, !Forall_forall.
  intros ((Hxs & _ & _) & Hdisjoint & Hys) Hbx Hby.
  split_and!; try done.
  - intros x Hx ->%list_elem_of_singleton. specialize (Hbx _ Hx). lia.
  - apply NoDup_singleton.
  - intros x [Hx| ->%list_elem_of_singleton]%elem_of_app Hin.
    + apply (Hdisjoint x); [|done]. apply elem_of_app. by left.
    + specialize (Hby _ Hin). lia.
Qed.

Lemma visit_push result next o :
  isProgress (val o) = false ->
  (isToolResultMessage (val o) = true ->
   forall o', last result = Some o' -> isToolResultMessage (val o') = false) ->
  visit (result, next) o = (result ++ [o], next).
Proof.
  intros Hprogress Hlast. unfold visit.
  destruct (val o) as [u| |] eqn:Hval; try done.
  destruct (toolResultBlocks u) as [blocks|] eqn:Hu; [|done].
  destruct (last result) as [o'|] eqn:Hl; [|done].
  assert (isToolResultMessage (val o') = false) as Hno.
  { apply Hlast; [|done]. apply isToolResultMessage_true. eauto. }
  destruct (val o') as [u'| |]; try done.
  apply isToolResultMessage_false in Hno. by rewrite Hno.
Qed.

Lemma visit_merge prefix o l next o' u :
  val o = User l -> isToolResultMessage (User l) = true ->
  val o' = User u -> isToolResultMessage (User u) = true ->
  addr o ∉ addr <$> prefix ->
  visit (prefix ++ [o], next) o'
  = (prefix ++ [{| addr := next;
                   val := User (merged l (blocksOf l) (blocksOf u)) |}],
     S next).
Proof.
  intros Hval [lastBlocks Hl]%isToolResultMessage_true
         Hval' [blocks Hu]%isToolResultMessage_true Hfresh.
  unfold visit. rewrite Hval', Hu, last_snoc, Hval, Hl.
  rewrite (indexOf_last _ _ Hfresh), insert_last.
  by rewrite (toolResultBlocks_blocksOf _ _ Hl),
       (toolResultBlocks_blocksOf _ _ Hu).
Qed.

(** On a list that holds no object twice, the code runs the machine. *)
Lemma fold_visit rest : forall result prefix open next,
  Shape result prefix open ->
  NoDup (addr <$> result ++ rest) ->
  Forall (λ o, addr o < next)%nat (result ++ rest) ->
  val <$> (fold_left visit
             (List.filter (λ o, negb (isProgress (val o))) rest)
             (result, next)).1
  = (val <$> prefix) ++ wireFrom open (val <$> rest).
Proof.
  induction rest as [|o' rest IH]; intros result prefix open next
    Hshape Hnodup Hbound.
  - simpl. destruct Hshape as [result _|prefix o l Hval _].
    + by rewrite app_nil_r.
    + by rewrite fmap_app; simpl; rewrite Hval.
  - assert (NoDup (addr <$> result ++ rest)) as Hnodup'.
    { rewrite fmap_app in *. rewrite fmap_cons in Hnodup.
      apply NoDup_app in Hnodup as (H1 & H2 & H3).
      apply NoDup_cons in H3 as [_ H3].
      apply NoDup_app. repeat split; [done| |done].
      intros x Hx Hx'. apply (H2 x Hx). by right. }
    assert (Forall (λ o, addr o < next)%nat (result ++ rest)) as Hbound'.
    { apply Forall_app in Hbound as [H1 H2].
      apply Forall_cons in H2 as [_ H2]. by apply Forall_app. }
    simpl List.filter. destruct (isProgress (val o')) eqn:Hprogress.
    { simpl negb. cbv iota. rewrite (IH result prefix open next) by done.
      rewrite fmap_cons. destruct (val o'); try discriminate. done. }
    simpl negb. cbv iota. cbn [fold_left].
    destruct (isToolResultMessage (val o')) eqn:Htool.
    + destruct (val o') as [u| |] eqn:Hval'; try discriminate.
      rewrite fmap_cons, Hval'.
      change (wireFrom open (User u :: (val <$> rest)))
        with (if isToolResultMessage (User u)
              then match open with
                   | Some l =>
                       wireFrom (Some (merged l (blocksOf l) (blocksOf u)))
                         (val <$> rest)
                   | None => wireFrom (Some u) (val <$> rest)
                   end
              else close open ++ User u :: wireFrom None (val <$> rest)).
      rewrite Htool.
      destruct Hshape as [result Hclosed|prefix o l Hval Hl].
      * rewrite visit_push by (rewrite ?Hval'; done).
        apply (IH (result ++ [o']) result (Some u) next).
        -- by constructor.
        -- by rewrite <- app_assoc.
        -- by rewrite <- app_assoc.
      * assert (addr o ∉ addr <$> prefix) as Hfresh.
        { rewrite !fmap_app in Hnodup.
          apply NoDup_app in Hnodup as (H1 & _ & _).
          apply NoDup_app in H1 as (_ & H2 & _).
          intros Hin. apply (H2 _ Hin). simpl. by left. }
        rewrite (visit_merge prefix o l next o' u) by done.
        set (object := {| addr := next;
                          val := User (merged l (blocksOf l) (blocksOf u)) |}).
        apply (IH (prefix ++ [object]) prefix
                 (Some (merged l (blocksOf l) (blocksOf u))) (S next)).
        -- apply (Shape_open prefix object); [done|].
           destruct (proj1 (isToolResultMessage_true l) Hl) as [lb Hlb].
           apply isToolResultMessage_true.
           rewrite (toolResultBlocks_blocksOf _ _ Hlb).
           eexists. by apply merged_is_tool_result.
        -- rewrite !fmap_app in *. simpl in *.
           apply Forall_app in Hbound' as [[Hb1 _]%Forall_app Hb2].
           apply (NoDup_replace_last _ _ (addr o) next);
             [done | |]; apply Forall_fmap; simpl; done.
        -- apply Forall_app in Hbound' as [[Hb1 _]%Forall_app Hb2].
           apply Forall_app_2; [apply Forall_app_2|].
           ++ eapply Forall_impl; [exact Hb1|]. simpl; intros; lia.
           ++ repeat constructor.
           ++ eapply Forall_impl; [exact Hb2|]. simpl; intros; lia.
    + rewrite visit_push by (rewrite ?Htool; done).
      rewrite (IH (result ++ [o']) (result ++ [o']) None next).
      * rewrite fmap_cons.
        assert (wireFrom open (val o' :: (val <$> rest))
                = close open ++ val o' :: wireFrom None (val <$> rest))
          as ->.
        { destruct (val o') as [u| |]; try done.
          simpl in Htool. simpl. by rewrite Htool. }
        destruct Hshape as [result _|prefix o l Hval _]; simpl.
        -- by rewrite fmap_app, <- app_assoc.
        -- rewrite !fmap_app, <- !app_assoc. simpl. by rewrite Hval.
      * constructor. intros o2. rewrite last_snoc. by intros [= <-].
      * by rewrite <- app_assoc.
      * by rewrite <- app_assoc.
Qed.

Lemma unused_bound (messages : list Obj) :
  Forall (λ o, addr o < unused messages)%nat messages.
Proof.
  induction messages as [|o messages IH]; [done|].
  constructor; simpl; [lia|].
  eapply Forall_impl; [exact IH|]. simpl. intros; lia.
Qed.

Lemma visit_no_progress result next o :
  Forall (λ o, isProgress (val o) = false) result ->
  Forall (λ o, isProgress (val o) = false) (visit (result, next) o).1.
Proof.
  intros Hall. unfold visit.
  destruct (val o) eqn:Hval; repeat case_match; simpl; try done;
    try (apply Forall_app_2; [done|]; repeat constructor; by rewrite Hval).
  by apply Forall_insert.
Qed.

Lemma fold_visit_no_progress rest : forall result next,
  Forall (λ o, isProgress (val o) = false) result ->
  Forall (λ o, isProgress (val o) = false)
    (fold_left visit rest (result, next)).1.
Proof.
  induction rest as [|o rest IH]; intros result next Hall; [done|].
  cbn [fold_left].
  pose proof (visit_no_progress result next o Hall) as Hstep.
  destruct (visit (result, next) o) as [result' next']. by apply IH.
Qed.

(** Where the merge does what it is meant to do.  For every message list
    the wire-normalised transcript holds no progress message.  When no
    message object occurs twice in the list, it holds no two consecutive
    tool-result user messages either: every maximal run of consecutive
    tool-result user messages (progress messages set aside) has become
    one user message whose content is the concatenation of their content
    blocks in order, and every other message is kept. *)
Lemma distinct_objects_are_merged (messages : list Obj) :
  Forall (λ message, isProgress message = false)
    (val <$> normalizeMessagesForAPI messages)
  /\ (NoDup (addr <$> messages) ->
      noAdjacentToolResults (val <$> normalizeMessagesForAPI messages)
      /\ Merged (keepsWire (val <$> messages))
           (val <$> normalizeMessagesForAPI messages)).
Proof.
  split.
  - apply Forall_fmap. unfold normalizeMessagesForAPI.
    by apply fold_visit_no_progress.
  - intros Hnodup.
    assert (val <$> normalizeMessagesForAPI messages
            = wireFrom None (val <$> messages)) as ->.
    { unfold normalizeMessagesForAPI.
      apply (fold_visit messages [] [] None (unused messages)).
      - by constructor.
      - done.
      - apply unused_bound. }
    pose proof (proj1 (wireFrom_Merged (val <$> messages))) as Hmerged.
    split; [|done]. by apply (Merged_noAdjacent _ _ Hmerged).
Qed.

End Properties.

Lemma distinct_objects_are_merged_example :
  NoDup (addr <$> [first; second; third; fourth])
  /\ Merged (keepsWire (val <$> [first; second; third; fourth]))
       (val <$> normalizeMessagesForAPI [first; second; third; fourth]).
Proof.
  assert (NoDup (addr <$> [first; second; third; fourth])) as Hnodup.
  { apply (bool_decide_unpack
             (NoDup (addr <$> [first; second; third; fourth]))).
    vm_compute. exact I. }
  split; [exact Hnodup|].
  apply (proj2 (distinct_objects_are_merged [first; second; third; fourth])
           Hnodup).
Defined.


End WireSpec.

(** * Further properties of the modelled code *)

Module SortFacts.
Import Query.

Lemma insertSorted_Permutation {A : Type} (compare : A -> A -> Z) (x : A)
    (l : list A) :
  insertSorted compare x l ≡ₚ x :: l.
Proof.
  induction l as [|y l IH]; simpl; [done|].
  case_bool_decide; [done|]. rewrite IH. apply Permutation_swap.
Qed.

(** [sort] rearranges: nothing is lost, added or repeated. *)
Lemma sort_Permutation {A : Type} (compare : A -> A -> Z) (l : list A) :
  sort compare l ≡ₚ l.
Proof.
  induction l as [|x l IH]; [done|].
  unfold sort in *. simpl. rewrite insertSorted_Permutation. by rewrite IH.
Qed.

Lemma insertSorted_head {A : Type} (compare : A -> A -> Z) (R : A -> A -> Prop)
    (x y : A) (l : list A) :
  R y x -> HdRel R y l -> HdRel R y (insertSorted compare x l).
Proof.
  intros Hyx Hhd. destruct l as [|z l]; simpl; [by constructor|].
  case_bool_decide; constructor; [done|]. by inversion Hhd.
Qed.

(** With a comparator that decides a total relation, [sort] returns a
    sorted list. *)
Lemma sort_Sorted {A : Type} (compare : A -> A -> Z) (R : A -> A -> Prop) :
  (forall a b, (compare a b <= 0)%Z -> R a b) ->
  (forall a b, ~ (compare a b <= 0)%Z -> R b a) ->
  forall l, Sorted R (sort compare l).
Proof.
  intros Hle Hgt l. induction l as [|x l IH]; [constructor|].
  unfold sort in *. simpl. revert IH. generalize (foldr (insertSorted compare) [] l).
  clear l. intros l Hsorted. induction Hsorted as [|y l Hs IH Hhd]; simpl.
  - repeat constructor.
  - case_bool_decide as Hc.
    + constructor; [by constructor|]. constructor. by apply Hle.
    + constructor; [done|]. apply insertSorted_head; [by apply Hgt | done].
Qed.

End SortFacts.

Module StoreSpec.
Import Permissions Store.

Section Properties.
Context `{!Environment} `{!ToolNames}.
Context {Session : Type} (grant : Session -> Session).

Implicit Types (tool : ToolObject) (command : string).
Implicit Types (prefix : option string) (state : PermissionState Session).
Implicit Types (cls : string -> option CommandSubcommandPrefixResult).

Lemma compareStrings_le (a b : string) :
  (compareStrings a b <= 0)%Z -> String.leb a b = true.
Proof.
  unfold compareStrings, String.leb.
  destruct (String.compare a b); [done | done | lia].
Qed.

Lemma compareStrings_gt (a b : string) :
  ~ (compareStrings a b <= 0)%Z -> String.leb b a = true.
Proof.
  intros Hgt. destruct (String.leb_total a b) as [Hab|Hba]; [|done].
  exfalso. apply Hgt. unfold compareStrings, String.leb in *.
  destruct (String.compare a b); [lia | lia | done].
Qed.

Lemma savePermission_keys tool command prefix state :
  isFileEditing tool = false ->
  session (savePermission grant tool command prefix state) = session state
  /\ forall key,
       key ∈ allowedTools (savePermission grant tool command prefix state)
       <-> key ∈ allowedTools state
           \/ key = getPermissionKey (keyTool tool) command prefix.
Proof.
  intros Hfile. unfold savePermission. rewrite Hfile.
  case_bool_decide as Hin; simpl.
  - split; [done|]. intros key. split; [by left|]. by intros [?| ->].
  - split; [done|]. intros key.
    rewrite (SortFacts.sort_Permutation compareStrings).
    rewrite elem_of_app, list_elem_of_singleton. done.
Qed.

(** X1.  [savePermission] on a tool that persists: the key is stored, every
    key stored before is still stored, nothing else is, and the session is
    untouched. *)
Theorem savePermission_stores tool command prefix state :
  isFileEditing tool = false ->
  session (savePermission grant tool command prefix state) = session state
  /\ forall key,
       key ∈ allowedTools (savePermission grant tool command prefix state)
       <-> key ∈ allowedTools state
           \/ key = getPermissionKey (keyTool tool) command prefix.
Proof. apply savePermission_keys. Qed.

(** X2.  Saving the same approval a second time changes nothing. *)
Theorem savePermission_idempotent tool command prefix state :
  isFileEditing tool = false ->
  savePermission grant tool command prefix
    (savePermission grant tool command prefix state)
  = savePermission grant tool command prefix state.
Proof.
  intros Hfile.
  destruct (savePermission_keys tool command prefix state Hfile)
    as [_ Hkeys].
  unfold savePermission at 1. rewrite Hfile.
  rewrite bool_decide_eq_true_2; [done|]. apply Hkeys. by right.
Qed.

(** X3.  [savePermission] keeps the stored list sorted and free of repeats;
    after a new key was added the list is sorted whatever it was before. *)
Theorem savePermission_sorted tool command prefix state :
  (Sorted (λ a b, String.leb a b = true) (allowedTools state) ->
   Sorted (λ a b, String.leb a b = true)
     (allowedTools (savePermission grant tool command prefix state)))
  /\ (NoDup (allowedTools state) ->
      NoDup (allowedTools (savePermission grant tool command prefix state)))
  /\ (isFileEditing tool = false ->
      getPermissionKey (keyTool tool) command prefix ∉ allowedTools state ->
      Sorted (λ a b, String.leb a b = true)
        (allowedTools (savePermission grant tool command prefix state))).
Proof.
  assert (forall l, Sorted (λ a b, String.leb a b = true)
                      (Query.sort compareStrings l)) as Hsorted.
  { apply SortFacts.sort_Sorted;
      [apply compareStrings_le | apply compareStrings_gt]. }
  unfold savePermission. destruct (isFileEditing tool); simpl.
  { split; [done|]. split; [done|]. discriminate. }
  case_bool_decide as Hin; simpl.
  - split; [done|]. split; [done|]. intros _ Hnotin. contradiction.
  - split; [intros _; apply Hsorted|]. split; [|intros _ _; apply Hsorted].
    intros Hnodup. rewrite (SortFacts.sort_Permutation compareStrings).
    apply NoDup_app. split; [done|]. split; [|apply NoDup_singleton].
    intros key Hkey ->%list_elem_of_singleton. contradiction.
Qed.

(** Approvals of the file-editing tools are never written to the stored
    list, only to the session. *)
Theorem savePermission_file_tools tool command prefix state :
  isFileEditing tool = true ->
  savePermission grant tool command prefix state
  = {| allowedTools := allowedTools state;
       session := grant (session state) |}.
Proof. intros Hfile. unfold savePermission. by rewrite Hfile. Qed.

Lemma exactMatch_mono (t : Tool) command (allowed allowed' : list string) :
  allowed ⊆ allowed' ->
  bashToolCommandHasExactMatchPermission t command allowed = true ->
  bashToolCommandHasExactMatchPermission t command allowed' = true.
Proof.
  intros Hsub. unfold bashToolCommandHasExactMatchPermission.
  repeat case_bool_decide; try done; intros _; exfalso; naive_solver.
Qed.

Lemma hasPermission_mono (t : Tool) command prefix
    (allowed allowed' : list string) :
  allowed ⊆ allowed' ->
  bashToolCommandHasPermission t command prefix allowed = true ->
  bashToolCommandHasPermission t command prefix allowed' = true.
Proof.
  intros Hsub. unfold bashToolCommandHasPermission.
  destruct (bashToolCommandHasExactMatchPermission t command allowed)
    eqn:Hexact.
  - by rewrite (exactMatch_mono _ _ _ _ Hsub Hexact).
  - intros Hin%bool_decide_eq_true.
    destruct (bashToolCommandHasExactMatchPermission t command allowed');
      [done|]. apply bool_decide_eq_true. by apply Hsub.
Qed.

Lemma subCommandHasPermission_mono (t : Tool)
    (r : CommandSubcommandPrefixResult) (allowed allowed' : list string)
    subCommand :
  allowed ⊆ allowed' ->
  subCommandHasPermission t r allowed subCommand = true ->
  subCommandHasPermission t r allowed' subCommand = true.
Proof.
  intros Hsub. unfold subCommandHasPermission.
  destruct (subcommandPrefixes r !! subCommand) as [pr|]; [|done].
  destruct (commandInjectionDetected pr); [done|].
  by apply hasPermission_mono.
Qed.

(** More stored approvals never turn an approval of the shell check into
    a refusal. *)
Lemma bashToolHasPermission_mono (t : Tool) command aborted
    (allowed allowed' : list string) cls :
  allowed ⊆ allowed' ->
  bashToolHasPermission t command aborted allowed cls = Returned Granted ->
  bashToolHasPermission t command aborted allowed' cls = Returned Granted.
Proof.
  intros Hsub. unfold bashToolHasPermission.
  destruct (bashToolCommandHasExactMatchPermission t command allowed)
    eqn:Hexact.
  { by rewrite (exactMatch_mono _ _ _ _ Hsub Hexact). }
  destruct (bashToolCommandHasExactMatchPermission t command allowed');
    [done|].
  destruct aborted; [done|].
  destruct (cls command) as [r|]; [|done].
  destruct (commandInjectionDetected r); [done|].
  case_bool_decide.
  - destruct (bashToolCommandHasPermission t command (commandPrefix r)
                allowed) eqn:Hp; [|done].
    by rewrite (hasPermission_mono _ _ _ _ _ Hsub Hp).
  - destruct (forallb (subCommandHasPermission t r allowed) _) eqn:Hall;
      [|done].
    intros _.
    rewrite (proj2 (forallb_forall _ _)); [done|].
    intros sc Hsc. rewrite forallb_forall in Hall.
    eapply subCommandHasPermission_mono; eauto.
Qed.

(** X4.  Approvals only widen: with more keys stored, whatever
    [hasPermissionsToUseTool] approved is still approved. *)
Theorem hasPermissionsToUseTool_mono {E : Type} tool command skip
    abortedAtEntry abortedAfterClassifier (needs : Outcome E bool)
    (allowed allowed' : list string) cls :
  allowed ⊆ allowed' ->
  hasPermissionsToUseTool tool command skip abortedAtEntry
    abortedAfterClassifier needs allowed cls = Returned Granted ->
  hasPermissionsToUseTool tool command skip abortedAtEntry
    abortedAfterClassifier needs allowed' cls = Returned Granted.
Proof.
  intros Hsub. unfold hasPermissionsToUseTool.
  destruct skip; [done|]. destruct abortedAtEntry; [done|].
  destruct needs as [[|]|]; try done.
  destruct tool; try done.
  - case_bool_decide as Hin.
    + by rewrite bool_decide_eq_true_2 by (by apply Hsub).
    + case_bool_decide; [done|]. by apply bashToolHasPermission_mono.
  - case_bool_decide as Hin; [|done].
    by rewrite bool_decide_eq_true_2 by (by apply Hsub).
Qed.

(** X5.  An approval of a file-editing tool is not persisted: saving it leaves
    the stored list as it was, and while the tool says that it needs
    permission the check refuses, whatever the stored list holds. *)
Theorem file_edit_approval_not_persisted {E : Type} tool command command'
    prefix state abortedAfterClassifier (allowed : list string) cls :
  isFileEditing tool = true ->
  allowedTools (savePermission grant tool command prefix state)
  = allowedTools state
  /\ hasPermissionsToUseTool (E := E) tool command' false false
       abortedAfterClassifier (Returned true) allowed cls
     = Returned (Refused (permissionRequestMessage (keyTool tool))).
Proof.
  intros Hfile. rewrite (savePermission_file_tools _ _ _ _ Hfile).
  by destruct tool.
Qed.


(** With collaborators that return, the check does what
    [hasPermissionsToUseTool] says. *)
Lemma hasPermissionsToUseTool_full_returning {E : Type} tool command skip
    abortedAtEntry abortedAfterClassifier (needs : Outcome E bool)
    (allowed : list string) cls :
  hasPermissionsToUseTool_full tool command skip abortedAtEntry
    abortedAfterClassifier needs (Returned allowed) (Returned command)
    (Returned cls) needs
  = passedOn
      (hasPermissionsToUseTool tool command skip abortedAtEntry
         abortedAfterClassifier needs allowed cls).
Proof.
  unfold hasPermissionsToUseTool_full, hasPermissionsToUseTool.
  destruct skip; [done|]. destruct abortedAtEntry; [done|].
  destruct needs as [[|]|]; try done.
  destruct tool; try done; [|by case_bool_decide].
  case_bool_decide; [done|].
  destruct (bashToolCommandHasExactMatchPermission BashTool command allowed)
    eqn:Hexact; [|done].
  unfold bashToolHasPermission. by rewrite Hexact.
Qed.


(** X7.  Save, then check: an approval saved for a tool known by its name is
    honoured for every input of that tool. *)
Theorem saved_tool_is_approved {E : Type} (n : string) command command'
    prefix state abortedAfterClassifier (b : bool) cls :
  hasPermissionsToUseTool (E := E) (Plain n) command' false false
    abortedAfterClassifier (Returned b)
    (allowedTools (savePermission grant (Plain n) command prefix state)) cls
  = Returned Granted.
Proof.
  destruct (savePermission_keys (Plain n) command prefix state eq_refl)
    as [_ Hkeys].
  unfold hasPermissionsToUseTool. destruct b; [|done].
  rewrite bool_decide_eq_true_2; [done|]. apply Hkeys. by right.
Qed.

(** X8.  Save, then check, for the shell tool.  An approval saved without a
    prefix approves that very command, even if the classifier is down or
    suspects injection; an approval saved with a prefix approves every
    single command for which the classifier reports this prefix and no
    injection. *)
Theorem saved_command_is_approved {E : Type} command prefix state
    (b : bool) :
  (forall abortedAfterClassifier cls,
     hasPermissionsToUseTool (E := E) Shell command false false
       abortedAfterClassifier (Returned b)
       (allowedTools (savePermission grant Shell command None state)) cls
     = Returned Granted)
  /\ (forall command' cls r,
        truthy prefix = true ->
        cls command' = Some r ->
        commandInjectionDetected r = false ->
        commandPrefix r = prefix ->
        length (filter (λ c, c ≠ "cd " +:+ getCwd) (splitCommand command'))
          < 2 ->
        hasPermissionsToUseTool (E := E) Shell command' false false
          false (Returned b)
          (allowedTools (savePermission grant Shell command prefix state))
          cls
        = Returned Granted).
Proof.
  split.
  - intros abortedAfterClassifier cls.
    destruct (savePermission_keys Shell command None state eq_refl)
      as [_ Hkeys].
    unfold hasPermissionsToUseTool. destruct b; [|done].
    case_bool_decide; [done|].
    unfold bashToolHasPermission.
    rewrite (proj2 (PermissionsSpec.exactMatch_spec BashTool command _));
      [done|].
    right. left. apply Hkeys. by right.
  - intros command' cls r Htruthy Hcls Hinj Hprefix Hlen.
    destruct (savePermission_keys Shell command prefix state eq_refl)
      as [_ Hkeys].
    unfold hasPermissionsToUseTool. destruct b; [|done].
    case_bool_decide; [done|].
    unfold bashToolHasPermission. rewrite Hcls, Hinj.
    destruct (bashToolCommandHasExactMatchPermission _ _ _); [done|].
    rewrite bool_decide_eq_true_2 by done.
    rewrite (proj2 (PermissionsSpec.hasPermission_spec BashTool command'
                      (commandPrefix r) _)); [done|].
    right. apply Hkeys. right. rewrite Hprefix.
    simpl. unfold getPermissionKey. by rewrite Htruthy.
Qed.

End Properties.

Lemma savePermission_stores_witness :
  isFileEditing Shell = false
  /\ "Bash(npm:*)"
     ∈ allowedTools
         (savePermission (H := demoEnv) (H0 := demoNames) (λ u : unit, u)
            Shell "npm test" (Some "npm")
            {| allowedTools := ["Bash(git:*)"; "View"]; session := tt |}).
Proof.
  split; [reflexivity|].
  apply (proj2 (savePermission_stores (H := demoEnv) (H0 := demoNames)
                  (λ u : unit, u) Shell "npm test" (Some "npm")
                  {| allowedTools := ["Bash(git:*)"; "View"];
                     session := tt |}
                  eq_refl)).
  right. reflexivity.
Defined.

Lemma savePermission_idempotent_witness :
  savePermission (H := demoEnv) (H0 := demoNames) (λ u : unit, u)
    Shell "npm test" (Some "npm")
    (savePermission (H := demoEnv) (H0 := demoNames) (λ u : unit, u)
       Shell "npm test" (Some "npm")
       {| allowedTools := ["Bash(git:*)"; "View"]; session := tt |})
  = savePermission (H := demoEnv) (H0 := demoNames) (λ u : unit, u)
      Shell "npm test" (Some "npm")
      {| allowedTools := ["Bash(git:*)"; "View"]; session := tt |}.
Proof.
  apply (savePermission_idempotent (H := demoEnv) (H0 := demoNames)
           (λ u : unit, u) Shell "npm test" (Some "npm")
           {| allowedTools := ["Bash(git:*)"; "View"]; session := tt |}
           eq_refl).
Defined.

Lemma savePermission_sorted_witness :
  Sorted (λ a b, String.leb a b = true)
    (allowedTools
       (savePermission (H := demoEnv) (H0 := demoNames) (λ u : unit, u)
          Shell "npm test" (Some "npm")
          {| allowedTools := ["View"; "Bash(git:*)"]; session := tt |})).
Proof.
  apply (proj2 (proj2 (savePermission_sorted (H := demoEnv)
                         (H0 := demoNames) (λ u : unit, u) Shell "npm test"
                         (Some "npm")
                         {| allowedTools := ["View"; "Bash(git:*)"];
                            session := tt |})) eq_refl).
  intros Hin.
  apply elem_of_cons in Hin as [Hin|Hin]; [vm_compute in Hin; discriminate|].
  apply elem_of_cons in Hin as [Hin|Hin]; [vm_compute in Hin; discriminate|].
  by apply elem_of_nil in Hin.
Defined.

Lemma hasPermissionsToUseTool_mono_witness :
  hasPermissionsToUseTool (H := demoEnv) (H0 := demoNames) (E := unit) Shell "git status -s"
    false false false (Returned true) ["Bash(git:*)"; "View"] classifierGit
  = Returned Granted.
Proof.
  apply (hasPermissionsToUseTool_mono (H := demoEnv) (H0 := demoNames) (E := unit) Shell
           "git status -s" false false false (Returned true)
           ["Bash(git:*)"] ["Bash(git:*)"; "View"] classifierGit).
  - intros key Hkey. apply elem_of_cons. by left; apply list_elem_of_singleton.
  - vm_compute. reflexivity.
Defined.

Lemma file_edit_approval_not_persisted_witness :
  hasPermissionsToUseTool (H := demoEnv) (H0 := demoNames) (E := unit)
    FileEdit "" false false false (Returned true) ["Edit"] classifierDown
  = Returned (Refused
      "Koding requested permissions to use Edit, but you haven't granted it yet.").
Proof.
  apply (proj2 (file_edit_approval_not_persisted (H := demoEnv)
                  (H0 := demoNames) (E := unit) (λ u : unit, u) FileEdit
                  "" "" None {| allowedTools := []; session := tt |}
                  false ["Edit"] classifierDown eq_refl)).
Defined.


Lemma saved_command_is_approved_witness :
  hasPermissionsToUseTool (H := demoEnv) (H0 := demoNames) (E := unit)
    Shell "git status -s" false false false (Returned true)
    (allowedTools
       (savePermission (H := demoEnv) (H0 := demoNames) (λ u : unit, u)
          Shell "git log" (Some "git")
          {| allowedTools := []; session := tt |}))
    classifierGit
  = Returned Granted.
Proof.
  apply (proj2 (saved_command_is_approved (H := demoEnv) (H0 := demoNames)
                  (E := unit) (λ u : unit, u) "git log" (Some "git")
                  {| allowedTools := []; session := tt |} true)
           "git status -s" classifierGit _ eq_refl eq_refl eq_refl eq_refl).
  vm_compute. lia.
Defined.

End StoreSpec.

Module RetrySpec.
Import Claude Retry.

Section Properties.
Variable parseInt : string -> option Z.
Variable USER_TYPE : option string.

Lemma getRetryDelay_unusable attempt header :
  unusable parseInt header ->
  getRetryDelay parseInt attempt header
  = Qmin (BASE_DELAY_MS * Qpower 2 (attempt - 1)) 32000.
Proof.
  intros [Hfalsy|Hnan]; unfold getRetryDelay.
  - by rewrite Hfalsy.
  - rewrite Hnan. by destruct (Permissions.truthy header).
Qed.

Lemma backoff_mono (a b : Z) :
  (a <= b)%Z ->
  (Qmin (BASE_DELAY_MS * Qpower 2 (a - 1)) 32000
   <= Qmin (BASE_DELAY_MS * Qpower 2 (b - 1)) 32000)%Q.
Proof.
  intros Hab. apply Q.min_le_compat; [|apply Qle_refl].
  apply Qmult_le_l; [reflexivity|].
  apply Qpower_le_compat_l; [lia | discriminate].
Qed.

(** X9.  The wait before a retry.  Without a usable [retry-after] header it is
    500 ms doubled per attempt and capped at 32 s: never more than 32 s,
    never shorter for a later attempt, at least 500 ms from the first
    attempt on and exactly 32 s from the seventh.  A header that parses
    sets the wait to that many seconds, uncapped. *)
Theorem getRetryDelay_backoff (attempt : Z) :
  (forall header,
     unusable parseInt header ->
     (getRetryDelay parseInt attempt header <= 32000)%Q
     /\ (forall later header',
           unusable parseInt header' -> (attempt <= later)%Z ->
           (getRetryDelay parseInt attempt header
            <= getRetryDelay parseInt later header')%Q)
     /\ ((1 <= attempt)%Z ->
         (500 <= getRetryDelay parseInt attempt header)%Q)
     /\ ((7 <= attempt)%Z ->
         (getRetryDelay parseInt attempt header == 32000)%Q))
  /\ (forall header seconds,
        header <> "" -> parseInt header = Some seconds ->
        getRetryDelay parseInt attempt (Some header)
        = (inject_Z seconds * 1000)%Q).
Proof.
  split.
  - intros header Hun. rewrite (getRetryDelay_unusable _ _ Hun).
    split; [apply Q.le_min_r|]. split; [|split].
    + intros later header' Hun' Hle.
      rewrite (getRetryDelay_unusable _ _ Hun'). by apply backoff_mono.
    + intros Hone. apply Q.min_glb; [|discriminate].
      rewrite <- (Qmult_1_r 500) at 1. apply Qmult_le_l; [reflexivity|].
      change 1%Q with (Qpower 2 0). apply Qpower_le_compat_l; [lia|].
      discriminate.
    + intros Hseven. apply Q.min_r.
      change 32000%Q with (BASE_DELAY_MS * Qpower 2 6)%Q at 1.
      apply Qmult_le_l; [reflexivity|].
      apply Qpower_le_compat_l; [lia | discriminate].
  - intros header seconds Hne Hparse. unfold getRetryDelay.
    destruct header; [done|]. simpl. by rewrite Hparse.
Qed.

(** The instrumented loop and the loop of [withRetry] agree. *)
Lemma withRetry_trace_outcome {T : Type}
    (operation : nat -> Outcome Failure T) maxRetries remaining :
  forall attempt lastError,
    (withRetry_trace parseInt USER_TYPE operation maxRetries remaining
       attempt lastError).1.1
    = withRetry_loop USER_TYPE operation maxRetries remaining attempt
        lastError.
Proof.
  induction remaining as [|remaining IH]; intros attempt lastError; [done|].
  simpl. destruct (operation attempt) as [r|error]; [done|].
  destruct (givesUp USER_TYPE maxRetries attempt error); [done|].
  specialize (IH (S attempt) (Some error)).
  destruct (withRetry_trace _ _ _ _ _ _ _) as [[o w] c]. done.
Qed.

Lemma withRetry_trace_spec {T : Type}
    (operation : nat -> Outcome Failure T) maxRetries remaining :
  forall attempt lastError,
    (attempt + remaining = maxRetries + 2)%nat -> (1 <= remaining)%nat ->
    let '(outcome, waits, calls) :=
      withRetry_trace parseInt USER_TYPE operation maxRetries remaining
        attempt lastError in
    (1 <= calls <= remaining)%nat
    /\ length waits = (calls - 1)%nat
    /\ outcome = operation (attempt + calls - 1)%nat
    /\ forall i w,
         waits !! i = Some w ->
         exists e,
           operation (attempt + i)%nat = Thrown (APIErrorInstance e)
           /\ shouldRetry USER_TYPE e = true
           /\ w = getRetryDelay parseInt (Z.of_nat (attempt + i))
                    (retryAfter e).
Proof.
  induction remaining as [|remaining IH]; intros attempt lastError Hsum Hpos;
    [lia|].
  simpl. destruct (operation attempt) as [r|error] eqn:Hop.
  { split; [lia|]. split; [done|]. split.
    - by replace (attempt + 1 - 1)%nat with attempt by lia.
    - intros i w Hw. done. }
  destruct (givesUp USER_TYPE maxRetries attempt error) eqn:Hgive.
  { split; [lia|]. split; [done|]. split.
    - by replace (attempt + 1 - 1)%nat with attempt by lia.
    - intros i w Hw. done. }
  apply ClaudeSpec.givesUp_false in Hgive as (Hle & e & -> & Hretry).
  specialize (IH (S attempt) (Some (APIErrorInstance e))
                ltac:(lia) ltac:(lia)).
  destruct (withRetry_trace _ _ _ _ _ _ _) as [[o waits] calls].
  destruct IH as (Hcalls & Hlen & Hout & Hwaits).
  split; [lia|]. split; [simpl; lia|]. split.
  - rewrite Hout. f_equal. lia.
  - intros [|i] w Hw; simpl in Hw.
    + injection Hw as <-. exists e.
      by replace (attempt + 0)%nat with attempt by lia.
    + destruct (Hwaits i w Hw) as (e' & He' & Hre' & ->).
      exists e'. by replace (attempt + S i)%nat with (S attempt + i)%nat by lia.
Qed.

Lemma withRetry_run_facts {T : Type} (operation : nat -> Outcome Failure T)
    (maxRetries : option nat) :
  let '(outcome, waits, calls) :=
    withRetry_run parseInt USER_TYPE operation maxRetries in
  outcome = withRetry USER_TYPE operation maxRetries
  /\ (1 <= calls <= default (MAX_RETRIES USER_TYPE) maxRetries + 1)%nat
  /\ length waits = (calls - 1)%nat
  /\ outcome = operation calls
  /\ forall i w,
       waits !! i = Some w ->
       exists e,
         operation (S i) = Thrown (APIErrorInstance e)
         /\ shouldRetry USER_TYPE e = true
         /\ w = getRetryDelay parseInt (Z.of_nat (S i)) (retryAfter e).
Proof.
  unfold withRetry_run, withRetry.
  set (mr := default (MAX_RETRIES USER_TYPE) maxRetries).
  pose proof (withRetry_trace_outcome operation mr (mr + 1) 1 None) as Hout.
  pose proof (withRetry_trace_spec operation mr (mr + 1) 1 None
                ltac:(lia) ltac:(lia)) as Hspec.
  destruct (withRetry_trace _ _ _ _ _ _ _) as [[o waits] calls].
  destruct Hspec as (Hcalls & Hlen & Hlast & Hwaits).
  split; [exact Hout|]. split; [done|]. split; [done|]. split.
  - rewrite Hlast. f_equal. lia.
  - exact Hwaits.
Qed.

(** X10.  What a run of [withRetry] does: it calls the operation at least once
    and at most [maxRetries + 1] times, waits once between two calls, and
    returns or throws exactly what the last call returned or threw; every
    call before the last one threw an API error that the classifier calls
    retryable, and the wait that follows it is its retry delay. *)
Theorem withRetry_run_spec {T : Type} (operation : nat -> Outcome Failure T)
    (maxRetries : option nat) :
  let '(outcome, waits, calls) :=
    withRetry_run parseInt USER_TYPE operation maxRetries in
  outcome = withRetry USER_TYPE operation maxRetries
  /\ (1 <= calls <= default (MAX_RETRIES USER_TYPE) maxRetries + 1)%nat
  /\ length waits = (calls - 1)%nat
  /\ outcome = operation calls
  /\ forall i w,
       waits !! i = Some w ->
       exists e,
         operation (S i) = Thrown (APIErrorInstance e)
         /\ shouldRetry USER_TYPE e = true
         /\ w = getRetryDelay parseInt (Z.of_nat (S i)) (retryAfter e).
Proof. apply withRetry_run_facts. Qed.

Lemma withRetry_loop_returns {T : Type}
    (operation : nat -> Outcome Failure T) maxRetries remaining :
  forall attempt lastError r,
    (attempt + remaining = maxRetries + 2)%nat -> (1 <= remaining)%nat ->
    withRetry_loop USER_TYPE operation maxRetries remaining attempt lastError
      = Returned r <->
    exists k, (attempt <= k <= maxRetries + 1)%nat
      /\ retriedThrough USER_TYPE operation attempt k
      /\ operation k = Returned r.
Proof.
  induction remaining as [|remaining IH];
    intros attempt lastError r Hsum Hpos; [lia|].
  simpl. destruct (operation attempt) as [r'|error] eqn:Hop.
  - split.
    + intros [= <-]. exists attempt. split; [lia|].
      split; [intros j Hj; lia | done].
    + intros (k & Hk & Hretried & Hopk).
      destruct (decide (k = attempt)) as [->|Hne]; [congruence|].
      destruct (Hretried attempt ltac:(lia)) as (e & He & _). congruence.
  - destruct (givesUp USER_TYPE maxRetries attempt error) eqn:Hgive.
    + split; [discriminate|].
      intros (k & Hk & Hretried & Hopk).
      destruct (decide (k = attempt)) as [->|Hne]; [congruence|].
      destruct (Hretried attempt ltac:(lia)) as (e & He & Hre).
      rewrite Hop in He. injection He as ->.
      apply ClaudeSpec.givesUp_spec in Hgive as [Hlt|Hterm]; [lia|].
      simpl in Hterm. congruence.
    + apply ClaudeSpec.givesUp_false in Hgive as (Hle & e & -> & Hre).
      rewrite IH by lia. split.
      * intros (k & Hk & Hretried & Hopk).
        exists k. split; [lia|]. split; [|done].
        intros j Hj. destruct (decide (j = attempt)) as [->|Hne]; [eauto|].
        apply Hretried. lia.
      * intros (k & Hk & Hretried & Hopk).
        assert (k <> attempt) as Hne by (intros ->; congruence).
        exists k. split; [lia|]. split; [|done].
        intros j Hj. apply Hretried. lia.
Qed.

(** X11.  When [withRetry] returns and when it throws.  It returns the result
    of the first attempt that succeeds, provided every attempt before it
    failed with a retryable API error and at most [maxRetries] retries
    were needed.  It throws the error of the first attempt that fails
    terminally (an error that is not an API error, or one the classifier
    calls terminal), or that of attempt [maxRetries + 1]. *)
Theorem withRetry_outcome {T : Type} (operation : nat -> Outcome Failure T)
    (maxRetries : option nat) :
  (forall r,
     withRetry USER_TYPE operation maxRetries = Returned r <->
     exists k,
       (1 <= k <= default (MAX_RETRIES USER_TYPE) maxRetries + 1)%nat
       /\ retriedThrough USER_TYPE operation 1 k
       /\ operation k = Returned r)
  /\ (forall error,
        withRetry USER_TYPE operation maxRetries = Thrown error <->
        exists k,
          (1 <= k <= default (MAX_RETRIES USER_TYPE) maxRetries + 1)%nat
          /\ retriedThrough USER_TYPE operation 1 k
          /\ operation k = Thrown error
          /\ ((k = default (MAX_RETRIES USER_TYPE) maxRetries + 1)%nat
              \/ terminal USER_TYPE error)).
Proof.
  split.
  - intros r. unfold withRetry. apply withRetry_loop_returns; lia.
  - intros error. apply ClaudeSpec.withRetry_throws.
Qed.

(** X12.  Retry backoff: when no failed attempt carries a usable [retry-after]
    header, the i-th wait is 500 ms times 2 to the i, capped at 32 s, so
    the waits never decrease. *)
Theorem withRetry_backoff {T : Type} (operation : nat -> Outcome Failure T)
    (maxRetries : option nat) :
  (forall attempt e,
     operation attempt = Thrown (APIErrorInstance e) ->
     unusable parseInt (retryAfter e)) ->
  let waits :=
    (withRetry_run parseInt USER_TYPE operation maxRetries).1.2 in
  (forall i w,
     waits !! i = Some w ->
     w = Qmin (BASE_DELAY_MS * Qpower 2 (Z.of_nat i)) 32000)
  /\ (forall i j wi wj,
        (i <= j)%nat -> waits !! i = Some wi -> waits !! j = Some wj ->
        (wi <= wj)%Q).
Proof.
  intros Hheaders.
  pose proof (withRetry_run_facts operation maxRetries) as Hspec.
  destruct (withRetry_run _ _ _ _) as [[o waits] calls]. simpl.
  destruct Hspec as (_ & _ & _ & _ & Hwaits).
  assert (forall i w, waits !! i = Some w ->
            w = Qmin (BASE_DELAY_MS * Qpower 2 (Z.of_nat i)) 32000)
    as Hform.
  { intros i w Hw. destruct (Hwaits i w Hw) as (e & He & _ & ->).
    rewrite (getRetryDelay_unusable _ _ (Hheaders _ _ He)).
    by replace (Z.of_nat (S i) - 1)%Z with (Z.of_nat i) by lia. }
  split; [exact Hform|].
  intros i j wi wj Hij Hi Hj.
  rewrite (Hform _ _ Hi), (Hform _ _ Hj).
  pose proof (backoff_mono (Z.of_nat i + 1) (Z.of_nat j + 1) ltac:(lia))
    as Hmono.
  by replace (Z.of_nat i + 1 - 1)%Z with (Z.of_nat i) in Hmono by lia;
     replace (Z.of_nat j + 1 - 1)%Z with (Z.of_nat j) in Hmono by lia.
Qed.

End Properties.

Lemma getRetryDelay_backoff_witness :
  (getRetryDelay demoParseInt 3 None == 2000)%Q
  /\ (getRetryDelay demoParseInt 3 None <= 32000)%Q
  /\ getRetryDelay demoParseInt 1 (Some "120") = (inject_Z 120 * 1000)%Q.
Proof.
  split; [vm_compute; reflexivity|]. split.
  - apply (proj1 (proj1 (getRetryDelay_backoff demoParseInt 3) None
                    (or_introl eq_refl))).
  - apply (proj2 (getRetryDelay_backoff demoParseInt 1) "120" 120%Z);
      [discriminate | reflexivity].
Defined.

Lemma withRetry_backoff_witness :
  exists wi wj,
    (withRetry_run demoParseInt None Claude.thirdTimeLucky None).1.2 !! 0%nat
    = Some wi
    /\ (withRetry_run demoParseInt None Claude.thirdTimeLucky None).1.2
         !! 1%nat
       = Some wj
    /\ (wi <= wj)%Q.
Proof.
  assert (forall attempt e,
            Claude.thirdTimeLucky attempt = Thrown (APIErrorInstance e) ->
            unusable demoParseInt (retryAfter e)) as Hheaders.
  { intros attempt e He. left. unfold Claude.thirdTimeLucky in He.
    case_bool_decide; [|discriminate]. injection He as <-. reflexivity. }
  eexists _, _. split; [vm_compute; reflexivity|].
  split; [vm_compute; reflexivity|].
  apply (proj2 (withRetry_backoff demoParseInt None Claude.thirdTimeLucky
                  None Hheaders) 0%nat 1%nat);
    [lia | vm_compute; reflexivity | vm_compute; reflexivity].
Defined.

End RetrySpec.

Module WireMoreSpec.
Import Msg Wire WireContent.

(** A transcript that needs no merge is pushed through as it is. *)
Lemma fold_visit_unchanged (rest : list Obj) : forall result next,
  Forall (λ o, isProgress (val o) = false) rest ->
  noAdjacentToolResults (val <$> option_list (last result) ++ rest) ->
  fold_left visit (List.filter (λ o, negb (isProgress (val o))) rest)
    (result, next)
  = (result ++ rest, next).
Proof.
  induction rest as [|o rest IH]; intros result next Hprogress Hadjacent.
  - simpl. by rewrite app_nil_r.
  - apply Forall_cons in Hprogress as [Ho Hprogress].
    simpl List.filter. rewrite Ho. simpl negb. cbv iota. cbn [fold_left].
    rewrite WireSpec.visit_push; [|done|].
    + rewrite (IH (result ++ [o]) next Hprogress).
      * by rewrite <- app_assoc.
      * rewrite last_snoc. simpl.
        destruct (last result); simpl in Hadjacent; [|done].
        by destruct Hadjacent as [_ Hadjacent].
    + intros Htool o' Hlast. rewrite Hlast in Hadjacent.
      simpl in Hadjacent. destruct Hadjacent as [Hhead _].
      destruct (isToolResultMessage (val o')) eqn:Hlasttool; [|done].
      specialize (Hhead eq_refl). congruence.
Qed.

Lemma unchanged_when_normal (messages : list Obj) :
  Forall (λ o, isProgress (val o) = false) messages ->
  noAdjacentToolResults (val <$> messages) ->
  normalizeMessagesForAPI messages = messages.
Proof.
  intros Hprogress Hadjacent. unfold normalizeMessagesForAPI.
  by rewrite (fold_visit_unchanged messages [] _ Hprogress Hadjacent).
Qed.

(** X13.  A transcript without progress messages and without two consecutive
    tool-result user messages comes back unchanged, object by object,
    whether or not it repeats objects. *)
Theorem normalizeMessagesForAPI_unchanged (messages : list Obj) :
  Forall (λ o, isProgress (val o) = false) messages ->
  noAdjacentToolResults (val <$> messages) ->
  normalizeMessagesForAPI messages = messages.
Proof. apply unchanged_when_normal. Qed.

Lemma normalized_values (messages : list Obj) :
  NoDup (addr <$> messages) ->
  val <$> normalizeMessagesForAPI messages
  = wireFrom None (val <$> messages).
Proof.
  intros Hnodup. unfold normalizeMessagesForAPI.
  apply (WireSpec.fold_visit messages [] [] None (unused messages)).
  - by constructor.
  - done.
  - apply WireSpec.unused_bound.
Qed.

(** X14.  Idempotent normalisation: on a list that holds no object twice, a
    second pass returns what the first pass returned. *)
Theorem normalizeMessagesForAPI_idempotent (messages : list Obj) :
  NoDup (addr <$> messages) ->
  normalizeMessagesForAPI (normalizeMessagesForAPI messages)
  = normalizeMessagesForAPI messages.
Proof.
  intros Hnodup. apply unchanged_when_normal.
  - unfold normalizeMessagesForAPI. by apply WireSpec.fold_visit_no_progress.
  - rewrite (normalized_values _ Hnodup).
    eapply WireSpec.Merged_noAdjacent.
    apply (proj1 (WireSpec.wireFrom_Merged (val <$> messages))).
Qed.

Lemma carried_app (l1 l2 : list Message) :
  carried (l1 ++ l2) = carried l1 ++ carried l2.
Proof. unfold carried. by rewrite fmap_app, concat_app. Qed.

Lemma carried_keepsWire (messages : list Message) :
  carried (keepsWire messages) = carried messages.
Proof.
  induction messages as [|message messages IH]; [done|].
  assert (keepsWire (message :: messages)
          = if isProgress message then keepsWire messages
            else message :: keepsWire messages) as ->.
  { unfold keepsWire. simpl. by destruct (isProgress message). }
  change (carried (message :: messages))
    with (pieces message ++ carried messages).
  destruct message as [u|a|pm]; simpl isProgress; cbv iota.
  - change (carried (User u :: keepsWire messages))
      with (pieces (User u) ++ carried (keepsWire messages)).
    by rewrite IH.
  - change (carried (Assistant a :: keepsWire messages))
      with (pieces (Assistant a) ++ carried (keepsWire messages)).
    by rewrite IH.
  - by rewrite IH.
Qed.

Lemma carried_run (others : list UserMessage) :
  Forall (λ u, isToolResultMessage (User u) = true) others ->
  carried (User <$> others) = Block <$> concat (blocksOf <$> others).
Proof.
  induction 1 as [|u others Hu _ IH]; [done|].
  change (carried (User <$> u :: others))
    with (pieces (User u) ++ carried (User <$> others)).
  change (concat (blocksOf <$> u :: others))
    with (blocksOf u ++ concat (blocksOf <$> others)).
  rewrite IH, fmap_app. unfold pieces. by rewrite Hu.
Qed.

Lemma Merged_carried (messages out : list Message) :
  Merged messages out -> carried out = carried messages.
Proof.
  induction 1 as [|message messages out _ _ IH
                  |head others messages out Hrun _ _ IH]; [done| |].
  - change (carried (message :: out)) with (pieces message ++ carried out).
    change (carried (message :: messages))
      with (pieces message ++ carried messages).
    by rewrite IH.
  - apply Forall_cons in Hrun as [Hhead Hothers].
    change (User head :: (User <$> others) ++ messages)
      with ([User head] ++ (User <$> others) ++ messages).
    change (User (mergeAll head others) :: out)
      with ([User (mergeAll head others)] ++ out).
    rewrite !carried_app, IH, (carried_run _ Hothers).
    rewrite app_assoc. f_equal.
    change (carried [User head]) with (pieces (User head) ++ []).
    change (carried [User (mergeAll head others)])
      with (pieces (User (mergeAll head others)) ++ []).
    rewrite !app_nil_r. unfold pieces.
    rewrite (WireSpec.mergeAll_is_tool_result head others Hhead), Hhead.
    by rewrite <- fmap_app.
Qed.

(** X15.  The wire transcript carries what the transcript carried: on a list
    that holds no object twice, every assistant message, every other user
    message and every content block of the tool-result messages is there
    once, in the order of the transcript; only progress messages are
    gone. *)
Theorem normalizeMessagesForAPI_carries (messages : list Obj) :
  NoDup (addr <$> messages) ->
  carried (val <$> normalizeMessagesForAPI messages)
  = carried (val <$> messages).
Proof.
  intros Hnodup. rewrite (normalized_values _ Hnodup).
  rewrite (Merged_carried _ _
             (proj1 (WireSpec.wireFrom_Merged (val <$> messages)))).
  apply carried_keepsWire.
Qed.

Lemma normalizeMessagesForAPI_unchanged_witness :
  normalizeMessagesForAPI [first; second; third] = [first; second; third].
Proof.
  apply normalizeMessagesForAPI_unchanged.
  - repeat constructor.
  - simpl. repeat split; done.
Defined.

Lemma normalizeMessagesForAPI_idempotent_witness :
  normalizeMessagesForAPI
    (normalizeMessagesForAPI [first; second; third; fourth])
  = normalizeMessagesForAPI [first; second; third; fourth].
Proof.
  apply normalizeMessagesForAPI_idempotent.
  apply (bool_decide_unpack
           (NoDup (addr <$> [first; second; third; fourth]))).
  vm_compute. exact I.
Defined.

Lemma normalizeMessagesForAPI_carries_witness :
  carried (val <$> normalizeMessagesForAPI [first; second; third; fourth])
  = carried (val <$> [first; second; third; fourth]).
Proof.
  apply normalizeMessagesForAPI_carries.
  apply (bool_decide_unpack
           (NoDup (addr <$> [first; second; third; fourth]))).
  vm_compute. exact I.
Defined.

End WireMoreSpec.

Module DisplayMoreSpec.
Import Msg Display DisplayShape.

Section Properties.
Variable randomUUID : nat -> UUID.

Lemma totalCost_app (l1 l2 : list Message) :
  (totalCost (l1 ++ l2) == totalCost l1 + totalCost l2)%Q.
Proof.
  induction l1 as [|m l1 IH]; unfold totalCost in *; simpl; [ring|].
  rewrite IH. ring.
Qed.

Lemma normalizeMessage_cost (drawn : nat) (message : Message) :
  (totalCost (normalizeMessage randomUUID drawn message)
   == if isEmptyAssistant message then 0 else messageCost message)%Q.
Proof.
  destruct message as [u|a|pm]; simpl.
  - destruct (user_content u) as [t|blocks]; unfold totalCost; simpl;
      [ring|].
    induction blocks as [|b blocks IH]; simpl; [reflexivity|].
    rewrite IH. ring.
  - destruct (assistant_content a) as [t|blocks] eqn:Hcontent.
    + unfold totalCost. simpl. ring.
    + destruct blocks as [|b blocks]; [reflexivity|].
      rewrite (DisplaySpec.totalCost_imap _ _ (costShare a (b :: blocks)))
        by done.
      unfold costShare. apply Qmult_div_r.
      intros Hzero. unfold Qeq in Hzero. simpl in Hzero. lia.
  - unfold totalCost. simpl. ring.
Qed.

(** X16.  With costs read as exact rationals, as in C9 (the code divides
    IEEE doubles, whose shares need not sum to the cost bit for bit):
    display normalisation keeps the total cost of a list, but for the
    assistant messages whose content array is empty: these vanish from
    the list and their cost with them. *)
Theorem normalizeMessages_cost (messages : list Message) : forall drawn,
  (totalCost (normalizeMessages randomUUID drawn messages)
   == totalCost
        (List.filter (λ message, negb (isEmptyAssistant message)) messages))%Q.
Proof.
  induction messages as [|message messages IH]; intros drawn; [reflexivity|].
  simpl normalizeMessages. rewrite totalCost_app, IH, normalizeMessage_cost.
  simpl List.filter. destruct (isEmptyAssistant message); simpl negb;
    cbv iota.
  - ring.
  - set (rest := List.filter _ messages).
    change (totalCost (message :: rest))
      with (messageCost message + totalCost rest)%Q.
    ring.
Qed.

Lemma fmap_constant {A B : Type} (x : B) (l : list A) :
  (λ _ : A, x) <$> l = replicate (length l) x.
Proof.
  induction l as [|y l IH]; [done|].
  rewrite fmap_cons, IH. done.
Qed.

Lemma normalizeMessage_standsFor (drawn : nat) (message : Message) :
  standsFor message (normalizeMessage randomUUID drawn message).
Proof.
  destruct message as [u|a|pm]; simpl; [| |done].
  - destruct (user_content u) as [t|blocks]; [done|].
    apply fmap_constant.
  - destruct (assistant_content a) as [t|blocks]; [done|].
    apply Forall2_same_length_lookup. split; [by rewrite length_imap|].
    intros i block piece Hblock Hpiece.
    rewrite list_lookup_imap, Hblock in Hpiece. injection Hpiece as <-.
    eexists. by repeat split.
Qed.

(** X17.  The shape of the display list: it is made of one group per
    message, in the order of the messages.  A progress message and a
    message with string content stand for themselves; a user message
    with an array of N blocks is not split: it stands there whole, N
    times; an assistant message with an array of N blocks gives N
    pieces, the i-th holding the i-th block alone with the id, model and
    duration of the message and without its API-error flag. *)
Theorem normalizeMessages_shape (messages : list Message) (drawn : nat) :
  exists groups,
    normalizeMessages randomUUID drawn messages = concat groups
    /\ Forall2 standsFor messages groups.
Proof.
  revert drawn. induction messages as [|message messages IH]; intros drawn.
  - exists []. split; [done|constructor].
  - destruct (IH (drawn + draws message)%nat) as (groups & Heq & Hall).
    exists (normalizeMessage randomUUID drawn message :: groups).
    split; [simpl; by rewrite Heq|].
    constructor; [apply normalizeMessage_standsFor|exact Hall].
Qed.

End Properties.
End DisplayMoreSpec.

(** ** One tool use and the serial path (src/query.ts) *)

Module PipelineSpec.
Import Msg Query Pipeline.
Import Permissions (PermissionResult, Granted, Refused).

(** *** Slices of a string *)

Lemma substring_none (s : string) : substring 0 0 s = EmptyString.
Proof. by destruct s. Qed.

Lemma substring_all (s : string) : substring 0 (String.length s) s = s.
Proof. induction s as [|c s IH]; simpl; [done|by rewrite IH]. Qed.

Lemma substring_length (s : string) (n m : nat) :
  n + m <= String.length s -> String.length (substring n m s) = m.
Proof.
  revert n m. induction s as [|c s IH]; intros n m Hbound; simpl in Hbound.
  - assert (n = 0 /\ m = 0) as [-> ->] by lia. done.
  - destruct n as [|n]; destruct m as [|m]; simpl.
    + done.
    + rewrite IH; [done|lia].
    + rewrite IH; [done|lia].
    + rewrite IH; [done|lia].
Qed.

Lemma substring_cut (s : string) (n : nat) :
  n <= String.length s ->
  substring 0 n s +:+ substring n (String.length s - n) s = s.
Proof.
  revert n. induction s as [|c s IH]; intros n Hbound; simpl in Hbound.
  - assert (n = 0) as -> by lia. done.
  - destruct n as [|n].
    + rewrite substring_none.
      change (String.length (String c s) - 0) with (S (String.length s)).
      change (substring 0 (S (String.length s)) (String c s))
        with (String c (substring 0 (String.length s) s)).
      by rewrite substring_all.
    + change (substring 0 (S n) (String c s))
        with (String c (substring 0 n s)).
      change (substring (S n) (String.length (String c s) - S n) (String c s))
        with (substring n (String.length s - n) s).
      change (String c (substring 0 n s
                          +:+ substring n (String.length s - n) s)
              = String c s).
      f_equal. apply IH. lia.
Qed.

Lemma substring_drop (s : string) (k n m : nat) :
  k <= String.length s ->
  substring n m (substring k (String.length s - k) s)
  = substring (k + n) m s.
Proof.
  revert k. induction s as [|c s IH]; intros k Hbound; simpl in Hbound.
  - assert (k = 0) as -> by lia. done.
  - destruct k as [|k].
    + change (String.length (String c s) - 0)
        with (String.length (String c s)).
      by rewrite substring_all.
    + change (substring (S k) (String.length (String c s) - S k)
                (String c s))
        with (substring k (String.length s - k) s).
      change (substring (S k + n) m (String c s))
        with (substring (k + n) m s).
      apply IH. lia.
Qed.

(** A string longer than [2 * h] is its first [h] characters, a middle
    part, and its last [h] characters. *)
Lemma three_parts (s : string) (h : nat) :
  2 * h <= String.length s ->
  exists omitted,
    s = substring 0 h s +:+ omitted
          +:+ substring (String.length s - h) h s
    /\ String.length omitted = String.length s - 2 * h.
Proof.
  intros Hlong.
  set (rest := substring h (String.length s - h) s).
  assert (String.length rest = String.length s - h) as Hrest.
  { apply substring_length. lia. }
  exists (substring 0 (String.length s - 2 * h) rest). split.
  - rewrite <- (substring_cut s h) at 1 by lia. fold rest. f_equal.
    rewrite <- (substring_cut rest (String.length s - 2 * h)) at 1
      by lia.
    f_equal. rewrite Hrest. unfold rest.
    replace (String.length s - h - (String.length s - 2 * h)) with h by lia.
    rewrite substring_drop by lia. f_equal. lia.
  - apply substring_length. lia.
Qed.

Lemma limits : MAX_ERROR_LENGTH = 2 * halfLength.
Proof. by vm_compute. Qed.

(** X18.  [formatError] on an [Error]: a text of at most 10000 characters
    is passed on whole; a longer one keeps its first 5000 and its last
    5000 characters and replaces what lies between by a marker that
    states how many characters were left out. *)
Theorem formatError_truncates_middle (message : string)
    (stderr stdout : option string) :
  let full := fullMessage message stderr stdout in
  let shown := formatError (ErrorValue message stderr stdout) in
  (String.length full <= MAX_ERROR_LENGTH -> shown = full)
  /\ (MAX_ERROR_LENGTH < String.length full ->
      exists head omitted tail,
        full = head +:+ omitted +:+ tail
        /\ shown
           = head +:+ truncationMarker (String.length omitted) +:+ tail
        /\ String.length head = halfLength
        /\ String.length tail = halfLength).
Proof.
  intros full shown. subst shown. unfold formatError. fold full.
  pose proof limits as Hlimits.
  destruct (Nat.leb_spec (String.length full) MAX_ERROR_LENGTH)
    as [Hshort|Hlong].
  - split; [done|]. intros Hlong. lia.
  - split; [intros Hshort; lia|]. intros _.
    destruct (three_parts full halfLength) as (omitted & Hfull & Homitted);
      [lia|].
    exists (substring 0 halfLength full), omitted,
      (substring (String.length full - halfLength) halfLength full).
    split; [exact Hfull|]. split.
    + do 3 f_equal. lia.
    + split; apply substring_length; lia.
Qed.

Section Runs.

Variable tools : list Tool.
Variable siblingToolUseIDs : gset string.
Variable shouldSkipPermissionCheck : bool.

Implicit Types (run : ToolRun) (events : list ToolEvent)
  (failure closeFailure : option ToolFailure) (id name input : string)
  (closes : bool).

Lemma errorResult_facts id uuid content :
  isResultOf id (errorResult uuid id content)
  /\ isErrorResult (errorResult uuid id content).
Proof. split; simpl; by eexists _, _. Qed.

Lemma OneRun_error id closes uuid content :
  OneRun id closes [errorResult uuid id content].
Proof.
  exists [], [errorResult uuid id content]. split; [done|].
  split; [constructor|]. right. left. eexists. split; [done|].
  apply errorResult_facts.
Qed.

Lemma OneRun_nothing id closes : OneRun id closes [].
Proof. exists [], []. split; [done|]. split; [constructor|by left]. Qed.

Lemma OneRun_caught id closes uuid failure :
  OneRun id closes (caught uuid id failure).
Proof.
  destruct failure; [apply OneRun_error|apply OneRun_nothing].
Qed.

Lemma callTool_OneRun id uuid drawn events failure closeFailure :
  OneRun id (bool_decide (closeFailure = None))
    (callTool id siblingToolUseIDs uuid drawn events failure closeFailure).
Proof.
  revert drawn. induction events as [|event events IH]; intros drawn.
  - apply OneRun_caught.
  - destruct event as [data resultForAssistant|content].
    + exists [], (callTool id siblingToolUseIDs uuid drawn
                   (ResultEvent data resultForAssistant :: events) failure
                   closeFailure).
      split; [done|]. split; [constructor|]. right.
      assert (isResultOf id
                (User (createUserMessage (uuid drawn)
                         (Blocks [ToolResultBlock id resultForAssistant
                                    false])
                         (Some data)))) as Hresult.
      { simpl. by eexists _, _. }
      destruct closeFailure as [error|]; simpl.
      * right. split; [done|]. eexists _, _. split; [done|].
        split; [exact Hresult|]. apply errorResult_facts.
      * left. by eexists.
    + destruct (IH (S drawn)) as (progress & terminal & Heq & Hall & Hend).
      exists (Progress (createProgressMessage (uuid drawn) id
                          siblingToolUseIDs content) :: progress), terminal.
      split; [simpl; by rewrite Heq|]. split; [|done].
      constructor; [done|exact Hall].
Qed.

Lemma runToolUse_OneRun run id name input :
  OneRun id (closesQuietly run)
    (runToolUse tools siblingToolUseIDs shouldSkipPermissionCheck
       run (ToolUseBlock id name input)).
Proof.
  unfold runToolUse.
  destruct (findTool tools _); [|apply OneRun_error].
  destruct (aborted run); [apply OneRun_error|].
  unfold checkPermissionsAndCallTool.
  destruct (inputValidation run); [apply OneRun_error|].
  destruct (validateInput run) as [[message|]|error]; simpl;
    [apply OneRun_error| |apply OneRun_nothing].
  destruct (permissionResult shouldSkipPermissionCheck run)
    as [[|message]|error]; simpl;
    [apply callTool_OneRun|apply OneRun_error|apply OneRun_nothing].
Qed.

Lemma collect_progress id (progress : list Message) :
  Forall (isProgressOf id) progress -> collectToolResults progress = [].
Proof.
  induction 1 as [|message progress Hmessage _ IH]; [done|].
  by destruct message.
Qed.

(** The results that a run leaves for the next turn. *)
Lemma collect_OneRun id closes (yielded : list Message) :
  OneRun id closes yielded ->
  collectToolResults yielded = []
  \/ (exists u, collectToolResults yielded = [u] /\ isResultOf id (User u))
  \/ (closes = false
      /\ exists u e,
           collectToolResults yielded = [u; e]
           /\ isResultOf id (User u)
           /\ isResultOf id (User e) /\ isErrorResult (User e)).
Proof.
  intros (progress & terminal & -> & Hall & Hend).
  unfold collectToolResults. rewrite omap_app.
  fold (collectToolResults progress). rewrite (collect_progress id) by done.
  destruct Hend
    as [->|[(message & -> & Hresult)
           |(Hcloses & message & error & -> & Hresult & Herror & Hkind)]].
  - by left.
  - destruct message as [u| |]; try done. right. left. by exists u.
  - destruct message as [u| |]; try done.
    destruct error as [e| |]; try done.
    right. right. split; [done|]. by exists u, e.
Qed.

Lemma collect_callTool id uuid drawn events failure closeFailure :
  collectToolResults
    (callTool id siblingToolUseIDs uuid drawn events failure closeFailure)
  = []
  <-> onlyProgress events = true /\ failure = None.
Proof.
  revert drawn. induction events as [|event events IH]; intros drawn.
  - simpl. destruct failure; simpl; intuition congruence.
  - destruct event as [data resultForAssistant|content]; simpl.
    + intuition congruence.
    + apply IH.
Qed.

(** X19.  Whatever the collaborators answer, one tool use yields progress
    messages tagged with its id and then at most one tool-result message
    for that id, which comes last; only when the tool throws while its
    generator is closed after the result does an error result for the
    same id follow the result. *)
Theorem runToolUse_progress_then_result run id name input :
  exists progress terminal,
    runToolUse tools siblingToolUseIDs shouldSkipPermissionCheck run
      (ToolUseBlock id name input) = progress ++ terminal
    /\ Forall (isProgressOf id) progress
    /\ (terminal = []
        \/ (exists message, terminal = [message] /\ isResultOf id message)
        \/ (closeFailure run <> None
            /\ exists message error,
                 terminal = [message; error]
                 /\ isResultOf id message
                 /\ isResultOf id error /\ isErrorResult error)).
Proof.
  destruct (runToolUse_OneRun run id name input)
    as (progress & terminal & Heq & Hall & Hend).
  exists progress, terminal. split; [done|]. split; [done|].
  destruct Hend as [?|[?|[Hcloses ?]]]; [by left|by right; left|].
  right. right. split; [|done].
  unfold closesQuietly in Hcloses. by apply bool_decide_eq_false in Hcloses.
Qed.

(** X20.  A tool use is left without a tool result in exactly three
    cases, all for a known tool that was not cancelled and whose input
    the schema accepts: the tool's validator throws, or the permission
    callback throws, or the tool's generator ends without a result and
    without throwing.  In every other case one result is recorded,
    exactly one if the tool's generator closes without throwing. *)
Theorem runToolUse_without_result run id name input :
  let results :=
    collectToolResults
      (runToolUse tools siblingToolUseIDs shouldSkipPermissionCheck run
         (ToolUseBlock id name input)) in
  (results = []
   <-> findTool tools (ToolUseBlock id name input) <> None
       /\ aborted run = false
       /\ inputValidation run = None
       /\ (threw (validateInput run)
           \/ validateInput run = Returned None
              /\ threw (permissionResult shouldSkipPermissionCheck run)
           \/ reachesCall shouldSkipPermissionCheck run
              /\ onlyProgress (events run) = true
              /\ failure run = None))
  /\ (results <> [] ->
      exists u rest,
        results = u :: rest /\ isResultOf id (User u)
        /\ (closeFailure run = None -> rest = [])).
Proof.
  intros results. split.
  - subst results. unfold runToolUse, reachesCall.
    destruct (findTool tools _); [|simpl; intuition congruence].
    destruct (aborted run); [simpl; intuition congruence|].
    unfold checkPermissionsAndCallTool.
    destruct (inputValidation run); [simpl; intuition congruence|].
    destruct (validateInput run) as [[message|]|error];
      [simpl; intuition congruence| |simpl; intuition congruence].
    destruct (permissionResult shouldSkipPermissionCheck run)
      as [[|message]|error];
      [|simpl; intuition congruence|simpl; intuition congruence].
    cbn [fst]. rewrite collect_callTool. simpl. intuition congruence.
  - intros Hsome.
    destruct (collect_OneRun id _ _ (runToolUse_OneRun run id name input))
      as [Hnone|[(u & Hone & Hresult)
                |(Hcloses & u & e & Htwo & Hresult & _)]]; [done| |].
    + exists u, []. by split.
    + exists u, [e]. split; [done|]. split; [done|].
      intros Hquiet. unfold closesQuietly in Hcloses.
      by rewrite bool_decide_true in Hcloses.
Qed.

Lemma not_reached run toolUse :
  ~ reachesCall shouldSkipPermissionCheck run ->
  forall events failure closeFailure,
    runToolUse tools siblingToolUseIDs shouldSkipPermissionCheck
      (withCall run events failure closeFailure) toolUse
    = runToolUse tools siblingToolUseIDs shouldSkipPermissionCheck run
        toolUse.
Proof.
  intros Hnot events failure closeFailure. unfold runToolUse.
  destruct toolUse as [| |id name input| |]; try done.
  destruct (findTool tools _); [|done].
  change (aborted (withCall run events failure closeFailure))
    with (aborted run).
  destruct (aborted run) eqn:Haborted; [done|].
  unfold checkPermissionsAndCallTool, permissionResult.
  change (inputValidation (withCall run events failure closeFailure))
    with (inputValidation run).
  change (validateInput (withCall run events failure closeFailure))
    with (validateInput run).
  change (canUseTool (withCall run events failure closeFailure))
    with (canUseTool run).
  change (randomUUID (withCall run events failure closeFailure))
    with (randomUUID run).
  destruct (inputValidation run) eqn:Hschema; [done|].
  destruct (validateInput run) as [[message|]|error] eqn:Hvalid;
    [done| |done].
  destruct (if shouldSkipPermissionCheck then Returned Granted
            else canUseTool run) as [[|message]|error] eqn:Hpermission;
    [|done|done].
  exfalso. apply Hnot. by repeat split.
Qed.

Lemma not_reached_errors run toolUse :
  ~ reachesCall shouldSkipPermissionCheck run ->
  Forall isErrorResult
    (runToolUse tools siblingToolUseIDs shouldSkipPermissionCheck run
       toolUse).
Proof.
  intros Hnot. unfold runToolUse.
  destruct toolUse as [| |id name input| |]; try by constructor.
  assert (forall uuid content,
            Forall isErrorResult [errorResult uuid id content]) as Herror.
  { intros uuid content. repeat constructor. apply errorResult_facts. }
  destruct (findTool tools _); [|apply Herror].
  destruct (aborted run) eqn:Haborted; [apply Herror|].
  unfold checkPermissionsAndCallTool.
  destruct (inputValidation run) eqn:Hschema; [apply Herror|].
  destruct (validateInput run) as [[message|]|error] eqn:Hvalid;
    [apply Herror| |by constructor].
  destruct (permissionResult shouldSkipPermissionCheck run)
    as [[|message]|error] eqn:Hpermission;
    [|apply Herror|by constructor].
  exfalso. apply Hnot. by repeat split.
Qed.

(** X21.  Unless the run is cleared to call the tool (not cancelled,
    input accepted by schema and validator, permission granted or not
    asked for), the tool's own code has no influence on what is yielded:
    the run yields the same messages whatever the tool would have done,
    and every message it yields is an error result. *)
Theorem tool_not_called_unless_cleared run toolUse events failure
    closeFailure :
  ~ reachesCall shouldSkipPermissionCheck run ->
  runToolUse tools siblingToolUseIDs shouldSkipPermissionCheck
    (withCall run events failure closeFailure) toolUse
  = runToolUse tools siblingToolUseIDs shouldSkipPermissionCheck run toolUse
  /\ Forall isErrorResult
       (runToolUse tools siblingToolUseIDs shouldSkipPermissionCheck run
          toolUse).
Proof.
  intros Hnot. split; [by apply not_reached|by apply not_reached_errors].
Qed.

End Runs.

Lemma isResultOf_facts id (u : UserMessage) :
  isResultOf id (User u) -> resultId u = Some id /\ holdsToolResult u.
Proof.
  simpl. intros (content & is_error & Hcontent). unfold resultId.
  rewrite Hcontent. split; [done|]. by exists id, content, is_error, [].
Qed.

Lemma collect_app (first rest : list Message) :
  collectToolResults (first ++ rest)
  = collectToolResults first ++ collectToolResults rest.
Proof. apply omap_app. Qed.

Section Serial.

Variable tools : list Tool.
Variable siblingToolUseIDs : gset string.
Variable shouldSkipPermissionCheck : bool.
Variable runs : ContentBlock -> ToolRun.

(** Every user message that the serial path yields is a tool result. *)
Lemma serial_holds (toolUses : list ContentBlock) :
  Forall holdsToolResult
    (collectToolResults
       (runToolsSerially
          (λ toolUse, runToolUse tools siblingToolUseIDs
                        shouldSkipPermissionCheck (runs toolUse) toolUse)
          toolUses)).
Proof.
  unfold runToolsSerially.
  induction toolUses as [|toolUse toolUses IH]; [constructor|].
  rewrite fmap_cons, concat_cons, collect_app. apply Forall_app.
  split; [|exact IH].
  destruct toolUse as [| |id name input| |]; try by constructor.
  destruct (collect_OneRun id _ _
              (runToolUse_OneRun tools siblingToolUseIDs
                 shouldSkipPermissionCheck
                 (runs (ToolUseBlock id name input)) id name input))
    as [->|[(u & -> & Hu)|(_ & u & e & -> & Hu & He & _)]].
  - constructor.
  - apply isResultOf_facts in Hu as [_ Hu]. by repeat constructor.
  - apply isResultOf_facts in Hu as [_ Hu].
    apply isResultOf_facts in He as [_ He]. by repeat constructor.
Qed.

Lemma serial_answers (toolUses : list ContentBlock) :
  (forall toolUse, closeFailure (runs toolUse) = None) ->
  exists answered,
    answered `sublist_of` toolUses
    /\ Forall2 answers
         (collectToolResults
            (runToolsSerially
               (λ toolUse, runToolUse tools siblingToolUseIDs
                             shouldSkipPermissionCheck (runs toolUse) toolUse)
               toolUses))
         answered.
Proof.
  intros Hquiet. unfold runToolsSerially.
  induction toolUses as [|toolUse toolUses (answered & Hsub & Hall)].
  - exists []. split; [done|constructor].
  - rewrite fmap_cons, concat_cons, collect_app.
    destruct toolUse as [| |id name input| |];
      try (exists answered; split; [by apply sublist_cons|exact Hall]).
    pose proof (runToolUse_OneRun tools siblingToolUseIDs
                  shouldSkipPermissionCheck
                  (runs (ToolUseBlock id name input)) id name input)
      as Hrun.
    unfold closesQuietly in Hrun.
    rewrite bool_decide_true in Hrun by apply Hquiet.
    destruct (collect_OneRun id _ _ Hrun)
      as [->|[(u & -> & Hu)|(Hcloses & _)]]; [| |done].
    + exists answered. split; [by apply sublist_cons|exact Hall].
    + apply isResultOf_facts in Hu as [Hid _].
      exists (ToolUseBlock id name input :: answered).
      split; [by apply sublist_skip|].
      constructor; [|exact Hall]. by exists id.
Qed.

End Serial.

(** X22.  On the serial path, when no tool throws while its generator is
    closed, the results collected for the next turn are already in
    request order: they answer, one for one and in order, a subsequence
    of the turn's tool-use requests, and the transcript of the next turn
    lists them in that order. *)
Theorem serial_results_follow_requests (tools : list Tool)
    (shouldSkipPermissionCheck : bool) (runs : ContentBlock -> ToolRun)
    (messages : list Message) (assistantMessage : AssistantMessage) :
  (forall toolUse, closeFailure (runs toolUse) = None) ->
  let toolUses := toolUseMessages assistantMessage in
  let results :=
    collectToolResults
      (runToolsSerially
         (toolUseGenerator tools toolUses shouldSkipPermissionCheck runs)
         toolUses) in
  (exists answered,
     answered `sublist_of` toolUses /\ Forall2 answers results answered)
  /\ nextTranscript messages assistantMessage results
     = messages ++ [Assistant assistantMessage] ++ (User <$> results).
Proof.
  intros Hquiet toolUses results.
  split.
  { apply (serial_answers tools (siblings toolUses)
             shouldSkipPermissionCheck runs toolUses Hquiet). }
  unfold nextTranscript. fold toolUses.
  rewrite QuerySpec.orderedToolResults_keeps_order; [done| |].
  - unfold toolUses, toolUseMessages.
    destruct (assistant_content assistantMessage); [constructor|].
    apply Forall_forall. intros block Hin.
    apply list_elem_of_In, filter_In in Hin. tauto.
  - apply (serial_holds tools (siblings toolUses)
             shouldSkipPermissionCheck runs toolUses).
Qed.

(** The refused demo run never reaches the tool, so the tool's behaviour
    is immaterial. *)
Lemma tool_not_called_unless_cleared_witness :
  ~ reachesCall false refused
  /\ (runToolUse catalog ∅ false (withCall refused [] None None) useC
      = runToolUse catalog ∅ false refused useC
      /\ Forall isErrorResult (runToolUse catalog ∅ false refused useC)).
Proof.
  assert (~ reachesCall false refused) as Hnot.
  { intros (_ & _ & _ & Hgranted). discriminate Hgranted. }
  split; [exact Hnot|].
  exact (tool_not_called_unless_cleared catalog ∅ false refused useC []
           None None Hnot).
Defined.

(** The turn of the two demo requests, both granted. *)
Lemma serial_results_follow_requests_witness :
  (forall toolUse : ContentBlock, closeFailure granted = None)
  /\ (let toolUses := toolUseMessages turnAB in
      let results :=
        collectToolResults
          (runToolsSerially
             (toolUseGenerator catalog toolUses false (λ _, granted))
             toolUses) in
      (exists answered,
         answered `sublist_of` toolUses /\ Forall2 answers results answered)
      /\ nextTranscript [] turnAB results
         = [] ++ [Assistant turnAB] ++ (User <$> results)).
Proof.
  split; [intros _; reflexivity|].
  exact (serial_results_follow_requests catalog false (λ _, granted) []
           turnAB (λ _, eq_refl)).
Defined.

End PipelineSpec.

(** ** Reordering for display (src/utils/messages.tsx) *)

Module ReorderSpec.
Import Msg Wire Reorder.

Lemma run_snoc (messages : list Obj) (message : Obj) :
  run (messages ++ [message]) = visit (run messages) message.
Proof. unfold run. by rewrite fold_left_app. Qed.

Lemma found {A : Type} (p : A -> bool) (l : list A) (x : A) :
  List.find p l = Some x -> x ∈ l /\ p x = true.
Proof.
  intros Hfind. apply find_some in Hfind as [Hin Hp].
  split; [by apply list_elem_of_In|done].
Qed.

Lemma not_found {A : Type} (p : A -> bool) (l : list A) :
  List.find p l = None <-> forall x, x ∈ l -> p x = false.
Proof.
  split.
  - intros Hfind x Hin. apply (find_none _ _ Hfind). by apply list_elem_of_In.
  - intros Hall. destruct (List.find p l) as [x|] eqn:Hfind; [|done].
    apply found in Hfind as [Hin Hp]. rewrite (Hall x Hin) in Hp. done.
Qed.

Lemma consistent_subset (small large : list Obj) :
  (forall o, o ∈ small -> o ∈ large) -> consistent large -> consistent small.
Proof. intros Hsub Hlarge o o' Ho Ho'. apply Hlarge; by apply Hsub. Qed.

Lemma distinct_consistent (messages : list Obj) :
  NoDup (addr <$> messages) -> consistent messages.
Proof.
  induction messages as [|m messages IH]; intros Hdistinct o o' Ho Ho' Haddr.
  - by apply elem_of_nil in Ho.
  - rewrite fmap_cons in Hdistinct. apply NoDup_cons in Hdistinct as [Hm Hrest].
    apply elem_of_cons in Ho as [->|Ho];
      apply elem_of_cons in Ho' as [->|Ho'].
    + done.
    + exfalso. apply Hm. rewrite Haddr. by apply list_elem_of_fmap_2.
    + exfalso. apply Hm. rewrite <- Haddr. by apply list_elem_of_fmap_2.
    + by apply IH.
Qed.

Lemma indexOf_elem (ms : list Obj) (e : Obj) :
  consistent ms -> e ∈ ms ->
  exists i, indexOf (addr e) ms = Some i /\ ms !! i = Some e.
Proof.
  induction ms as [|o ms IH]; intros Hcons Hin.
  - by apply elem_of_nil in Hin.
  - simpl. case_bool_decide as Haddr.
    + exists 0%nat. split; [done|]. simpl. f_equal.
      apply Hcons; [apply elem_of_cons; by left|done|done].
    + apply elem_of_cons in Hin as [->|Hin]; [done|].
      destruct IH as (i & Hindex & Hlookup); [|done|].
      { eapply consistent_subset; [|exact Hcons].
        intros x Hx. apply elem_of_cons. by right. }
      exists (S i). rewrite Hindex. done.
Qed.

Lemma replaceWith_split (ms : list Obj) (e m : Obj) :
  consistent ms -> e ∈ ms ->
  exists before after,
    ms = before ++ e :: after /\ replaceWith e m ms = before ++ m :: after.
Proof.
  intros Hcons Hin.
  destruct (indexOf_elem ms e Hcons Hin) as (i & Hindex & Hlookup).
  exists (take i ms), (drop (S i) ms). split.
  - by rewrite take_drop_middle.
  - unfold replaceWith. rewrite Hindex. apply insert_take_drop.
    by apply lookup_lt_Some in Hlookup.
Qed.

Lemma replaceWith_elem (ms : list Obj) (e m o : Obj) :
  o ∈ replaceWith e m ms -> o = m \/ o ∈ ms.
Proof.
  unfold replaceWith. destruct (indexOf (addr e) ms) as [i|]; [|by right].
  intros Hin. apply list_elem_of_lookup in Hin as [j Hj].
  destruct (decide (i = j)) as [->|Hne].
  - destruct (decide (j < length ms)%nat) as [Hlt|Hge].
    + rewrite list_lookup_insert_eq in Hj by done. left. congruence.
    + rewrite list_insert_ge in Hj by lia. right.
      by apply list_elem_of_lookup_2 in Hj.
  - rewrite list_lookup_insert_ne in Hj by done. right.
    by apply list_elem_of_lookup_2 in Hj.
Qed.

Lemma insertAfter_split (ms : list Obj) (object m : Obj) :
  exists before after,
    ms = before ++ after /\ insertAfter object m ms = before ++ m :: after.
Proof.
  unfold insertAfter.
  set (position := match indexOf (addr object) ms with
                   | Some i => S i
                   | None => 0%nat
                   end).
  exists (take position ms), (drop position ms).
  split; [by rewrite take_drop|done].
Qed.

Lemma toolUseMessages_visit (state : State) (message : Obj) :
  toolUseMessages (visit state message)
  = toolUseMessages state
      ++ (if isToolUseRequestMessage (val message) then [message] else []).
Proof.
  unfold visit.
  assert ((if isToolUseRequestMessage (val message)
           then toolUseMessages state ++ [message]
           else toolUseMessages state)
          = toolUseMessages state
              ++ (if isToolUseRequestMessage (val message)
                  then [message] else [])) as ->.
  { destruct (isToolUseRequestMessage (val message));
      [done|by rewrite app_nil_r]. }
  destruct (placeProgress _ _ _); [done|].
  destruct (toolResultId _); [|done].
  destruct (List.find _ (ms state)); [done|].
  by destruct (List.find _ _).
Qed.

Lemma toolResult_is_user (message : Message) (id : string) :
  toolResultId message = Some id ->
  isToolUseRequestMessage message = false /\ isProgress message = false.
Proof. by destruct message. Qed.

Lemma visit_Step (state : State) (message : Obj) :
  consistent (ms state) -> Step state message (ms (visit state message)).
Proof.
  intros Hcons. unfold visit.
  destruct (placeProgress _ _ _) as [ms'|] eqn:Hplace.
  - unfold placeProgress in Hplace.
    destruct (val message) as [| |p] eqn:Hval; try done.
    destruct (List.find (progressFor (toolUseID p)) (ms state))
      as [existing|] eqn:Hfind.
    + injection Hplace as <-. apply found in Hfind as [Hin Hfor].
      destruct (replaceWith_split (ms state) existing message Hcons Hin)
        as (before & after & Hms & Hreplaced).
      by eapply (Replaced _ _ _ p existing before after).
    + destruct (List.find (requests (toolUseID p)) _) as [toolUseMessage|];
        [|done].
      injection Hplace as <-.
      destruct (insertAfter_split (ms state) toolUseMessage message)
        as (before & after & Hms & Hinserted).
      eapply (Placed _ _ _ before after); [done|done| |].
      * intros p' Hp'. rewrite Hval in Hp'. by injection Hp' as <-.
      * unfold plain. by rewrite Hval.
  - assert (forall p, val message = Progress p ->
              List.find (progressFor (toolUseID p)) (ms state) = None)
      as Hfresh.
    { intros p Hval. unfold placeProgress in Hplace. rewrite Hval in Hplace.
      by destruct (List.find (progressFor (toolUseID p)) (ms state)). }
    destruct (toolResultId (val message)) as [id|] eqn:Hid.
    + destruct (toolResult_is_user _ _ Hid) as [Hrequest Hprogress].
      rewrite Hrequest.
      destruct (List.find (progressFor id) (ms state))
        as [lastProgressMessage|] eqn:Hlast.
      * destruct (insertAfter_split (ms state) lastProgressMessage message)
          as (before & after & Hms & Hinserted).
        eapply (Placed _ _ _ before after); [done|done|done|].
        unfold plain. rewrite Hid. rewrite bool_decide_true by done.
        by rewrite andb_false_r.
      * destruct (List.find (requests id) (toolUseMessages state))
          as [toolUseMessage|] eqn:Hrequested.
        -- destruct (insertAfter_split (ms state) toolUseMessage message)
             as (before & after & Hms & Hinserted).
           eapply (Placed _ _ _ before after); [done|done|done|].
           unfold plain. rewrite Hid. rewrite bool_decide_true by done.
           by rewrite andb_false_r.
        -- by eapply (Dropped _ _ _ id).
    + by eapply (Placed _ _ _ (ms state) []); [by rewrite app_nil_r|..].
Qed.

(** What [ms] holds comes from the messages handled so far. *)
Lemma visit_elem (state : State) (message o : Obj) :
  o ∈ ms (visit state message) -> o = message \/ o ∈ ms state.
Proof.
  unfold visit.
  assert (forall object, o ∈ insertAfter object message (ms state) ->
            o = message \/ o ∈ ms state) as Hinsert.
  { intros object.
    destruct (insertAfter_split (ms state) object message)
      as (before & after & -> & ->).
    rewrite !elem_of_app, elem_of_cons. tauto. }
  destruct (placeProgress _ _ _) as [ms'|] eqn:Hplace.
  - unfold placeProgress in Hplace.
    destruct (val message) as [| |p]; try done.
    destruct (List.find (progressFor (toolUseID p)) (ms state)).
    + injection Hplace as <-. apply replaceWith_elem.
    + destruct (List.find _ _); [|done]. injection Hplace as <-.
      apply Hinsert.
  - destruct (toolResultId (val message)).
    + destruct (List.find _ (ms state)); [apply Hinsert|].
      destruct (List.find _ _); [apply Hinsert|]. simpl. by right.
    + simpl. rewrite elem_of_app, list_elem_of_singleton. tauto.
Qed.

Lemma fold_visit_elem (messages : list Obj) (state : State) (o : Obj) :
  o ∈ ms (fold_left visit messages state) -> o ∈ messages \/ o ∈ ms state.
Proof.
  revert state. induction messages as [|m messages IH]; intros state Hin.
  - by right.
  - cbn [fold_left] in Hin. apply IH in Hin as [Hin|Hin].
    + left. apply elem_of_cons. by right.
    + apply visit_elem in Hin as [->|Hin]; [left; apply elem_of_cons|];
        tauto.
Qed.

Lemma run_elem (messages : list Obj) (o : Obj) :
  o ∈ ms (run messages) -> o ∈ messages.
Proof.
  intros Hin. apply fold_visit_elem in Hin as [Hin|Hin]; [done|].
  by apply elem_of_nil in Hin.
Qed.

Lemma run_consistent (messages : list Obj) :
  consistent messages -> consistent (ms (run messages)).
Proof. apply consistent_subset. apply run_elem. Qed.

Lemma prefix_consistent (before after : list Obj) :
  consistent (before ++ after) -> consistent before.
Proof.
  apply consistent_subset. intros o Ho. apply elem_of_app. by left.
Qed.

Lemma visit_length (state : State) (message : Obj) :
  (length (ms (visit state message)) <= S (length (ms state)))%nat.
Proof.
  unfold visit.
  assert (forall object,
            length (insertAfter object message (ms state))
            = S (length (ms state))) as Hinsert.
  { intros object.
    destruct (insertAfter_split (ms state) object message)
      as (before & after & -> & ->).
    rewrite !length_app. simpl. lia. }
  destruct (placeProgress _ _ _) as [ms'|] eqn:Hplace.
  - unfold placeProgress in Hplace.
    destruct (val message) as [| |p]; try done.
    destruct (List.find (progressFor (toolUseID p)) (ms state)) as [e|].
    + injection Hplace as <-. unfold replaceWith.
      destruct (indexOf _ _); simpl; [rewrite length_insert|]; lia.
    + destruct (List.find _ _); [|done]. injection Hplace as <-.
      simpl. rewrite Hinsert. lia.
  - destruct (toolResultId (val message)).
    + destruct (List.find _ (ms state)); [simpl; rewrite Hinsert; lia|].
      destruct (List.find _ _); simpl; [rewrite Hinsert; lia|lia].
    + simpl. rewrite length_app. simpl. lia.
Qed.

(** X23.  Reordering invents nothing: every message object of the result
    is one of the given objects, and the result is no longer than the
    input. *)
Theorem reorderMessages_invents_nothing (messages : list Obj) :
  (forall o, o ∈ reorderMessages messages -> o ∈ messages)
  /\ (length (reorderMessages messages) <= length messages)%nat.
Proof.
  split; [intros o; apply run_elem|].
  unfold reorderMessages.
  induction messages as [|m messages IH] using rev_ind; [done|].
  rewrite run_snoc, length_app. simpl.
  pose proof (visit_length (run messages) m). lia.
Qed.

Lemma progressFor_id (id : string) (o : Obj) :
  progressFor id o = true <-> progressId o = Some id.
Proof.
  unfold progressFor, progressId. destruct (val o) as [| |p].
  - split; done.
  - split; done.
  - rewrite bool_decide_eq_true. split; congruence.
Qed.

Lemma progressFor_not_plain (id : string) (o : Obj) :
  progressFor id o = true -> plain o = false.
Proof. unfold progressFor, plain. by destruct (val o). Qed.

Lemma visit_plain (state : State) (message : Obj) :
  consistent (ms state) ->
  List.filter plain (ms (visit state message))
  = List.filter plain (ms state) ++ (if plain message then [message] else []).
Proof.
  intros Hcons.
  destruct (visit_Step state message Hcons)
    as [before after Hms -> _ Hend|id -> Hid _ _
       |p existing before after Hval Hfor Hms ->].
  - rewrite Hms, !List.filter_app. simpl.
    destruct (plain message) eqn:Hplain.
    + rewrite (Hend eq_refl). simpl. by rewrite app_nil_r.
    + by rewrite app_nil_r.
  - assert (plain message = false) as ->.
    { unfold plain. rewrite Hid. rewrite bool_decide_true by done.
      by rewrite andb_false_r. }
    by rewrite app_nil_r.
  - assert (plain message = false) as Hmessage.
    { unfold plain. by rewrite Hval. }
    rewrite Hms, !List.filter_app. simpl.
    rewrite (progressFor_not_plain _ _ Hfor), Hmessage.
    by rewrite app_nil_r.
Qed.

(** X24.  Messages that are neither progress messages nor tool results
    are all kept, in their order. *)
Theorem reorderMessages_keeps_plain (messages : list Obj) :
  consistent messages ->
  List.filter plain (reorderMessages messages) = List.filter plain messages.
Proof.
  unfold reorderMessages.
  induction messages as [|m messages IH] using rev_ind; intros Hcons.
  - done.
  - pose proof (prefix_consistent _ _ Hcons) as Hprefix.
    rewrite run_snoc, visit_plain by by apply run_consistent.
    rewrite IH by done. rewrite List.filter_app. simpl.
    by destruct (plain m).
Qed.

Lemma omap_cons_some {A B : Type} (f : A -> option B) (x : A) (y : B)
    (l : list A) :
  f x = Some y -> omap f (x :: l) = y :: omap f l.
Proof. intros Hx. simpl. by rewrite Hx. Qed.

Lemma absent_id (id : string) (ms : list Obj) :
  List.find (progressFor id) ms = None -> id ∉ omap progressId ms.
Proof.
  intros Hfind Hin. apply list_elem_of_omap in Hin as (o & Ho & Hid).
  apply progressFor_id in Hid.
  rewrite (proj1 (not_found _ _) Hfind o Ho) in Hid. done.
Qed.

Lemma visit_Latest (handled : list Obj) (state : State) (message : Obj) :
  consistent (ms state) ->
  Latest handled (ms state) ->
  Latest (handled ++ [message]) (ms (visit state message)).
Proof.
  intros Hcons [Hnodup Hlast].
  assert (forall o id,
            o ∈ ms state -> progressId o = Some id ->
            progressFor id message = false ->
            last (List.filter (progressFor id) (handled ++ [message]))
            = Some o) as Hkept.
  { intros o id Ho Hid Hother. rewrite List.filter_app. simpl.
    rewrite Hother, app_nil_r. by apply Hlast. }
  assert (forall id,
            progressId message = Some id ->
            last (List.filter (progressFor id) (handled ++ [message]))
            = Some message) as Hnew.
  { intros id Hid. apply progressFor_id in Hid. rewrite List.filter_app. simpl.
    rewrite Hid. apply last_snoc. }
  destruct (visit_Step state message Hcons)
    as [before after Hms -> Hfresh _|id -> Hid _ _
       |p existing before after Hval Hfor Hms ->].
  - split.
    + rewrite omap_app. simpl.
      destruct (progressId message) as [id|] eqn:Hid.
      * apply NoDup_app. rewrite Hms, omap_app in Hnodup.
        apply NoDup_app in Hnodup as (Hbefore & Hsep & Hafter).
        assert (id ∉ omap progressId (ms state)) as Habsent.
        { apply absent_id. unfold progressId in Hid.
          destruct (val message) as [| |p] eqn:Hval; try done.
          injection Hid as <-. by apply Hfresh. }
        rewrite Hms, omap_app, elem_of_app in Habsent.
        split; [done|]. split.
        -- intros x Hx. rewrite elem_of_cons. intros [->|Hx'];
             [tauto|by apply (Hsep x)].
        -- apply NoDup_cons. split; [tauto|done].
      * by rewrite Hms, omap_app in Hnodup.
    + intros o id Ho Hid.
      assert (o = message \/ o ∈ ms state) as [->|Hin].
      { rewrite elem_of_app, elem_of_cons in Ho. rewrite Hms, elem_of_app.
        tauto. }
      { by apply Hnew. }
      apply Hkept; [done|done|].
      destruct (progressFor id message) eqn:Hsame; [|done].
      exfalso. unfold progressFor in Hsame.
      destruct (val message) as [| |p] eqn:Hval; try done.
      apply bool_decide_eq_true in Hsame. subst id.
      apply progressFor_id in Hid.
      rewrite (proj1 (not_found _ _) (Hfresh p eq_refl) o Hin) in Hid. done.
  - split; [done|]. intros o id' Ho Hid'. apply Hkept; [done|done|].
    unfold progressFor. by destruct (val message).
  - assert (progressId message = Some (toolUseID p)) as Hmid.
    { unfold progressId. by rewrite Hval. }
    assert (progressId existing = Some (toolUseID p)) as Heid.
    { by apply progressFor_id. }
    split.
    + rewrite Hms, omap_app, (omap_cons_some _ _ _ _ Heid) in Hnodup.
      by rewrite omap_app, (omap_cons_some _ _ _ _ Hmid).
    + intros o id Ho Hid.
      assert (o = message \/ o ∈ before \/ o ∈ after) as [->|Hside].
      { rewrite elem_of_app, elem_of_cons in Ho. tauto. }
      { by apply Hnew. }
      assert (o ∈ ms state) as Hin.
      { rewrite Hms, elem_of_app, elem_of_cons. tauto. }
      apply Hkept; [done|done|].
      destruct (progressFor id message) eqn:Hsame; [|done].
      exfalso. apply progressFor_id in Hsame.
      assert (id = toolUseID p) as -> by congruence.
      rewrite Hms, omap_app, (omap_cons_some _ _ _ _ Heid) in Hnodup.
      apply NoDup_app in Hnodup as (_ & Hsep & Hafter).
      apply NoDup_cons in Hafter as [Hafter _].
      destruct Hside as [Hside|Hside].
      * apply (Hsep (toolUseID p)).
        -- apply list_elem_of_omap. by exists o.
        -- apply elem_of_cons. by left.
      * apply Hafter. apply list_elem_of_omap. by exists o.
Qed.

Lemma run_Latest (messages : list Obj) :
  consistent messages -> Latest messages (reorderMessages messages).
Proof.
  unfold reorderMessages.
  induction messages as [|m messages IH] using rev_ind; intros Hcons.
  - split; [constructor|]. intros o id Ho. by apply elem_of_nil in Ho.
  - pose proof (prefix_consistent _ _ Hcons) as Hprefix.
    rewrite run_snoc. apply visit_Latest; [by apply run_consistent|].
    by apply IH.
Qed.

(** X25.  The result shows at most one progress message for each tool
    use. *)
Theorem reorderMessages_one_progress (messages : list Obj) :
  consistent messages ->
  NoDup (omap progressId (reorderMessages messages)).
Proof. intros Hcons. by destruct (run_Latest messages Hcons). Qed.

(** X26.  The progress message shown for a tool use is the latest one:
    the last progress message for that tool use in the input. *)
Theorem reorderMessages_latest_progress (messages : list Obj) (o : Obj)
    (id : string) :
  consistent messages ->
  o ∈ reorderMessages messages ->
  progressId o = Some id ->
  last (List.filter (progressFor id) messages) = Some o.
Proof.
  intros Hcons Ho Hid.
  destruct (run_Latest messages Hcons) as [_ Hlast]. by apply Hlast.
Qed.

(** *** Tool results *)

Lemma run_toolUseMessages (messages : list Obj) :
  toolUseMessages (run messages)
  = List.filter (λ o, isToolUseRequestMessage (val o)) messages.
Proof.
  induction messages as [|m messages IH] using rev_ind; [done|].
  rewrite run_snoc, toolUseMessages_visit, IH, List.filter_app. simpl.
  by destruct (isToolUseRequestMessage (val m)).
Qed.

Lemma visit_progress (state : State) (message : Obj) (id : string) :
  consistent (ms state) ->
  (exists o, o ∈ ms state /\ progressFor id o = true)
  \/ progressFor id message = true ->
  exists o, o ∈ ms (visit state message) /\ progressFor id o = true.
Proof.
  intros Hcons Hsome.
  destruct (visit_Step state message Hcons)
    as [before after Hms -> _ _|id' -> Hid' _ _
       |p existing before after Hval Hfor Hms ->].
  - destruct Hsome as [(o & Ho & Hfor)|Hfor].
    + exists o. split; [|done]. rewrite Hms in Ho.
      rewrite elem_of_app in *. rewrite elem_of_cons. tauto.
    + exists message. split; [|done].
      rewrite elem_of_app, elem_of_cons. tauto.
  - destruct Hsome as [Hsome|Hfor]; [done|].
    unfold progressFor in Hfor.
    destruct (toolResult_is_user _ _ Hid') as [_ Hkind].
    by destruct (val message).
  - assert (progressFor (toolUseID p) message = true) as Hmessage.
    { unfold progressFor. rewrite Hval. by apply bool_decide_eq_true. }
    destruct Hsome as [(o & Ho & Ho_for)|Hm_for].
    + rewrite Hms, elem_of_app, elem_of_cons in Ho.
      destruct Ho as [Ho|[->|Ho]].
      * exists o. split; [|done]. rewrite elem_of_app. tauto.
      * exists message. split; [rewrite elem_of_app, elem_of_cons; tauto|].
        apply progressFor_id in Hfor, Ho_for.
        assert (id = toolUseID p) as -> by congruence. done.
      * exists o. split; [|done]. rewrite elem_of_app, elem_of_cons. tauto.
    + exists message. split; [|done].
      rewrite elem_of_app, elem_of_cons. tauto.
Qed.

Lemma run_progress (messages : list Obj) (id : string) (o : Obj) :
  consistent messages ->
  o ∈ messages -> progressFor id o = true ->
  exists o', o' ∈ ms (run messages) /\ progressFor id o' = true.
Proof.
  induction messages as [|m messages IH] using rev_ind;
    intros Hcons Ho Hfor.
  { by apply elem_of_nil in Ho. }
  pose proof (prefix_consistent _ _ Hcons) as Hprefix.
  rewrite run_snoc. apply visit_progress; [by apply run_consistent|].
  apply elem_of_app in Ho as [Ho|Ho].
  - left. by apply IH.
  - apply list_elem_of_singleton in Ho as ->. by right.
Qed.

Lemma visit_keeps (state : State) (message o : Obj) :
  consistent (ms state) ->
  o ∈ ms state -> isProgress (val o) = false ->
  o ∈ ms (visit state message).
Proof.
  intros Hcons Ho Hkind.
  destruct (visit_Step state message Hcons)
    as [before after Hms -> _ _|id -> _ _ _
       |p existing before after Hval Hfor Hms ->].
  - rewrite Hms in Ho. rewrite elem_of_app in *. rewrite elem_of_cons.
    tauto.
  - done.
  - rewrite Hms in Ho. rewrite elem_of_app, elem_of_cons in *.
    destruct Ho as [?|[->|?]]; [tauto| |tauto].
    unfold progressFor in Hfor. by destruct (val existing).
Qed.

Lemma fold_visit_keeps (messages : list Obj) (state : State) (o : Obj) :
  consistent (ms state ++ messages) ->
  o ∈ ms state -> isProgress (val o) = false ->
  o ∈ ms (fold_left visit messages state).
Proof.
  revert state. induction messages as [|m messages IH];
    intros state Hcons Ho Hkind; [done|].
  cbn [fold_left]. apply IH; [| |done].
  - eapply consistent_subset; [|exact Hcons].
    intros x Hx. rewrite elem_of_app in Hx. rewrite elem_of_app, elem_of_cons.
    destruct Hx as [Hx|Hx]; [|tauto].
    apply visit_elem in Hx. tauto.
  - apply visit_keeps; [|done|done].
    by apply prefix_consistent in Hcons.
Qed.

Lemma visit_dropped (state : State) (message : Obj) (id : string) :
  toolResultId (val message) = Some id ->
  List.find (progressFor id) (ms state) = None ->
  List.find (requests id) (toolUseMessages state) = None ->
  ms (visit state message) = ms state.
Proof.
  intros Hid Hprogress Hrequest. unfold visit.
  destruct (toolResult_is_user _ _ Hid) as [-> _].
  assert (placeProgress (ms state) (toolUseMessages state) message = None)
    as ->.
  { unfold placeProgress. by destruct (val message). }
  by rewrite Hid, Hprogress, Hrequest.
Qed.

Lemma visit_anchored (state : State) (message : Obj) (id : string) :
  consistent (ms state) ->
  toolResultId (val message) = Some id ->
  List.find (progressFor id) (ms state) <> None
  \/ List.find (requests id) (toolUseMessages state) <> None ->
  message ∈ ms (visit state message).
Proof.
  intros Hcons Hid Hanchor.
  destruct (visit_Step state message Hcons)
    as [before after Hms -> _ _|id' _ Hid' Hprogress Hrequest
       |p existing before after Hval Hfor Hms ->].
  - rewrite elem_of_app, elem_of_cons. tauto.
  - assert (id' = id) as -> by congruence. tauto.
  - rewrite Hval in Hid. done.
Qed.

(** X27.  A tool result is shown exactly when something before it in the
    transcript gives it a place: a progress message for its tool use, or a
    tool-use request whose first block is that tool use.  A tool result
    that arrives with neither before it is dropped. *)
Theorem reorderMessages_tool_result (before after : list Obj) (result : Obj)
    (id : string) :
  NoDup (addr <$> before ++ result :: after) ->
  toolResultId (val result) = Some id ->
  result ∈ reorderMessages (before ++ result :: after)
  <-> exists o, o ∈ before /\ anchors id o = true.
Proof.
  intros Hdistinct Hid.
  pose proof (distinct_consistent _ Hdistinct) as Hcons.
  pose proof (prefix_consistent _ _ Hcons) as Hprefix.
  pose proof (run_consistent _ Hprefix) as Hms.
  destruct (toolResult_is_user _ _ Hid) as [_ Hkind].
  rewrite fmap_app, fmap_cons in Hdistinct.
  apply NoDup_app in Hdistinct as (_ & Hsep & Hrest).
  apply NoDup_cons in Hrest as [Hlater _].
  assert (result ∉ before) as Hnot_before.
  { intros Hin. apply (Hsep (addr result)).
    - by apply list_elem_of_fmap_2.
    - apply elem_of_cons. by left. }
  assert (result ∉ after) as Hnot_after.
  { intros Hin. apply Hlater. by apply list_elem_of_fmap_2. }
  unfold reorderMessages, run. rewrite fold_left_app. cbn [fold_left].
  fold (run before). split.
  - intros Hin.
    destruct (List.find (anchors id) before) as [o|] eqn:Hfind.
    { apply found in Hfind. by exists o. }
    exfalso. pose proof (proj1 (not_found _ _) Hfind) as Hnone.
    apply fold_visit_elem in Hin as [Hin|Hin]; [done|].
    rewrite (visit_dropped _ _ id) in Hin; [|done| |].
    + apply Hnot_before. by apply run_elem.
    + apply not_found. intros o Ho.
      apply run_elem, Hnone in Ho. unfold anchors in Ho.
      by apply orb_false_iff in Ho as [-> _].
    + apply not_found. intros o Ho. rewrite run_toolUseMessages in Ho.
      apply list_elem_of_In, filter_In in Ho as [Ho Hrequest].
      apply list_elem_of_In, Hnone in Ho. unfold anchors in Ho.
      apply orb_false_iff in Ho as [_ Ho]. by rewrite Hrequest in Ho.
  - intros (o & Ho & Hanchor).
    apply fold_visit_keeps; [| |done].
    + eapply consistent_subset; [|exact Hcons].
      intros x Hx. rewrite elem_of_app in Hx.
      rewrite elem_of_app, elem_of_cons.
      destruct Hx as [Hx|Hx]; [|tauto].
      apply visit_elem in Hx as [->|Hx]; [tauto|].
      apply run_elem in Hx. tauto.
    + apply (visit_anchored _ _ id); [done|done|].
      unfold anchors in Hanchor.
      apply orb_true_iff in Hanchor as [Hprogress|Hrequest].
      * left. intros Hnone.
        destruct (run_progress before id o Hprefix Ho Hprogress)
          as (o' & Ho' & Hfor).
        rewrite (proj1 (not_found _ _) Hnone o' Ho') in Hfor. done.
      * right. intros Hnone.
        apply andb_true_iff in Hrequest as [Hkind' Hrequest].
        assert (o ∈ toolUseMessages (run before)) as Hin.
        { rewrite run_toolUseMessages.
          apply list_elem_of_In, filter_In. split; [|done].
          by apply list_elem_of_In. }
        rewrite (proj1 (not_found _ _) Hnone o Hin) in Hrequest. done.
Qed.

(** *** The demo session *)

Lemma session_distinct : NoDup (addr <$> session).
Proof. apply (bool_decide_unpack (NoDup (addr <$> session))). by vm_compute. Qed.

Lemma reorderMessages_keeps_plain_witness :
  consistent session
  /\ List.filter plain (reorderMessages session) = List.filter plain session.
Proof.
  assert (consistent session) as Hcons.
  { apply distinct_consistent, session_distinct. }
  split; [exact Hcons|]. exact (reorderMessages_keeps_plain session Hcons).
Defined.

Lemma reorderMessages_one_progress_witness :
  consistent session /\ NoDup (omap progressId (reorderMessages session)).
Proof.
  assert (consistent session) as Hcons.
  { apply distinct_consistent, session_distinct. }
  split; [exact Hcons|]. exact (reorderMessages_one_progress session Hcons).
Defined.

Lemma reorderMessages_latest_progress_witness :
  consistent session
  /\ working 3 "uuid-3" ∈ reorderMessages session
  /\ progressId (working 3 "uuid-3") = Some "toolu_A"
  /\ last (List.filter (progressFor "toolu_A") session)
     = Some (working 3 "uuid-3").
Proof.
  assert (consistent session) as Hcons.
  { apply distinct_consistent, session_distinct. }
  assert (working 3 "uuid-3" ∈ reorderMessages session) as Hin.
  { vm_compute. do 2 apply list_elem_of_further. apply list_elem_of_here. }
  split; [exact Hcons|]. split; [exact Hin|]. split; [reflexivity|].
  exact (reorderMessages_latest_progress session (working 3 "uuid-3")
           "toolu_A" Hcons Hin eq_refl).
Defined.

Lemma reorderMessages_tool_result_witness :
  NoDup (addr <$> [question; request] ++ answer 4 "toolu_A" :: [])
  /\ toolResultId (val (answer 4 "toolu_A")) = Some "toolu_A"
  /\ (answer 4 "toolu_A"
        ∈ reorderMessages ([question; request] ++ answer 4 "toolu_A" :: [])
      <-> exists o, o ∈ [question; request] /\ anchors "toolu_A" o = true).
Proof.
  assert (NoDup (addr <$> [question; request] ++ answer 4 "toolu_A" :: []))
    as Hdistinct.
  { apply (bool_decide_unpack (NoDup _)). by vm_compute. }
  split; [exact Hdistinct|]. split; [reflexivity|].
  exact (reorderMessages_tool_result [question; request] []
           (answer 4 "toolu_A") "toolu_A" Hdistinct eq_refl).
Defined.

End ReorderSpec.

(** ** Open tool uses (src/utils/messages.tsx) *)

Module ToolUseIDsSpec.
Import Msg ToolUseIDs.

Section Properties.

Variable inherited : gset string.

Implicit Types (id : string) (messages : list Message).

Lemma newSet_from (set values : list string) (x : string) :
  x ∈ fold_left (λ set value, if bool_decide (value ∈ set) then set
                               else set ++ [value]) values set
  <-> x ∈ set \/ x ∈ values.
Proof.
  revert set. induction values as [|value values IH]; intros set.
  - cbn [fold_left]. rewrite elem_of_nil. tauto.
  - cbn [fold_left]. rewrite IH, elem_of_cons. case_bool_decide as Hin.
    + split; [tauto|]. intros [?|[->|?]]; tauto.
    + rewrite elem_of_app, list_elem_of_singleton. tauto.
Qed.

Lemma elem_of_newSet (values : list string) (x : string) :
  x ∈ newSet values <-> x ∈ values.
Proof. unfold newSet. rewrite newSet_from, elem_of_nil. tauto. Qed.

Lemma head_from (set values : list string) :
  head (fold_left (λ set value, if bool_decide (value ∈ set) then set
                                else set ++ [value]) values set)
  = head (set ++ values).
Proof.
  revert set. induction values as [|value values IH]; intros set.
  - cbn [fold_left]. by rewrite app_nil_r.
  - cbn [fold_left]. rewrite IH. case_bool_decide as Hin.
    + destruct set; [by apply elem_of_nil in Hin|done].
    + by rewrite <- app_assoc.
Qed.

Lemma head_newSet (values : list string) :
  head (newSet values) = head values.
Proof. unfold newSet. by rewrite head_from. Qed.

(** The values that [entries] give for [key], in order. *)
Lemma fromEntries_snoc (entries : list (string * bool))
    (entry : string * bool) :
  fromEntries (entries ++ [entry])
  = <[entry.1 := entry.2]> (fromEntries entries).
Proof. unfold fromEntries. by rewrite fold_left_app. Qed.

Lemma fromEntries_lookup (entries : list (string * bool)) (key : string) :
  fromEntries entries !! key
  = last (omap (λ entry : string * bool,
                  if bool_decide (entry.1 = key) then Some entry.2
                  else None) entries).
Proof.
  induction entries as [|entry entries IH] using rev_ind; [done|].
  rewrite fromEntries_snoc, omap_app. simpl. case_bool_decide as Hkey.
  - rewrite Hkey, lookup_insert_eq. by rewrite last_snoc.
  - rewrite lookup_insert_ne by done. by rewrite app_nil_r.
Qed.

Lemma resultsFor_entries id messages :
  resultsFor id messages
  = omap (λ entry : string * bool,
            if bool_decide (entry.1 = id) then Some entry.2 else None)
      (omap resultEntry messages).
Proof.
  induction messages as [|message messages IH]; [done|].
  unfold resultsFor in *. cbn [omap list_omap]. rewrite IH.
  destruct (resultEntry message) as [[toolUseID is_error]|]; [|done].
  cbn [omap list_omap fst snd]. by case_bool_decide.
Qed.

Lemma getToolResultIDs_lookup id messages :
  getToolResultIDs messages !! id = last (resultsFor id messages).
Proof.
  unfold getToolResultIDs. by rewrite fromEntries_lookup, resultsFor_entries.
Qed.

Lemma hasProperty_false id messages :
  hasProperty inherited id (getToolResultIDs messages) = false
  <-> resultsFor id messages = [] /\ id ∉ inherited.
Proof.
  unfold hasProperty. rewrite orb_false_iff, !bool_decide_eq_false.
  rewrite getToolResultIDs_lookup, <- last_None.
  rewrite <- eq_None_not_Some. done.
Qed.

Lemma unresolved_elem id messages :
  id ∈ getUnresolvedToolUseIDs inherited messages
  <-> (exists message, message ∈ messages /\ requestId message = Some id)
      /\ resultsFor id messages = [] /\ id ∉ inherited.
Proof.
  unfold getUnresolvedToolUseIDs.
  rewrite elem_of_newSet, list_elem_of_omap.
  rewrite <- hasProperty_false. split.
  - intros (message & Hin & Hkeep).
    destruct (requestId message) as [id'|] eqn:Hrequest; [|done].
    destruct (hasProperty inherited id' _) eqn:Hresolved; [done|].
    injection Hkeep as ->. split; [by exists message|done].
  - intros [(message & Hin & Hrequest) Hopen]. exists message.
    split; [done|]. by rewrite Hrequest, Hopen.
Qed.

(** X28.  A tool use is unresolved exactly when some message requests it
    as its first block and no message of the transcript, before or after
    the request, carries a result for it.  (A request whose id is the
    name of a member of [Object.prototype] counts as resolved.) *)
Theorem unresolved_tool_uses id messages :
  id ∈ getUnresolvedToolUseIDs inherited messages
  <-> (exists message, message ∈ messages /\ requestId message = Some id)
      /\ resultsFor id messages = [] /\ id ∉ inherited.
Proof. apply unresolved_elem. Qed.

(** X29.  Every tool use reported as in progress is unresolved, and
    whenever some tool use is unresolved the first of them is reported as
    in progress. *)
Theorem in_progress_tool_uses messages :
  (forall id, id ∈ getInProgressToolUseIDs inherited messages ->
              id ∈ getUnresolvedToolUseIDs inherited messages)
  /\ (forall id, head (getUnresolvedToolUseIDs inherited messages) = Some id ->
                 id ∈ getInProgressToolUseIDs inherited messages).
Proof.
  split.
  - intros id. unfold getInProgressToolUseIDs.
    rewrite elem_of_newSet, list_elem_of_omap.
    intros (message & Hin & Hkeep).
    destruct (requestId message) as [id'|]; [|done].
    case_bool_decide as Hfirst.
    + injection Hkeep as ->. symmetry in Hfirst.
      by apply head_Some_elem_of in Hfirst.
    + destruct (bool_decide (id' ∈ progressIds messages)); [|done].
      simpl in Hkeep. case_bool_decide as Hopen; [|done].
      by injection Hkeep as ->.
  - intros id Hfirst.
    pose proof (head_Some_elem_of _ _ Hfirst) as Hopen.
    apply unresolved_elem in Hopen as [(message & Hin & Hrequest) _].
    unfold getInProgressToolUseIDs.
    rewrite elem_of_newSet, list_elem_of_omap. exists message.
    split; [done|]. rewrite Hrequest.
    by rewrite bool_decide_true.
Qed.

(** X30.  A tool-use message is reported as errored exactly when the last
    result recorded for its tool use is an error result.  (A request
    without result whose id is the name of a member of
    [Object.prototype] is reported too.) *)
Theorem errored_tool_uses messages (message : Message) :
  message ∈ getErroredToolUseMessages inherited messages
  <-> message ∈ messages
      /\ exists id,
           requestId message = Some id
           /\ (last (resultsFor id messages) = Some true
               \/ resultsFor id messages = [] /\ id ∈ inherited).
Proof.
  unfold getErroredToolUseMessages.
  rewrite list_elem_of_In, filter_In, <- list_elem_of_In.
  apply and_iff_compat_l.
  destruct (requestId message) as [id|]; [|split; [done|by intros (? & ? & _)]].
  unfold hasProperty, property. rewrite getToolResultIDs_lookup.
  pose proof (last_None (resultsFor id messages)) as Hnone.
  destruct (last (resultsFor id messages)) as [[|]|] eqn:Hlast.
  - split; [|done]. intros _. exists id. split; [done|by left].
  - split; [by rewrite andb_false_r|].
    intros (id' & [= <-] & [Herror|[Hempty _]]); [congruence|].
    apply Hnone in Hempty. congruence.
  - rewrite bool_decide_false by by intros [? ?].
    simpl. rewrite andb_diag, bool_decide_eq_true. split.
    + intros Hin. exists id. split; [done|]. right.
      split; [by apply Hnone|done].
    + intros (id' & [= <-] & [Herror|[_ Hin]]); [congruence|done].
Qed.

End Properties.

End ToolUseIDsSpec.
